(** * ttl-cache: an in-memory cache with TTL, LRU eviction,
      stale-while-revalidate and request deduplication

    A shallow embedding of [packages/ttl-cache/src]: [linked-list.ts]
    (class [DoublyLinkedList]), [events.ts] (class [CacheEventEmitter]),
    [ttl-cache.ts] (class [TtlCache]) and the option types of [types.ts].

    Conventions of the embedding.
    - Objects are addressed by references ([ref], a natural number) into a
      heap of cache entries; the primary map and the eviction list both hold
      references to the same entry, as in the source.
    - Timestamps and durations are integers ([Z], milliseconds); every
      operation that reads [Date.now()] takes the clock value as an argument.
    - [emitter.emit] and the [onEvict] callback are observers: their calls are
      appended to a log and they do not call back into the cache.
    - The asynchronous part is a state machine whose transitions are the
      turns of the JavaScript event loop: a call of [getOrSet] up to its first
      suspension, the settlement of a loader together with the continuations
      that it wakes up, and the firing of an abort signal. *)

From stdpp Require Import base numbers functions option list.

Local Open Scope Z_scope.

(** References to heap-allocated cache entries. *)
Definition ref := nat.

(** ** Cache entries *)

Module CacheEntry.
Section CacheEntry.
Context {K V : Type}.

(** Modelled from the spec: the class [CacheEntry] of [cache-entry.ts] is not
    among the sources. The spec gives its fields (key, value, [expiresAt],
    [staleUntil] and the two navigation slots of the eviction list) and its
    three freshness states. *)
Record t := mk {
  key : K;
  value : V;
  expiresAt : Z;
  staleUntil : Z;
  prev : option ref;
  next : option ref;
}.

(** Modelled from the spec: fresh means [now < expiresAt]. *)
Definition isFresh (e : t) (now : Z) : bool := bool_decide (now < expiresAt e).

(** Modelled from the spec: stale means [expiresAt <= now < staleUntil]. *)
Definition isStale (e : t) (now : Z) : bool :=
  bool_decide (expiresAt e ≤ now) && bool_decide (now < staleUntil e).

(** Modelled from the spec: expired means [now >= staleUntil]. *)
Definition isExpired (e : t) (now : Z) : bool := bool_decide (staleUntil e ≤ now).

Definition set_prev (p : option ref) (e : t) : t :=
  mk (key e) (value e) (expiresAt e) (staleUntil e) p (next e).

Definition set_next (n : option ref) (e : t) : t :=
  mk (key e) (value e) (expiresAt e) (staleUntil e) (prev e) n.

(** [existing.value = value; existing.expiresAt = ...; existing.staleUntil = ...] *)
Definition set_payload (v : V) (ex su : Z) (e : t) : t :=
  mk (key e) v ex su (prev e) (next e).

(** What an entry holds apart from its links. *)
Definition payload (e : t) : K * V * Z * Z :=
  (key e, value e, expiresAt e, staleUntil e).

End CacheEntry.
Global Arguments t : clear implicits.
End CacheEntry.

(** ** The eviction list ([linked-list.ts]) *)

Module DoublyLinkedList.
Section DoublyLinkedList.
Context {K V : Type}.

Local Abbreviation heap := (ref → CacheEntry.t K V).

(** The list object: [head] is the most recently used entry, [tail] the least
    recently used one. *)
Record t := mk {
  head : option ref;
  tail : option ref;
}.

Definition empty : t := mk None None.

(** [addToFront(entry)] *)
Definition addToFront (r : ref) (hl : heap * t) : heap * t :=
  let '(h, l) := hl in
  let h := alter (CacheEntry.set_prev None) r h in
  let h := alter (CacheEntry.set_next (head l)) r h in
  let h := match head l with
           | Some hd => alter (CacheEntry.set_prev (Some r)) hd h
           | None => h
           end in
  let l := mk (Some r) (tail l) in
  let l := match tail l with
           | None => mk (head l) (Some r)
           | Some _ => l
           end in
  (h, l).

(** [remove(entry)] *)
Definition remove (r : ref) (hl : heap * t) : heap * t :=
  let '(h, l) := hl in
  let '(h, l) :=
    match CacheEntry.prev (h r) with
    | Some p => (alter (CacheEntry.set_next (CacheEntry.next (h r))) p h, l)
    | None => (h, mk (CacheEntry.next (h r)) (tail l))
    end in
  let '(h, l) :=
    match CacheEntry.next (h r) with
    | Some n => (alter (CacheEntry.set_prev (CacheEntry.prev (h r))) n h, l)
    | None => (h, mk (head l) (CacheEntry.prev (h r)))
    end in
  let h := alter (CacheEntry.set_prev None) r h in
  let h := alter (CacheEntry.set_next None) r h in
  (h, l).

(** [moveToFront(entry)] *)
Definition moveToFront (r : ref) (hl : heap * t) : heap * t :=
  if decide (head hl.2 = Some r) then hl
  else addToFront r (remove r hl).

(** [removeTail()] *)
Definition removeTail (hl : heap * t) : option ref * (heap * t) :=
  match tail hl.2 with
  | None => (None, hl)
  | Some r => (Some r, remove r hl)
  end.

(** [clear()]: the entries keep whatever links they had. *)
Definition clear (hl : heap * t) : heap * t := (hl.1, empty).

(** The entries reachable from [head] through [next], most recent first. The
    walk is bounded by [fuel]; [None] when it does not reach the end. *)
Fixpoint walk (fuel : nat) (h : heap) (cur : option ref) : option (list ref) :=
  match cur with
  | None => Some []
  | Some r =>
      match fuel with
      | O => None
      | S fuel' => cons r <$> walk fuel' h (CacheEntry.next (h r))
      end
  end.

(** *** Representation

    [seg h p rs n]: the entries [rs] are linked to each other in this order,
    the first one has [p] as its [prev] and the last one has [n] as its
    [next]. *)
Definition first_or (n : option ref) (rs : list ref) : option ref :=
  from_option Some n (hd_error rs).

Definition last_or (p : option ref) (rs : list ref) : option ref :=
  from_option Some p (last rs).

Fixpoint seg (h : heap) (p : option ref) (rs : list ref) (n : option ref) : Prop :=
  match rs with
  | [] => True
  | r :: rs' =>
      CacheEntry.prev (h r) = p ∧
      CacheEntry.next (h r) = first_or n rs' ∧
      seg h (Some r) rs' n
  end.

(** The list object [l] holds exactly the entries [rs], most recent first,
    each of them once. *)
Definition repr (h : heap) (l : t) (rs : list ref) : Prop :=
  NoDup rs ∧ head l = hd_error rs ∧ tail l = last rs ∧ seg h None rs None.

End DoublyLinkedList.
Global Arguments t : clear implicits.
End DoublyLinkedList.

(** ** The JavaScript [Map]

    ECMAScript keeps the entries of a [Map] in a list in insertion order;
    [delete] and [clear] empty the slots of the entries they remove and leave
    the slots in place, and an iterator is an index into that list. This is
    what makes iteration well defined while the map is being changed. *)

Module JsMap.
Section JsMap.
Context {K A : Type} `{!EqDecision K}.

Definition t := list (option (K * A)).

Definition empty : t := [].

(** The live entries, in insertion order. *)
Definition entries (m : t) : list (K * A) := omap id m.

Definition keys (m : t) : list K := (entries m).*1.

Definition values (m : t) : list A := (entries m).*2.

Definition size (m : t) : nat := length (entries m).

Fixpoint get (k : K) (m : t) : option A :=
  match m with
  | [] => None
  | Some (k', a) :: m' => if decide (k' = k) then Some a else get k m'
  | None :: m' => get k m'
  end.

Definition has (k : K) (m : t) : bool := bool_decide (is_Some (get k m)).

Definition set (k : K) (a : A) (m : t) : t :=
  if has k m
  then (λ slot, match slot with
                | Some (k', a') => if decide (k' = k) then Some (k, a) else Some (k', a')
                | None => None
                end) <$> m
  else m ++ [Some (k, a)].

Definition delete (k : K) (m : t) : t :=
  (λ slot, match slot with
           | Some (k', a') => if decide (k' = k) then None else Some (k', a')
           | None => None
           end) <$> m.

Definition clear (m : t) : t := (λ _, None) <$> m.

End JsMap.
Global Arguments t : clear implicits.
End JsMap.

(** ** Option records and observable events ([types.ts]) *)

Module SetOptions.
Record t := mk { ttlMs : option Z }.
End SetOptions.

Module GetOrSetOptions.
Record t := mk {
  ttlMs : option Z;
  swrMs : option Z;
  dedupe : option bool;
  signal : option nat;   (* the AbortSignal object, by identity *)
}.
End GetOrSetOptions.

Module CacheOptions.
Record t := mk {
  ttlMs : option Z;
  maxSize : option Z;
}.
End CacheOptions.

Inductive EvictReason := R_expired | R_evicted | R_manual | R_clear.

Inductive CacheEvent := Ev_hit | Ev_miss | Ev_set | Ev_evict | Ev_load | Ev_stale.

Global Instance EvictReason_eq_dec : EqDecision EvictReason.
Proof. solve_decision. Defined.

Global Instance CacheEvent_eq_dec : EqDecision CacheEvent.
Proof. solve_decision. Defined.

Definition DEFAULT_TTL_MS : Z := 30000.

(** ** The event emitter ([events.ts]) *)

Module CacheEventEmitter.
Section CacheEventEmitter.
Context {K V : Type}.

(** A handler is a function object, known by its identity. The [Set] of the
    handlers of one event keeps them in the order in which they were added,
    each once: a [Map] from the handler to nothing. *)
Definition Handlers := JsMap.t nat unit.

(** [listeners]: the handlers of each event. A [Set] object is referenced
    from this map only, so that changing it in place is storing the changed
    set under its event. *)
Definition t := JsMap.t CacheEvent Handlers.

Definition new : t := JsMap.empty.

(** [on(event, handler)] *)
Definition on (event : CacheEvent) (handler : nat) (em : t) : t :=
  match JsMap.get event em with
  | None => JsMap.set event (JsMap.set handler () JsMap.empty) em
  | Some set => JsMap.set event (JsMap.set handler () set) em
  end.

(** [off(event, handler)] *)
Definition off (event : CacheEvent) (handler : nat) (em : t) : t :=
  match JsMap.get event em with
  | None => em
  | Some set => JsMap.set event (JsMap.delete handler set) em
  end.

(** [emit(event, key, value)]: the calls [handler(key, value)] that it
    makes, in order. *)
Definition emit (event : CacheEvent) (k : K) (v : option V) (em : t)
    : list (nat * K * option V) :=
  match JsMap.get event em with
  | None => []
  | Some set => (λ handler, (handler, k, v)) <$> JsMap.keys set
  end.

(** [clear()] *)
Definition clear (em : t) : t := JsMap.clear em.

(** The handlers registered for an event, in the order in which [emit] calls
    them. *)
Definition handlers (event : CacheEvent) (em : t) : list nat :=
  from_option JsMap.keys [] (JsMap.get event em).

(** The calls that change an emitter, and a sequence of them applied to a
    new emitter. *)
Inductive Op :=
  | On (event : CacheEvent) (handler : nat)
  | Off (event : CacheEvent) (handler : nat)
  | Clear.

Definition apply (em : t) (op : Op) : t :=
  match op with
  | On event handler => on event handler em
  | Off event handler => off event handler em
  | Clear => clear em
  end.

Definition after (ops : list Op) : t := foldl apply new ops.

End CacheEventEmitter.
End CacheEventEmitter.

(** ** The cache ([ttl-cache.ts]) *)

Module TtlCache.
Section TtlCache.
Context {K V E : Type} `{!EqDecision K}.

Local Abbreviation Entry := (CacheEntry.t K V).

(** What the collaborators of the cache see: a call of [emitter.emit] or a
    call of the [onEvict] callback. *)
Inductive Obs :=
  | Emit (ev : CacheEvent) (k : K) (v : option V)
  | OnEvict (k : K) (v : V) (reason : EvictReason).

Record Stats := mkStats {
  hits : nat;
  misses : nat;
  stale : nat;
  loads : nat;
  evictions : nat;
}.

(** The state of the promise returned by one call of [executeLoader]. *)
Inductive Settled :=
  | Pending
  | Fulfilled (v : V)
  | Failed (e : E).

(** One call of [executeLoader]: the key and options it was called with, the
    loader it invoked, and the state of its promise. *)
Record Load := mkLoad {
  l_key : K;
  l_loader : nat;
  l_options : option GetOrSetOptions.t;
  l_state : Settled;
}.

(** How the promise returned by [getOrSet] to one caller may reject: with the
    loader's error, or with the reason of the caller's abort signal. *)
Inductive Rejection :=
  | LoaderError (e : E)
  | AbortError (sg : nat).

Inductive Outcome :=
  | Resolved (v : V)
  | Rejected (r : Rejection).

(** A continuation waiting for a loader promise. For a call of [getOrSet]
    suspended in [withAbort]: the caller, the promise, the caller's abort
    signal, and the key that the [finally] block of the call deletes from
    [inflight] (only the call that started the loader with [dedupe] on has
    one). For the [catch]/[finally] chain of [refreshInBackground]: no
    caller, no signal, and the key that its [finally] handler deletes. *)
Record Waiter := mkWaiter {
  w_caller : option nat;
  w_promise : nat;
  w_signal : option nat;
  w_finally : option K;
}.

(** The fields of the class, followed by the state of the event loop: the
    promises made by [executeLoader], the suspended calls, the abort signals
    that have fired, and the settled results of the [getOrSet] calls. *)
Record t := mk {
  c_map : JsMap.t K ref;
  c_heap : ref → Entry;
  c_next : ref;
  c_list : DoublyLinkedList.t;
  c_inflight : JsMap.t K nat;
  defaultTtlMs : Z;
  maxSize : option Z;
  stats : Stats;
  c_log : list Obs;
  c_loads : list Load;
  c_waiters : list Waiter;
  c_aborted : list nat;
  c_results : list (nat * Outcome);
}.

Definition with_map (f : JsMap.t K ref → JsMap.t K ref) (c : t) : t :=
  mk (f (c_map c)) (c_heap c) (c_next c) (c_list c) (c_inflight c) (defaultTtlMs c)
     (maxSize c) (stats c) (c_log c) (c_loads c) (c_waiters c) (c_aborted c) (c_results c).

Definition with_heap (f : (ref → Entry) → (ref → Entry)) (c : t) : t :=
  mk (c_map c) (f (c_heap c)) (c_next c) (c_list c) (c_inflight c) (defaultTtlMs c)
     (maxSize c) (stats c) (c_log c) (c_loads c) (c_waiters c) (c_aborted c) (c_results c).

Definition with_next (n : ref) (c : t) : t :=
  mk (c_map c) (c_heap c) n (c_list c) (c_inflight c) (defaultTtlMs c)
     (maxSize c) (stats c) (c_log c) (c_loads c) (c_waiters c) (c_aborted c) (c_results c).

(** Runs a method of [this.list] on the heap and the list object. *)
Definition with_list
    (f : (ref → Entry) * DoublyLinkedList.t → (ref → Entry) * DoublyLinkedList.t)
    (c : t) : t :=
  let hl := f (c_heap c, c_list c) in
  mk (c_map c) hl.1 (c_next c) hl.2 (c_inflight c) (defaultTtlMs c)
     (maxSize c) (stats c) (c_log c) (c_loads c) (c_waiters c) (c_aborted c) (c_results c).

Definition with_inflight (f : JsMap.t K nat → JsMap.t K nat) (c : t) : t :=
  mk (c_map c) (c_heap c) (c_next c) (c_list c) (f (c_inflight c)) (defaultTtlMs c)
     (maxSize c) (stats c) (c_log c) (c_loads c) (c_waiters c) (c_aborted c) (c_results c).

Definition with_stats (f : Stats → Stats) (c : t) : t :=
  mk (c_map c) (c_heap c) (c_next c) (c_list c) (c_inflight c) (defaultTtlMs c)
     (maxSize c) (f (stats c)) (c_log c) (c_loads c) (c_waiters c) (c_aborted c) (c_results c).

Definition with_log (f : list Obs → list Obs) (c : t) : t :=
  mk (c_map c) (c_heap c) (c_next c) (c_list c) (c_inflight c) (defaultTtlMs c)
     (maxSize c) (stats c) (f (c_log c)) (c_loads c) (c_waiters c) (c_aborted c) (c_results c).

Definition with_loads (f : list Load → list Load) (c : t) : t :=
  mk (c_map c) (c_heap c) (c_next c) (c_list c) (c_inflight c) (defaultTtlMs c)
     (maxSize c) (stats c) (c_log c) (f (c_loads c)) (c_waiters c) (c_aborted c) (c_results c).

Definition with_waiters (f : list Waiter → list Waiter) (c : t) : t :=
  mk (c_map c) (c_heap c) (c_next c) (c_list c) (c_inflight c) (defaultTtlMs c)
     (maxSize c) (stats c) (c_log c) (c_loads c) (f (c_waiters c)) (c_aborted c) (c_results c).

Definition with_aborted (f : list nat → list nat) (c : t) : t :=
  mk (c_map c) (c_heap c) (c_next c) (c_list c) (c_inflight c) (defaultTtlMs c)
     (maxSize c) (stats c) (c_log c) (c_loads c) (c_waiters c) (f (c_aborted c)) (c_results c).

Definition with_results (f : list (nat * Outcome) → list (nat * Outcome)) (c : t) : t :=
  mk (c_map c) (c_heap c) (c_next c) (c_list c) (c_inflight c) (defaultTtlMs c)
     (maxSize c) (stats c) (c_log c) (c_loads c) (c_waiters c) (c_aborted c) (f (c_results c)).

Definition hit_incr (s : Stats) : Stats :=
  mkStats (S (hits s)) (misses s) (stale s) (loads s) (evictions s).
Definition miss_incr (s : Stats) : Stats :=
  mkStats (hits s) (S (misses s)) (stale s) (loads s) (evictions s).
Definition stale_incr (s : Stats) : Stats :=
  mkStats (hits s) (misses s) (S (stale s)) (loads s) (evictions s).
Definition load_incr (s : Stats) : Stats :=
  mkStats (hits s) (misses s) (stale s) (S (loads s)) (evictions s).
Definition eviction_incr (s : Stats) : Stats :=
  mkStats (hits s) (misses s) (stale s) (loads s) (S (evictions s)).

(** [new TtlCache(options)]; the periodic cleanup timer is left out. No entry
    is allocated yet: the heap is filled with a placeholder that is never
    reached, which is the only use of the inhabitants of [K] and [V]. *)
Definition new `{!Inhabited K, !Inhabited V} (options : option CacheOptions.t) : t :=
  mk JsMap.empty
     (λ _, CacheEntry.mk inhabitant inhabitant 0 0 None None)
     0%nat DoublyLinkedList.empty JsMap.empty
     (default DEFAULT_TTL_MS (options ≫= CacheOptions.ttlMs))
     (options ≫= CacheOptions.maxSize)
     (mkStats 0 0 0 0 0) [] [] [] [] [].

(** *** Internal helpers *)

(** [this.emitter.emit(event, key, value)] *)
Definition emit (ev : CacheEvent) (k : K) (v : option V) (c : t) : t :=
  with_log (λ l, l ++ [Emit ev k v]) c.

(** [this.onEvict?.(key, value, reason)] *)
Definition onEvict (k : K) (v : V) (reason : EvictReason) (c : t) : t :=
  with_log (λ l, l ++ [OnEvict k v reason]) c.

(** [removeEntry(entry, reason)] *)
Definition removeEntry (r : ref) (reason : EvictReason) (c : t) : t :=
  let c := with_list (DoublyLinkedList.remove r) c in
  let e := c_heap c r in
  let c := with_map (JsMap.delete (CacheEntry.key e)) c in
  let c := if bool_decide (reason = R_expired ∨ reason = R_evicted)
           then with_stats eviction_incr c else c in
  let c := onEvict (CacheEntry.key e) (CacheEntry.value e) reason c in
  emit Ev_evict (CacheEntry.key e) (Some (CacheEntry.value e)) c.

(** [for (const entry of entries) this.removeEntry(entry, reason)] *)
Definition removeEntries (reason : EvictReason) (entries : list ref) (c : t) : t :=
  foldl (λ c r, removeEntry r reason c) c entries.

(** The [while] loop of [enforceMaxSize]. The loop has no bound of its own in
    the source; [fuel] bounds the number of iterations and [None] means that
    the fuel ran out before the loop ended. *)
Fixpoint enforceMaxSize_loop (fuel : nat) (bound : Z) (c : t) : option t :=
  if bool_decide (bound < Z.of_nat (JsMap.size (c_map c))) then
    match fuel with
    | O => None
    | S fuel' =>
        match DoublyLinkedList.removeTail (c_heap c, c_list c) with
        | (None, _) => Some c
        | (Some r, _) =>
            let c := with_list (λ hl, (DoublyLinkedList.removeTail hl).2) c in
            let e := c_heap c r in
            let c := with_map (JsMap.delete (CacheEntry.key e)) c in
            let c := with_stats eviction_incr c in
            let c := onEvict (CacheEntry.key e) (CacheEntry.value e) R_evicted c in
            let c := emit Ev_evict (CacheEntry.key e) (Some (CacheEntry.value e)) c in
            enforceMaxSize_loop fuel' bound c
        end
    end
  else Some c.

(** [enforceMaxSize()] *)
Definition enforceMaxSize (c : t) : option t :=
  match maxSize c with
  | None => Some c
  | Some bound => enforceMaxSize_loop (S (JsMap.size (c_map c))) bound c
  end.

(** *** Synchronous API *)

(** [set(key, value, options)] *)
Definition set (k : K) (v : V) (options : option SetOptions.t) (now : Z) (c : t)
    : option t :=
  let ttl := default (defaultTtlMs c) (options ≫= SetOptions.ttlMs) in
  let expiresAt := now + ttl in
  let staleUntil := expiresAt in
  c ← match JsMap.get k (c_map c) with
      | Some existing =>
          let c := with_heap
                     (alter (CacheEntry.set_payload v expiresAt staleUntil) existing) c in
          Some (with_list (DoublyLinkedList.moveToFront existing) c)
      | None =>
          let entry := c_next c in
          let c := with_next (S entry) c in
          let c := with_heap
                     <[entry := CacheEntry.mk k v expiresAt staleUntil None None]> c in
          let c := with_map (JsMap.set k entry) c in
          let c := with_list (DoublyLinkedList.addToFront entry) c in
          enforceMaxSize c
      end;
  Some (emit Ev_set k (Some v) c).

(** [get(key)] *)
Definition get (k : K) (now : Z) (c : t) : option V * t :=
  match JsMap.get k (c_map c) with
  | None =>
      let c := with_stats miss_incr c in
      (None, emit Ev_miss k None c)
  | Some r =>
      let entry := c_heap c r in
      if negb (CacheEntry.isFresh entry now) then
        let c := if CacheEntry.isExpired entry now
                 then removeEntry r R_expired c else c in
        let c := with_stats miss_incr c in
        (None, emit Ev_miss k None c)
      else
        let c := with_list (DoublyLinkedList.moveToFront r) c in
        let c := with_stats hit_incr c in
        let c := emit Ev_hit k (Some (CacheEntry.value (c_heap c r))) c in
        (Some (CacheEntry.value (c_heap c r)), c)
  end.

(** [peek(key)] *)
Definition peek (k : K) (now : Z) (c : t) : option V * t :=
  match JsMap.get k (c_map c) with
  | None => (None, c)
  | Some r =>
      let entry := c_heap c r in
      if CacheEntry.isExpired entry now
      then (None, removeEntry r R_expired c)
      else (Some (CacheEntry.value entry), c)
  end.

(** [has(key)] *)
Definition has (k : K) (now : Z) (c : t) : bool * t :=
  match JsMap.get k (c_map c) with
  | None => (false, c)
  | Some r =>
      if CacheEntry.isExpired (c_heap c r) now
      then (false, removeEntry r R_expired c)
      else (true, c)
  end.

(** [delete(key)] *)
Definition delete (k : K) (c : t) : bool * t :=
  match JsMap.get k (c_map c) with
  | None => (false, c)
  | Some r => (true, removeEntry r R_manual c)
  end.

(** [clear()] *)
Definition clear (c : t) : t :=
  let c := foldl (λ c r,
                    let e := c_heap c r in
                    let c := onEvict (CacheEntry.key e) (CacheEntry.value e) R_clear c in
                    emit Ev_evict (CacheEntry.key e) (Some (CacheEntry.value e)) c)
                 c (JsMap.values (c_map c)) in
  let c := with_map JsMap.clear c in
  with_list DoublyLinkedList.clear c.

(** [get size()] *)
Definition size (c : t) : nat := JsMap.size (c_map c).

(** [sweep()]: the loop visits the entries that are in the map when it
    starts; it deletes only the entry it is visiting. *)
Definition sweep (now : Z) (c : t) : t :=
  foldl (λ c r, if CacheEntry.isExpired (c_heap c r) now
                then removeEntry r R_expired c else c)
        c (JsMap.values (c_map c)).

(** [prune()] *)
Definition prune (now : Z) (c : t) : t := sweep now c.

(** [setWithSwr(key, value, options)] *)
Definition setWithSwr (k : K) (v : V) (options : option GetOrSetOptions.t)
    (now : Z) (c : t) : option t :=
  let ttl := default (defaultTtlMs c) (options ≫= GetOrSetOptions.ttlMs) in
  let swr := default 0 (options ≫= GetOrSetOptions.swrMs) in
  let expiresAt := now + ttl in
  let staleUntil := expiresAt + swr in
  c ← match JsMap.get k (c_map c) with
      | Some existing =>
          let c := with_heap
                     (alter (CacheEntry.set_payload v expiresAt staleUntil) existing) c in
          Some (with_list (DoublyLinkedList.moveToFront existing) c)
      | None =>
          let entry := c_next c in
          let c := with_next (S entry) c in
          let c := with_heap
                     <[entry := CacheEntry.mk k v expiresAt staleUntil None None]> c in
          let c := with_map (JsMap.set k entry) c in
          let c := with_list (DoublyLinkedList.addToFront entry) c in
          enforceMaxSize c
      end;
  Some (emit Ev_set k (Some v) c).

(** *** Iteration

    [*[Symbol.iterator]()] is a generator: its body runs only while the
    consumer is inside [next()], and between two calls of [next()] the
    consumer may call any method of the cache. A suspended generator keeps
    the clock value it read at its start, its position in the map and the
    array [expired] of the entries it has set aside. *)

Inductive Generator :=
  | GenStart
  | GenSuspended (now : Z) (idx : nat) (expired : list ref)
  | GenDone.

(** The first [for] loop of the generator from slot [idx] on, up to its next
    [yield] or to the end of the map. *)
Fixpoint scan (h : ref → Entry) (now : Z) (slots : JsMap.t K ref) (idx : nat)
    (expired : list ref) : option (K * V) * nat * list ref :=
  match slots with
  | [] => (None, idx, expired)
  | None :: slots' => scan h now slots' (S idx) expired
  | Some (_, r) :: slots' =>
      let entry := h r in
      if CacheEntry.isExpired entry now
      then scan h now slots' (S idx) (expired ++ [r])
      else if CacheEntry.isFresh entry now
      then (Some (CacheEntry.key entry, CacheEntry.value entry), S idx, expired)
      else scan h now slots' (S idx) expired
  end.

Definition resume (now : Z) (idx : nat) (expired : list ref) (c : t)
    : option (K * V) * Generator * t :=
  match scan (c_heap c) now (drop idx (c_map c)) idx expired with
  | (Some kv, idx', expired') => (Some kv, GenSuspended now idx' expired', c)
  | (None, _, expired') =>
      (None, GenDone, removeEntries R_expired expired' c)
  end.

(** One call of [next()] on the generator, at clock value [clock]. *)
Definition iterator_next (clock : Z) (g : Generator) (c : t)
    : option (K * V) * Generator * t :=
  match g with
  | GenStart => resume clock 0 [] c
  | GenSuspended now idx expired => resume now idx expired c
  | GenDone => (None, GenDone, c)
  end.

(** The consumer calls [next()] until the generator is done and does
    nothing else in between; [fuel] bounds the number of calls. *)
Fixpoint drain (fuel : nat) (clock : Z) (g : Generator) (c : t)
    : option (list (K * V) * t) :=
  match fuel with
  | O => None
  | S fuel' =>
      match iterator_next clock g c with
      | (Some kv, g', c') =>
          (λ rest, (kv :: rest.1, rest.2)) <$> drain fuel' clock g' c'
      | (None, _, c') => Some ([], c')
      end
  end.

(** The pairs that the generator yields over the slots [m], and the entries
    that it sets aside as expired. *)
Definition yielded (h : ref → Entry) (now : Z) (m : JsMap.t K ref) : list (K * V) :=
  (λ e, (CacheEntry.key e, CacheEntry.value e)) <$>
  filter (λ e, CacheEntry.isExpired e now = false ∧ CacheEntry.isFresh e now = true)
         (h <$> JsMap.values m).

Definition set_aside (h : ref → Entry) (now : Z) (m : JsMap.t K ref) : list ref :=
  filter (λ r, CacheEntry.isExpired (h r) now = true) (JsMap.values m).

(** [[...cache]]: what [drain] computes, see [drain_spread]. All the entries
    are scanned before any is removed, so the pairs are those of the fresh
    entries and the entries removed are the expired ones. *)
Definition spread (now : Z) (c : t) : list (K * V) * t :=
  (yielded (c_heap c) now (c_map c),
   removeEntries R_expired (set_aside (c_heap c) now (c_map c)) c).

(** *** Asynchronous API *)

Definition dedupe_on (options : option GetOrSetOptions.t) : bool :=
  negb (bool_decide (options ≫= GetOrSetOptions.dedupe = Some false)).

(** A suspended call ends: its [finally] block runs, then the promise it
    returned to its caller settles. *)
Definition settle_waiter (o : Outcome) (c : t) (w : Waiter) : t :=
  let c := match w_finally w with
           | Some k => with_inflight (JsMap.delete k) c
           | None => c
           end in
  match w_caller w with
  | Some caller => with_results (λ rs, rs ++ [(caller, o)]) c
  | None => c
  end.

(** [signal.aborted], for an optional signal. *)
Definition signal_aborted (signal : option nat) (c : t) : option nat :=
  sg ← signal;
  if bool_decide (sg ∈ c_aborted c) then Some sg else None.

(** Waiting for [withAbort(promise, signal)]: reject at once if the signal
    has fired; otherwise wait for the promise, or take its result if it has
    settled already. *)
Definition withAbort (w : Waiter) (c : t) : t :=
  match signal_aborted (w_signal w) c with
  | Some sg => settle_waiter (Rejected (AbortError sg)) c w
  | None =>
      match l_state <$> c_loads c !! w_promise w with
      | Some (Fulfilled v) => settle_waiter (Resolved v) c w
      | Some (Failed e) => settle_waiter (Rejected (LoaderError e)) c w
      | _ => with_waiters (λ ws, ws ++ [w]) c
      end
  end.

(** [executeLoader(key, loader, options)] up to [await loader()]: the loader
    is invoked and the new promise is returned. *)
Definition executeLoader (k : K) (loader : nat) (options : option GetOrSetOptions.t)
    (c : t) : nat * t :=
  (length (c_loads c), with_loads (λ ls, ls ++ [mkLoad k loader options Pending]) c).

(** [refreshInBackground(key, loader, options)]: the [catch]/[finally] chain
    is a waiter with no caller behind it. *)
Definition refreshInBackground (k : K) (loader : nat)
    (options : option GetOrSetOptions.t) (c : t) : t :=
  if JsMap.has k (c_inflight c) then c
  else
    let '(promise, c) := executeLoader k loader options c in
    let c := with_inflight (JsMap.set k promise) c in
    with_waiters (λ ws, ws ++ [mkWaiter None promise None (Some k)]) c.

(** The third branch of [getOrSet], from [this.stats.misses++] to the
    suspension at [await]. *)
Definition getOrSet_miss (caller : nat) (k : K) (loader : nat)
    (options : option GetOrSetOptions.t) (c : t) : t :=
  let signal := options ≫= GetOrSetOptions.signal in
  let c := with_stats miss_incr c in
  let c := emit Ev_miss k None c in
  let dedupe := dedupe_on options in
  match (if dedupe then JsMap.get k (c_inflight c) else None) with
  | Some existing => withAbort (mkWaiter (Some caller) existing signal None) c
  | None =>
      let '(promise, c) := executeLoader k loader options c in
      let c := if dedupe then with_inflight (JsMap.set k promise) c else c in
      withAbort (mkWaiter (Some caller) promise signal
                          (if dedupe then Some k else None)) c
  end.

(** [getOrSet(key, loader, options)] up to its first suspension. A call that
    returns without suspending has its result recorded at once. *)
Definition getOrSet (caller : nat) (k : K) (loader : nat)
    (options : option GetOrSetOptions.t) (now : Z) (c : t) : t :=
  let signal := options ≫= GetOrSetOptions.signal in
  match signal_aborted signal c with
  | Some sg => with_results (λ rs, rs ++ [(caller, Rejected (AbortError sg))]) c
  | None =>
      match JsMap.get k (c_map c) with
      | Some entry =>
          if CacheEntry.isFresh (c_heap c entry) now then
            let c := with_list (DoublyLinkedList.moveToFront entry) c in
            let c := with_stats hit_incr c in
            let c := emit Ev_hit k (Some (CacheEntry.value (c_heap c entry))) c in
            with_results
              (λ rs, rs ++ [(caller, Resolved (CacheEntry.value (c_heap c entry)))]) c
          else if CacheEntry.isStale (c_heap c entry) now then
            let c := with_list (DoublyLinkedList.moveToFront entry) c in
            let c := with_stats stale_incr c in
            let c := emit Ev_stale k (Some (CacheEntry.value (c_heap c entry))) c in
            let c := refreshInBackground k loader options c in
            with_results
              (λ rs, rs ++ [(caller, Resolved (CacheEntry.value (c_heap c entry)))]) c
          else getOrSet_miss caller k loader options (removeEntry entry R_expired c)
      | None => getOrSet_miss caller k loader options c
      end
  end.

(** [executeLoader] from the point where [await loader()] has returned
    [value]. *)
Definition executeLoader_resume (k : K) (value : V)
    (options : option GetOrSetOptions.t) (now : Z) (c : t) : option t :=
  c ← setWithSwr k value options now c;
  let c := with_stats load_incr c in
  Some (emit Ev_load k (Some value) c).

Definition outcome_of (res : V + E) : Outcome :=
  match res with
  | inl v => Resolved v
  | inr e => Rejected (LoaderError e)
  end.

(** The promise [p] of the load [ld] takes its final state, and the
    continuations that wait for it run, here in the order in which they were
    suspended. Only the [finally] blocks change the cache, and they delete
    the same key, so the order within the turn makes no difference to the
    state; it shows only in the order of [c_results]. *)
Definition resolve_promise (p : nat) (ld : Load) (res : V + E) (c : t) : t :=
  let state := match res with inl v => Fulfilled v | inr e => Failed e end in
  let c := with_loads
             <[p := mkLoad (l_key ld) (l_loader ld) (l_options ld) state]> c in
  let woken := filter (λ w, w_promise w = p) (c_waiters c) in
  let c := with_waiters (filter (λ w, w_promise w ≠ p)) c in
  foldl (settle_waiter (outcome_of res)) c woken.

(** The loader called for the promise [p] settles with [res]: the rest of
    [executeLoader] runs, then every continuation waiting for [p]. A promise
    settles once; the event does nothing for a promise that is not pending. *)
Definition settle (p : nat) (res : V + E) (now : Z) (c : t) : option t :=
  match c_loads c !! p with
  | Some ld =>
      match l_state ld with
      | Pending =>
          c ← match res with
              | inl value => executeLoader_resume (l_key ld) value (l_options ld) now c
              | inr _ => Some c
              end;
          Some (resolve_promise p ld res c)
      | _ => Some c
      end
  | None => Some c
  end.

(** The abort signal [sg] fires: every call suspended in [withAbort] with
    that signal rejects; the loaders keep running. *)
Definition abort (sg : nat) (c : t) : t :=
  if bool_decide (sg ∈ c_aborted c) then c
  else
    let c := with_aborted (cons sg) c in
    let woken := filter (λ w, w_signal w = Some sg) (c_waiters c) in
    let c := with_waiters (filter (λ w, w_signal w ≠ Some sg)) c in
    foldl (settle_waiter (Rejected (AbortError sg))) c woken.

(** *** Views of the state used in the statements *)

(** The entries of the eviction list, most recent first. No reference at or
    above [c_next] is allocated, which bounds the walk. *)
Definition order (c : t) : list ref :=
  default [] (DoublyLinkedList.walk (c_next c) (c_heap c)
                                    (DoublyLinkedList.head (c_list c))).

(** The keys in eviction order: the last one is the next to be evicted. *)
Definition lru_keys (c : t) : list K :=
  (λ r, CacheEntry.key (c_heap c r)) <$> order c.

(** The entry stored under a key, whatever its freshness. *)
Definition lookup (k : K) (c : t) : option Entry :=
  c_heap c <$> JsMap.get k (c_map c).

(** The key and the value of every entry, in eviction order. *)
Definition entry_kv (h : ref → Entry) (r : ref) : K * V :=
  (CacheEntry.key (h r), CacheEntry.value (h r)).

Definition lru_entries (c : t) : list (K * V) := entry_kv (c_heap c) <$> order c.

(** What the observers see when the entries [kvs] are removed, in this order
    and for this reason. *)
Definition evict_obs (reason : EvictReason) (kvs : list (K * V)) : list Obs :=
  kvs ≫= λ kv, [OnEvict kv.1 kv.2 reason; Emit Ev_evict kv.1 (Some kv.2)].

Definition evict_log (h : ref → Entry) (reason : EvictReason) (rs : list ref)
    : list Obs :=
  evict_obs reason (entry_kv h <$> rs).

(** The number of entries that [enforceMaxSize] leaves in a store of [n]
    entries. *)
Definition capacity (c : t) (n : nat) : nat :=
  match maxSize c with
  | None => n
  | Some bound => Z.to_nat bound `min` n
  end.

(** A capacity bound, if any, leaves room for one entry. *)
Definition capacity_ok (c : t) : Prop :=
  match maxSize c with
  | None => True
  | Some bound => 1 ≤ bound
  end.

(** The part of [set] and of [setWithSwr] that follows the computation of
    the two timestamps; the source spells it out in both. *)
Definition write (k : K) (v : V) (expiresAt staleUntil : Z) (c : t) : option t :=
  c ← match JsMap.get k (c_map c) with
      | Some existing =>
          let c := with_heap
                     (alter (CacheEntry.set_payload v expiresAt staleUntil) existing) c in
          Some (with_list (DoublyLinkedList.moveToFront existing) c)
      | None =>
          let entry := c_next c in
          let c := with_next (S entry) c in
          let c := with_heap
                     <[entry := CacheEntry.mk k v expiresAt staleUntil None None]> c in
          let c := with_map (JsMap.set k entry) c in
          let c := with_list (DoublyLinkedList.addToFront entry) c in
          enforceMaxSize c
      end;
  Some (emit Ev_set k (Some v) c).

(** *** Invariants *)

(** The map and the eviction list hold the same entries: the list holds the
    entries [rs], each once; the map has one entry per key; a reference is
    found in the map under a key exactly when it is in the list and that key
    is the key of its entry; and all of them have been allocated. *)
Definition store_inv (c : t) (rs : list ref) : Prop :=
  DoublyLinkedList.repr (c_heap c) (c_list c) rs ∧
  NoDup (JsMap.keys (c_map c)) ∧
  (∀ k r, JsMap.get k (c_map c) = Some r ↔ r ∈ rs ∧ CacheEntry.key (c_heap c r) = k) ∧
  (∀ r, r ∈ rs → (r < c_next c)%nat).

Definition consistent (c : t) : Prop := ∃ rs, store_inv c rs.

(** Every suspended continuation waits for a promise that is still pending,
    and [inflight] holds promises made by [executeLoader]. *)
Definition runtime_inv (c : t) : Prop :=
  (∀ w, w ∈ c_waiters c →
     ∃ ld, c_loads c !! w_promise w = Some ld ∧ l_state ld = Pending) ∧
  (∀ k p, JsMap.get k (c_inflight c) = Some p → (p < length (c_loads c))%nat).

Definition wf (c : t) : Prop := consistent c ∧ runtime_inv c.

(** Two states with the same store and configuration: the map, the heap,
    the eviction list and the allocation counter. *)
Definition store_eq (c c' : t) : Prop :=
  c_map c' = c_map c ∧ c_heap c' = c_heap c ∧ c_list c' = c_list c ∧
  c_next c' = c_next c ∧ maxSize c' = maxSize c ∧ defaultTtlMs c' = defaultTtlMs c.

(** Two states with the same asynchronous part: the in-flight registry, the
    loader promises, the suspended calls, the fired signals and the results
    delivered to the callers. *)
Definition runtime_eq (c c' : t) : Prop :=
  c_inflight c' = c_inflight c ∧ c_loads c' = c_loads c ∧
  c_waiters c' = c_waiters c ∧ c_aborted c' = c_aborted c ∧
  c_results c' = c_results c.

(** The result that a continuation delivers to its caller when it ends with
    the outcome [o], and the results that the continuations [ws] deliver, in
    order. The handlers of a background refresh deliver nothing. *)
Definition delivered (o : Outcome) (w : Waiter) : option (nat * Outcome) :=
  (λ caller, (caller, o)) <$> w_caller w.

Definition answers (o : Outcome) (ws : list Waiter) : list (nat * Outcome) :=
  omap (delivered o) ws.

(** A call of [getOrSet] by one caller: the caller, the loader it passes,
    its options and the clock value at the call. *)
Record Call := mkCall {
  call_caller : nat;
  call_loader : nat;
  call_options : option GetOrSetOptions.t;
  call_now : Z;
}.

Definition getOrSet_call (k : K) (c : t) (call : Call) : t :=
  getOrSet (call_caller call) k (call_loader call) (call_options call) (call_now call) c.

(** Calls for the same key made one after the other, with nothing in
    between. *)
Definition getOrSet_calls (k : K) (calls : list Call) (c : t) : t :=
  foldl (getOrSet_call k) c calls.

(** *** States named in the lemmas *)

(** What [write] does to an existing key. *)
Definition written_existing (k : K) (v : V) (ex su : Z) (r : ref) (c : t) : t :=
  emit Ev_set k (Some v)
    (with_list (DoublyLinkedList.moveToFront r)
       (with_heap (alter (CacheEntry.set_payload v ex su) r) c)).

(** The state of [write] for a new key, before the capacity is enforced. *)
Definition inserted (k : K) (v : V) (ex su : Z) (c : t) : t :=
  with_list (DoublyLinkedList.addToFront (c_next c))
    (with_map (JsMap.set k (c_next c))
       (with_heap <[c_next c := CacheEntry.mk k v ex su None None]>
          (with_next (S (c_next c)) c))).

Definition written_new (k : K) (v : V) (ex su : Z) (rs : list ref) (c : t) : t :=
  emit Ev_set k (Some v)
    (removeEntries R_evicted
       (reverse (drop (capacity c (S (length rs))) (c_next c :: rs)))
       (inserted k v ex su c)).

(** The continuation of a call that waits for the promise [p]. *)
Definition waiter_of (p : nat) (finally : option K) (call : Call) :
    Waiter :=
  mkWaiter (Some (call_caller call)) p
    (call_options call ≫= GetOrSetOptions.signal) finally.

(** The sequence of events that the cache can go through. *)
Inductive Event :=
  | DoSet (k : K) (v : V) (options : option SetOptions.t)
  | DoGet (k : K)
  | DoPeek (k : K)
  | DoHas (k : K)
  | DoDelete (k : K)
  | DoClear
  | DoPrune
  | DoSpread
  | DoGetOrSet (caller : nat) (k : K) (loader : nat) (options : option GetOrSetOptions.t)
  | DoSettle (p : nat) (res : V + E)
  | DoAbort (sg : nat).

(** One event at clock value [now]. *)
Definition step (ev : Event) (now : Z) (c : t) : option t :=
  match ev with
  | DoSet k v options => set k v options now c
  | DoGet k => Some (get k now c).2
  | DoPeek k => Some (peek k now c).2
  | DoHas k => Some (has k now c).2
  | DoDelete k => Some (delete k c).2
  | DoClear => Some (clear c)
  | DoPrune => Some (prune now c)
  | DoSpread => Some (spread now c).2
  | DoGetOrSet caller k loader options => Some (getOrSet caller k loader options now c)
  | DoSettle p res => settle p res now c
  | DoAbort sg => Some (abort sg c)
  end.

(** A run: the events in order, each with the clock value at which it
    happens. *)
Fixpoint run (evs : list (Event * Z)) (c : t) : option t :=
  match evs with
  | [] => Some c
  | (ev, now) :: evs' => c ← step ev now c; run evs' c
  end.

(** The state that a run leads to. A run from a well-formed state never
    runs out of fuel, see [run_wf]. *)
Definition reach (evs : list (Event * Z)) (c : t) : t := default c (run evs c).

(** *** Statistics *)

Record CacheStats := mkCacheStats {
  cs_hits : nat;
  cs_misses : nat;
  cs_stale : nat;
  cs_loads : nat;
  cs_evictions : nat;
  cs_size : nat;
}.

(** [getStats()] *)
Definition getStats (c : t) : CacheStats :=
  mkCacheStats (hits (stats c)) (misses (stats c)) (stale (stats c)) (loads (stats c))
               (evictions (stats c)) (JsMap.size (c_map c)).

(** The counters that a log of observations accounts for: one hit, miss,
    stale serve or load for each event of that name, and one eviction for
    each call of [onEvict] with reason [expired] or [evicted]. *)
Definition tally_obs (s : Stats) (o : Obs) : Stats :=
  match o with
  | Emit Ev_hit _ _ => hit_incr s
  | Emit Ev_miss _ _ => miss_incr s
  | Emit Ev_stale _ _ => stale_incr s
  | Emit Ev_load _ _ => load_incr s
  | Emit _ _ _ => s
  | OnEvict _ _ R_expired | OnEvict _ _ R_evicted => eviction_incr s
  | OnEvict _ _ _ => s
  end.

Definition tally (log : list Obs) : Stats := foldl tally_obs (mkStats 0 0 0 0 0) log.

(** *** [keys()], [values()] and [entries()]

    Each of them is a generator around the iterator of the cache: a call of
    its [next()] is a call of [next()] on the iterator, and it yields the
    key, the value, or the pair. *)

Definition project_next {A} (f : K * V → A) (clock : Z) (g : Generator) (c : t)
    : option A * Generator * t :=
  let '(kv, g', c') := iterator_next clock g c in (f <$> kv, g', c').

Definition keys_next := project_next fst.
Definition values_next := project_next snd.
Definition entries_next := project_next id.

(** The consumer calls [next()] until the generator is done, with nothing in
    between. *)
Fixpoint drain_with {A} (next : Z → Generator → t → option A * Generator * t)
    (fuel : nat) (clock : Z) (g : Generator) (c : t) : option (list A * t) :=
  match fuel with
  | O => None
  | S fuel' =>
      match next clock g c with
      | (Some a, g', c') =>
          (λ rest, (a :: rest.1, rest.2)) <$> drain_with next fuel' clock g' c'
      | (None, _, c') => Some ([], c')
      end
  end.

End TtlCache.
Global Arguments t : clear implicits.
End TtlCache.

(** * Concrete caches *)

Module Scenarios.

Abbreviation Cache := (TtlCache.t nat nat nat).

(** A cache of capacity 2 that holds key 1 and key 2, written in this order
    at time 0 with the default ttl. *)
Definition two_entries : Cache :=
  TtlCache.reach [(TtlCache.DoSet 1%nat 10%nat None, 0); (TtlCache.DoSet 2%nat 20%nat None, 0)]
    (TtlCache.new (Some (CacheOptions.mk None (Some 2)))).

Definition swr_options : option GetOrSetOptions.t :=
  Some (GetOrSetOptions.mk (Some 1000) (Some 200) None None).

(** Key 7 loaded at time 0 with [ttlMs = 1000] and [swrMs = 200]: fresh
    before 1000, stale from 1000 on, expired from 1200 on. *)
Definition loaded_with_swr : Cache :=
  TtlCache.reach [(TtlCache.DoGetOrSet 1 7%nat 0 swr_options, 0);
                  (TtlCache.DoSettle 0 (inl 55%nat), 0)]
    (TtlCache.new None).

(** One call of [getOrSet] for key 7 whose loader has not settled yet. *)
Definition load_pending : Cache :=
  TtlCache.reach [(TtlCache.DoGetOrSet 1 7%nat 0 None, 0)] (TtlCache.new None).

(** *** Iteration interleaved with a deletion

    A cache with default ttl 100 holds key 1 (expires at 100) and key 2
    (expires at 500). At time 150 the consumer starts to iterate: the first
    [next()] sets key 1 aside as expired and yields key 2. The consumer
    deletes key 1, then calls [next()] again: the generator finishes and
    removes the entry of key 1 a second time. *)
Definition iteration_start : Cache :=
  TtlCache.reach
    [(TtlCache.DoSet 1%nat 10%nat None, 0);
     (TtlCache.DoSet 2%nat 20%nat (Some (SetOptions.mk (Some 500))), 0)]
    (TtlCache.new (Some (CacheOptions.mk (Some 100) None))).

Definition iteration_first_next :=
  TtlCache.iterator_next 150 TtlCache.GenStart iteration_start.

Definition iteration_deleted : Cache :=
  (TtlCache.delete 1%nat iteration_first_next.2).2.

Definition iteration_second_next :=
  TtlCache.iterator_next 150 iteration_first_next.1.2 iteration_deleted.

Definition iteration_end : Cache := iteration_second_next.2.

(** *** Cancellation by the caller that started the load *)

Definition abort_options : option GetOrSetOptions.t :=
  Some (GetOrSetOptions.mk None None None (Some 9%nat)).

(** Caller 1 calls [getOrSet] for key 7 with the signal 9; its loader is
    running. *)
Definition owner_waiting : Cache :=
  TtlCache.getOrSet 1 7%nat 0 abort_options 0 (TtlCache.new None).

(** The signal fires before the loader settles. *)
Definition owner_cancelled : Cache := TtlCache.abort 9 owner_waiting.

(** Caller 2 calls [getOrSet] for the same key, with dedupe on. *)
Definition second_call : Cache := TtlCache.getOrSet 2 7%nat 1 None 0 owner_cancelled.

Definition pending_load_7 : TtlCache.Load (K:=nat) (V:=nat) (E:=nat) :=
  TtlCache.mkLoad 7%nat 0 None TtlCache.Pending.

Definition stale_entry_7 : CacheEntry.t nat nat :=
  CacheEntry.mk 7%nat 55%nat 1000 1200 None None.

Definition three_calls : list TtlCache.Call :=
  [TtlCache.mkCall 2 1 None 0; TtlCache.mkCall 3 2 None 0].

(** Caller 1 waits for the load of key 7 with the signal 9, caller 2 waits
    for the same load with no signal. *)
Definition two_waiting : Cache :=
  TtlCache.reach [(TtlCache.DoGetOrSet 1 7%nat 0 abort_options, 0);
                  (TtlCache.DoGetOrSet 2 7%nat 1 None, 0)]
    (TtlCache.new None).

End Scenarios.

(** ** More concrete states *)

Module MoreScenarios.
Import Scenarios.

(** Two linked entries: the entry at reference 1 (key 2) is the head, the
    entry at reference 0 (key 1) is the tail. *)
Definition linked_heap : ref → CacheEntry.t nat nat :=
  λ r, match r with
       | 0%nat => CacheEntry.mk 1%nat 10%nat 100 100 (Some 1%nat) None
       | 1%nat => CacheEntry.mk 2%nat 20%nat 100 100 None (Some 0%nat)
       | _ => CacheEntry.mk 0%nat 0%nat 0 0 None None
       end.

Definition linked_list : DoublyLinkedList.t := DoublyLinkedList.mk (Some 1%nat) (Some 0%nat).

(** The entry of key 1 in [two_entries]. *)
Definition entry_1 : CacheEntry.t nat nat :=
  CacheEntry.mk 1%nat 10%nat 30000 30000 (Some 1%nat) None.

(** An empty cache that may hold no entry. *)
Definition no_room : Cache := TtlCache.new (Some (CacheOptions.mk None (Some 0))).

Definition no_dedupe : option GetOrSetOptions.t :=
  Some (GetOrSetOptions.mk None None (Some false) None).

Definition first_try : TtlCache.Call := TtlCache.mkCall 1 0 None 0.

Definition second_try : TtlCache.Call := TtlCache.mkCall 2 1 None 5.

End MoreScenarios.

(** * Proofs *)

Ltac heap_simpl :=
  repeat first
    [ rewrite fn_lookup_alter
    | rewrite fn_lookup_alter_ne by congruence
    | rewrite fn_lookup_insert
    | rewrite fn_lookup_insert_ne by congruence ].

(** * Facts about the model of [Map] *)

Module JsMapFacts.
Section JsMapFacts.
Context {K A : Type} `{!EqDecision K}.
Implicit Types (m : JsMap.t K A) (k : K) (a : A).

Lemma get_Some_entries k a m : JsMap.get k m = Some a → (k, a) ∈ JsMap.entries m.
Proof.
  unfold JsMap.entries.
  induction m as [|[[k' a']|] m IH]; simpl; intros H; try done.
  - case_decide; simplify_eq.
    + left.
    + right. by apply IH.
  - by apply IH.
Qed.

Lemma get_None_keys k m : JsMap.get k m = None ↔ k ∉ JsMap.keys m.
Proof.
  unfold JsMap.keys, JsMap.entries.
  induction m as [|[[k' a']|] m IH]; simpl.
  - split; [intros _; apply not_elem_of_nil | done].
  - case_decide; simplify_eq.
    + split; [done|]. intros Hn. exfalso. apply Hn. left.
    + rewrite IH, not_elem_of_cons. cbn. split; [by split | by intros [_ ?]].
  - done.
Qed.

Lemma entries_get k a m :
  NoDup (JsMap.keys m) → (k, a) ∈ JsMap.entries m → JsMap.get k m = Some a.
Proof.
  unfold JsMap.keys, JsMap.entries.
  induction m as [|[[k' a']|] m IH]; simpl.
  - intros _ H. by apply elem_of_nil in H.
  - intros Hnd H. apply NoDup_cons in Hnd as [Hk Hnd].
    apply elem_of_cons in H as [H|H]; simplify_eq.
    + by rewrite decide_True.
    + rewrite decide_False; [by apply IH|].
      intros ->. apply Hk. apply list_elem_of_fmap. by exists (k, a).
  - done.
Qed.

Lemma has_true k m : JsMap.has k m = true ↔ is_Some (JsMap.get k m).
Proof. unfold JsMap.has. apply bool_decide_eq_true. Qed.

Lemma has_false k m : JsMap.has k m = false ↔ JsMap.get k m = None.
Proof. unfold JsMap.has. rewrite bool_decide_eq_false, eq_None_not_Some. done. Qed.

Lemma get_app_None k m1 m2 :
  JsMap.get k m1 = None → JsMap.get k (m1 ++ m2) = JsMap.get k m2.
Proof.
  induction m1 as [|[[k' a']|] m1 IH]; simpl; try done.
  case_decide; [done | apply IH].
Qed.

Lemma get_app_Some k a m1 m2 :
  JsMap.get k m1 = Some a → JsMap.get k (m1 ++ m2) = Some a.
Proof.
  induction m1 as [|[[k' a']|] m1 IH]; simpl; try done.
  case_decide; [done | apply IH].
Qed.

Lemma get_set_eq k a m : JsMap.get k (JsMap.set k a m) = Some a.
Proof.
  unfold JsMap.set. destruct (JsMap.has k m) eqn:Hh.
  - apply has_true in Hh. induction m as [|[[k' a']|] m IH]; simpl in *.
    + by destruct Hh.
    + case_decide; simplify_eq; simpl; [by rewrite decide_True|].
      rewrite decide_False; [|done]. by apply IH.
    + by apply IH.
  - apply has_false in Hh. rewrite get_app_None; [|done].
    simpl. by rewrite decide_True.
Qed.

Lemma get_set_ne k k' a m : k' ≠ k → JsMap.get k' (JsMap.set k a m) = JsMap.get k' m.
Proof.
  intros Hne. unfold JsMap.set. destruct (JsMap.has k m) eqn:Hh.
  - clear Hh. induction m as [|[[k1 a1]|] m IH]; simpl; try done.
    destruct (decide (k1 = k)) as [->|]; simpl.
    + rewrite !decide_False; [done|congruence..].
    + case_decide; [done | apply IH].
  - destruct (JsMap.get k' m) as [a'|] eqn:Hg.
    + by apply get_app_Some.
    + rewrite get_app_None; [|done]. simpl. by rewrite decide_False.
Qed.

Lemma get_delete_eq k m : JsMap.get k (JsMap.delete k m) = None.
Proof.
  unfold JsMap.delete.
  induction m as [|[[k' a']|] m IH]; simpl; try done.
  case_decide; simpl; [done|]. by rewrite decide_False.
Qed.

Lemma get_delete_ne k k' m : k' ≠ k → JsMap.get k' (JsMap.delete k m) = JsMap.get k' m.
Proof.
  intros Hne. unfold JsMap.delete.
  induction m as [|[[k1 a1]|] m IH]; simpl; try done.
  destruct (decide (k1 = k)) as [->|]; simpl.
  - by rewrite decide_False.
  - case_decide; [done | apply IH].
Qed.

Lemma entries_app m1 m2 : JsMap.entries (m1 ++ m2) = JsMap.entries m1 ++ JsMap.entries m2.
Proof. unfold JsMap.entries. apply omap_app. Qed.

Lemma entries_set_new k a m :
  JsMap.get k m = None → JsMap.entries (JsMap.set k a m) = JsMap.entries m ++ [(k, a)].
Proof.
  intros Hg. unfold JsMap.set. apply has_false in Hg. rewrite Hg.
  by rewrite entries_app.
Qed.

Lemma entries_delete k m :
  JsMap.entries (JsMap.delete k m) = filter (λ kv, kv.1 ≠ k) (JsMap.entries m).
Proof.
  unfold JsMap.entries, JsMap.delete.
  induction m as [|[[k' a']|] m IH]; csimpl; try done.
  rewrite filter_cons. simpl. destruct (decide (k' = k)) as [->|]; csimpl.
  - rewrite decide_False; [done | naive_solver].
  - rewrite decide_True; [|done]. by rewrite IH.
Qed.

Lemma entries_clear m : JsMap.entries (JsMap.clear m) = [].
Proof. unfold JsMap.entries, JsMap.clear. by induction m. Qed.

End JsMapFacts.
End JsMapFacts.

(** * Facts about the eviction list *)

Module DllFacts.
Section DllFacts.
Context {K V : Type}.
Local Abbreviation heap := (ref → CacheEntry.t K V).
Implicit Types (h : heap) (l : DoublyLinkedList.t) (r : ref) (rs xs ys : list ref)
  (p n : option ref).

Lemma seg_nil h p n : DoublyLinkedList.seg h p [] n ↔ True.
Proof. done. Qed.

Lemma seg_cons h p r rs n :
  DoublyLinkedList.seg h p (r :: rs) n ↔
  CacheEntry.prev (h r) = p ∧
  CacheEntry.next (h r) = DoublyLinkedList.first_or n rs ∧
  DoublyLinkedList.seg h (Some r) rs n.
Proof. done. Qed.

Local Arguments DoublyLinkedList.seg : simpl never.
Local Arguments DoublyLinkedList.remove : simpl never.
Local Arguments DoublyLinkedList.addToFront : simpl never.
Local Arguments DoublyLinkedList.moveToFront : simpl never.
Local Arguments DoublyLinkedList.removeTail : simpl never.

Lemma payload_set_prev p (e : CacheEntry.t K V) :
  CacheEntry.payload (CacheEntry.set_prev p e) = CacheEntry.payload e.
Proof. done. Qed.

Lemma payload_set_next n (e : CacheEntry.t K V) :
  CacheEntry.payload (CacheEntry.set_next n e) = CacheEntry.payload e.
Proof. done. Qed.

Lemma payload_alter (f : CacheEntry.t K V → CacheEntry.t K V) r h x :
  (∀ e, CacheEntry.payload (f e) = CacheEntry.payload e) →
  CacheEntry.payload (alter f r h x) = CacheEntry.payload (h x).
Proof.
  intros Hf. destruct (decide (r = x)) as [->|Hne].
  - by rewrite fn_lookup_alter.
  - by rewrite fn_lookup_alter_ne.
Qed.

Lemma payload_addToFront r h l x :
  CacheEntry.payload ((DoublyLinkedList.addToFront r (h, l)).1 x) = CacheEntry.payload (h x).
Proof.
  unfold DoublyLinkedList.addToFront.
  destruct (DoublyLinkedList.head l); destruct (DoublyLinkedList.tail l); simpl;
    rewrite ?payload_alter; done.
Qed.

Lemma payload_remove r h l x :
  CacheEntry.payload ((DoublyLinkedList.remove r (h, l)).1 x) = CacheEntry.payload (h x).
Proof.
  unfold DoublyLinkedList.remove.
  destruct (CacheEntry.prev (h r)); simpl.
  - destruct (CacheEntry.next _); simpl; rewrite ?payload_alter; done.
  - destruct (CacheEntry.next _); simpl; rewrite ?payload_alter; done.
Qed.

Lemma payload_moveToFront r h l x :
  CacheEntry.payload ((DoublyLinkedList.moveToFront r (h, l)).1 x) = CacheEntry.payload (h x).
Proof.
  unfold DoublyLinkedList.moveToFront. case_decide; [done|].
  destruct (DoublyLinkedList.remove r (h, l)) as [h' l'] eqn:Hr.
  rewrite payload_addToFront.
  change h' with (h', l').1. rewrite <- Hr. apply payload_remove.
Qed.

Lemma first_or_None rs : DoublyLinkedList.first_or None rs = hd_error rs.
Proof. by destruct rs. Qed.

Lemma last_or_None rs : DoublyLinkedList.last_or None rs = last rs.
Proof. unfold DoublyLinkedList.last_or. by destruct (last rs). Qed.

Lemma first_or_app n xs ys :
  DoublyLinkedList.first_or n (xs ++ ys) =
  DoublyLinkedList.first_or (DoublyLinkedList.first_or n ys) xs.
Proof. by destruct xs. Qed.

Lemma last_or_cons p x xs :
  DoublyLinkedList.last_or p (x :: xs) = DoublyLinkedList.last_or (Some x) xs.
Proof.
  unfold DoublyLinkedList.last_or. destruct xs as [|y xs]; [done|].
  rewrite last_cons_cons. by destruct (last (y :: xs)) eqn:E; [|apply last_None in E].
Qed.

Lemma seg_frame h h' p rs n :
  (∀ r, r ∈ rs →
     CacheEntry.prev (h' r) = CacheEntry.prev (h r) ∧
     CacheEntry.next (h' r) = CacheEntry.next (h r)) →
  DoublyLinkedList.seg h p rs n → DoublyLinkedList.seg h' p rs n.
Proof.
  revert p. induction rs as [|r rs IH]; intros p Hf; [done|].
  rewrite !seg_cons.
  intros (Hp & Hn & Hs). destruct (Hf r) as [-> ->]; [left|].
  split_and!; [done..|]. apply IH; [|done].
  intros x Hx. apply Hf. by right.
Qed.

Lemma seg_app h p xs ys n :
  DoublyLinkedList.seg h p (xs ++ ys) n ↔
  DoublyLinkedList.seg h p xs (DoublyLinkedList.first_or n ys) ∧
  DoublyLinkedList.seg h (DoublyLinkedList.last_or p xs) ys n.
Proof.
  revert p. induction xs as [|x xs IH]; intros p.
  - simpl. rewrite seg_nil. unfold DoublyLinkedList.last_or. simpl. tauto.
  - simpl. rewrite !seg_cons, IH, first_or_app, last_or_cons. tauto.
Qed.

Lemma seg_set_next_last h p xs x n n' :
  x ∉ xs →
  DoublyLinkedList.seg h p (xs ++ [x]) n →
  DoublyLinkedList.seg (alter (CacheEntry.set_next n') x h) p (xs ++ [x]) n'.
Proof.
  intros Hx. rewrite !seg_app. intros [H1 H2]. split.
  - eapply seg_frame; [|exact H1]. intros r Hr.
    rewrite fn_lookup_alter_ne; [done|]. intros ->. done.
  - rewrite seg_cons in H2. rewrite seg_cons.
    rewrite fn_lookup_alter. simpl. tauto.
Qed.

Lemma seg_set_prev_first h p p' y ys n :
  y ∉ ys →
  DoublyLinkedList.seg h p (y :: ys) n →
  DoublyLinkedList.seg (alter (CacheEntry.set_prev p') y h) p' (y :: ys) n.
Proof.
  intros Hy. rewrite !seg_cons. intros (_ & Hn & Hs). rewrite fn_lookup_alter. simpl.
  split_and!; [done..|].
  eapply seg_frame; [|exact Hs]. intros r Hr.
  rewrite fn_lookup_alter_ne; [done|]. intros ->. done.
Qed.

Lemma repr_nil h : DoublyLinkedList.repr h DoublyLinkedList.empty [].
Proof. split_and!; try done. apply NoDup_nil_2. Qed.

Lemma repr_frame h h' l rs :
  (∀ r, r ∈ rs →
     CacheEntry.prev (h' r) = CacheEntry.prev (h r) ∧
     CacheEntry.next (h' r) = CacheEntry.next (h r)) →
  DoublyLinkedList.repr h l rs → DoublyLinkedList.repr h' l rs.
Proof.
  intros Hf (? & ? & ? & ?). split_and!; try done. by eapply seg_frame.
Qed.

Lemma repr_addToFront h l rs r :
  r ∉ rs →
  DoublyLinkedList.repr h l rs →
  DoublyLinkedList.repr (DoublyLinkedList.addToFront r (h, l)).1
                        (DoublyLinkedList.addToFront r (h, l)).2 (r :: rs).
Proof.
  intros Hr (Hnd & Hh & Ht & Hs). unfold DoublyLinkedList.addToFront.
  rewrite Hh, Ht. destruct rs as [|x rs]; simpl.
  - split_and!; try done.
    + apply NoDup_singleton.
    + rewrite seg_cons. by rewrite !fn_lookup_alter.
  - apply not_elem_of_cons in Hr as [Hrx Hr].
    apply NoDup_cons in Hnd as [Hx Hnd].
    assert (last (x :: rs) = Some (default x (last rs))) as Hl.
    { destruct rs as [|y rs]; [done|]. rewrite last_cons_cons.
      destruct (last (y :: rs)) eqn:E; [done|]. by apply last_None in E. }
    rewrite Hl. simpl. split_and!.
    + apply NoDup_cons. split; [|by apply NoDup_cons].
      apply not_elem_of_cons. done.
    + done.
    + by rewrite last_cons, Hl.
    + rewrite seg_cons. split_and!.
      * by heap_simpl.
      * by heap_simpl.
      * apply (seg_set_prev_first _ None); [done|].
        eapply seg_frame; [|exact Hs]. intros y Hy.
        assert (r ≠ y) by (intros ->; apply elem_of_cons in Hy; tauto).
        by heap_simpl.
Qed.

Lemma repr_remove h l xs r ys :
  DoublyLinkedList.repr h l (xs ++ r :: ys) →
  DoublyLinkedList.repr (DoublyLinkedList.remove r (h, l)).1
                        (DoublyLinkedList.remove r (h, l)).2 (xs ++ ys).
Proof.
  intros (Hnd & Hh & Ht & Hs).
  apply NoDup_app in Hnd as (Hndx & Hxy & Hnd).
  apply NoDup_cons in Hnd as (Hry & Hndy).
  assert (r ∉ xs) as Hrx by (intros Hin; apply (Hxy _ Hin); left).
  assert (∀ x, x ∈ xs → x ∉ ys) as Hxy' by (intros x Hin Hy; apply (Hxy _ Hin); by right).
  apply seg_app in Hs as [Hsx Hsy].
  apply seg_cons in Hsy as (Hp & Hn & Hsy).
  assert (NoDup (xs ++ ys)) as Hnd' by (apply NoDup_app; done).
  destruct xs as [|x0 xs0 _] using rev_ind.
  - (* the entry is the head *)
    change (CacheEntry.prev (h r) = None) in Hp.
    destruct ys as [|y ys].
    + change (CacheEntry.next (h r) = None) in Hn.
      unfold DoublyLinkedList.remove. rewrite Hp, Hn. simpl. rewrite Hp. by split_and!.
    + change (CacheEntry.next (h r) = Some y) in Hn.
      unfold DoublyLinkedList.remove. rewrite Hp, Hn. simpl. rewrite Hp.
      apply NoDup_cons in Hndy as [Hy Hndy].
      assert (y ≠ r) by (intros ->; apply Hry; left).
      split_and!.
      * done.
      * done.
      * simpl. rewrite Ht. simpl. by rewrite !last_cons.
      * apply (seg_frame (alter (CacheEntry.set_prev None) y h)).
        { intros z Hz. assert (r ≠ z) by (intros ->; contradiction). by heap_simpl. }
        apply (seg_set_prev_first _ (Some r)); done.
  - (* the entry has a predecessor *)
    unfold DoublyLinkedList.last_or in Hp. rewrite last_snoc in Hp. simpl in Hp.
    assert (x0 ≠ r) as Hx0r by (intros ->; apply Hrx; apply elem_of_app; right; left).
    assert (hd_error ((xs0 ++ [x0]) ++ r :: ys) = hd_error ((xs0 ++ [x0]) ++ ys)) as Hhd
      by (by destruct xs0).
    assert (DoublyLinkedList.seg
              (alter (CacheEntry.set_next (DoublyLinkedList.first_or None ys)) x0 h)
              None (xs0 ++ [x0]) (DoublyLinkedList.first_or None ys)) as Hsx'.
    { eapply seg_set_next_last; [|exact Hsx]. apply NoDup_app in Hndx as (_ & Hd & _).
      intros Hin. apply (Hd _ Hin). left. }
    destruct ys as [|y ys].
    + change (CacheEntry.next (h r) = None) in Hn.
      unfold DoublyLinkedList.remove. rewrite Hp, Hn. simpl.
      rewrite (fn_lookup_alter_ne _ _ x0 r) by done. rewrite Hn, Hp. simpl.
      rewrite app_nil_r. split_and!.
      * by rewrite app_nil_r in Hnd'.
      * simpl. rewrite Hh. by destruct xs0.
      * simpl. by rewrite last_snoc.
      * eapply seg_frame; [|exact Hsx']. intros z Hz.
        assert (r ≠ z) by (intros ->; contradiction). by heap_simpl.
    + change (CacheEntry.next (h r) = Some y) in Hn.
      apply NoDup_cons in Hndy as [Hy Hndy].
      assert (y ≠ r) by (intros ->; apply Hry; left).
      assert (x0 ≠ y) as Hx0y.
      { intros ->. apply (Hxy' y); [apply elem_of_app; right; left | left]. }
      unfold DoublyLinkedList.remove. rewrite Hp, Hn. simpl.
      rewrite (fn_lookup_alter_ne _ _ x0 r) by done. rewrite Hn, Hp. simpl.
      split_and!.
      * done.
      * simpl. by rewrite Hh, Hhd.
      * simpl. rewrite Ht. rewrite !last_app. simpl. done.
      * apply seg_app. split.
        -- eapply seg_frame; [|exact Hsx']. intros z Hz.
           assert (r ≠ z) by (intros ->; contradiction).
           assert (y ≠ z) by (intros ->; apply (Hxy' _ Hz); left).
           by heap_simpl.
        -- unfold DoublyLinkedList.last_or. rewrite last_snoc. simpl.
           apply (seg_frame (alter (CacheEntry.set_prev (Some x0)) y
                               (alter (CacheEntry.set_next (Some y)) x0 h))).
           { intros z Hz. assert (r ≠ z) by (intros ->; contradiction). by heap_simpl. }
           apply (seg_set_prev_first _ (Some r)); [done|].
           eapply seg_frame; [|exact Hsy]. intros z Hz.
           assert (x0 ≠ z).
           { intros ->. apply (Hxy' z); [apply elem_of_app; right; left | done]. }
           by heap_simpl.
Qed.

Lemma repr_head_first h l xs r ys :
  DoublyLinkedList.repr h l (xs ++ r :: ys) →
  DoublyLinkedList.head l = Some r → xs = [].
Proof.
  intros (Hnd & Hh & _ & _) Hr. destruct xs as [|x xs]; [done|].
  rewrite Hr in Hh. simpl in Hh. injection Hh as ->.
  apply NoDup_cons in Hnd as [Hx _]. exfalso. apply Hx.
  apply elem_of_app. right. left.
Qed.

Lemma repr_moveToFront h l xs r ys :
  DoublyLinkedList.repr h l (xs ++ r :: ys) →
  DoublyLinkedList.repr (DoublyLinkedList.moveToFront r (h, l)).1
                        (DoublyLinkedList.moveToFront r (h, l)).2 (r :: xs ++ ys).
Proof.
  intros Hrepr. unfold DoublyLinkedList.moveToFront.
  change ((h, l).2) with l. case_decide as Hhd.
  - by rewrite (repr_head_first _ _ _ _ _ Hrepr Hhd) in Hrepr |- *.
  - pose proof (repr_remove _ _ _ _ _ Hrepr) as Hrm.
    destruct (DoublyLinkedList.remove r (h, l)) as [h' l'].
    apply repr_addToFront; [|done].
    destruct Hrepr as (Hnd & _). apply NoDup_app in Hnd as (_ & Hxy & Hnd).
    apply NoDup_cons in Hnd as [Hry _].
    intros [Hin|Hin]%elem_of_app; [|done]. apply (Hxy _ Hin). left.
Qed.

Lemma removeTail_nil h l :
  DoublyLinkedList.repr h l [] →
  DoublyLinkedList.removeTail (h, l) = (None, (h, l)).
Proof. intros (_ & _ & Ht & _). unfold DoublyLinkedList.removeTail. simpl. by rewrite Ht. Qed.

Lemma removeTail_snoc h l xs r :
  DoublyLinkedList.repr h l (xs ++ [r]) →
  DoublyLinkedList.removeTail (h, l) = (Some r, DoublyLinkedList.remove r (h, l)) ∧
  DoublyLinkedList.repr (DoublyLinkedList.remove r (h, l)).1
                        (DoublyLinkedList.remove r (h, l)).2 xs.
Proof.
  intros Hrepr. split.
  - destruct Hrepr as (_ & _ & Ht & _). unfold DoublyLinkedList.removeTail. simpl.
    by rewrite Ht, last_snoc.
  - pose proof (repr_remove h l xs r [] Hrepr) as Hrm. by rewrite app_nil_r in Hrm.
Qed.

Lemma walk_seg fuel h p rs :
  DoublyLinkedList.seg h p rs None → (length rs ≤ fuel)%nat →
  DoublyLinkedList.walk fuel h (hd_error rs) = Some rs.
Proof.
  revert fuel p. induction rs as [|r rs IH]; intros fuel p Hs Hlen.
  - by destruct fuel.
  - apply seg_cons in Hs as (_ & Hn & Hs). simpl in Hlen.
    destruct fuel as [|fuel]; [lia|]. simpl. rewrite Hn.
    rewrite first_or_None.
    rewrite (IH fuel (Some r)); [done|done|lia].
Qed.

Lemma walk_repr fuel h l rs :
  DoublyLinkedList.repr h l rs → (length rs ≤ fuel)%nat →
  DoublyLinkedList.walk fuel h (DoublyLinkedList.head l) = Some rs.
Proof. intros (_ & -> & _ & Hs) Hlen. by eapply walk_seg. Qed.

Lemma repr_inj h l rs rs' :
  DoublyLinkedList.repr h l rs → DoublyLinkedList.repr h l rs' → rs = rs'.
Proof.
  intros H1 H2.
  pose proof (walk_repr (length rs `max` length rs') _ _ _ H1 ltac:(lia)) as E1.
  pose proof (walk_repr (length rs `max` length rs') _ _ _ H2 ltac:(lia)) as E2.
  congruence.
Qed.

End DllFacts.
End DllFacts.


Module TtlCacheFacts.
Import JsMapFacts DllFacts.
Section TtlCacheFacts.
Context {K V E : Type} `{!EqDecision K}.
Local Abbreviation t := (@TtlCache.t K V E).
Implicit Types (c : t) (k : K) (v : V) (r : ref) (rs xs ys : list ref).

Local Arguments DoublyLinkedList.seg : simpl never.
Local Arguments DoublyLinkedList.remove : simpl never.
Local Arguments DoublyLinkedList.addToFront : simpl never.
Local Arguments DoublyLinkedList.moveToFront : simpl never.
Local Arguments DoublyLinkedList.removeTail : simpl never.

Lemma payload_key (e e' : CacheEntry.t K V) :
  CacheEntry.payload e = CacheEntry.payload e' → CacheEntry.key e = CacheEntry.key e'.
Proof. unfold CacheEntry.payload. congruence. Qed.

Lemma payload_value (e e' : CacheEntry.t K V) :
  CacheEntry.payload e = CacheEntry.payload e' → CacheEntry.value e = CacheEntry.value e'.
Proof. unfold CacheEntry.payload. congruence. Qed.

Lemma payload_isExpired (e e' : CacheEntry.t K V) now :
  CacheEntry.payload e = CacheEntry.payload e' →
  CacheEntry.isExpired e now = CacheEntry.isExpired e' now.
Proof. unfold CacheEntry.payload, CacheEntry.isExpired. intros [= _ _ _ ->]. done. Qed.

Lemma NoDup_bounded_length (l : list nat) (n : nat) :
  NoDup l → (∀ x, x ∈ l → (x < n)%nat) → (length l ≤ n)%nat.
Proof.
  intros Hnd Hb. transitivity (length (seq 0 n)); [|by rewrite length_seq].
  apply submseteq_length.
  apply NoDup_submseteq; [done|]. intros x Hx. apply elem_of_seq. specialize (Hb _ Hx). lia.
Qed.

Lemma keys_delete_NoDup {A} k (m : JsMap.t K A) :
  NoDup (JsMap.keys m) → NoDup (JsMap.keys (JsMap.delete k m)).
Proof.
  unfold JsMap.keys. rewrite entries_delete. intros Hnd.
  eapply sublist_NoDup; [exact Hnd|]. apply fmap_sublist, sublist_filter.
Qed.

Lemma keys_set_new {A} k (a : A) (m : JsMap.t K A) :
  JsMap.get k m = None → JsMap.keys (JsMap.set k a m) = JsMap.keys m ++ [k].
Proof. intros H. unfold JsMap.keys. rewrite entries_set_new by done. by rewrite fmap_app. Qed.

(** ** The store invariant *)

Lemma store_inv_values c rs :
  TtlCache.store_inv c rs → JsMap.values (TtlCache.c_map c) ≡ₚ rs.
Proof.
  intros (Hrepr & Hnd & Hiff & _). apply NoDup_Permutation.
  - unfold JsMap.values. apply NoDup_fmap_2_strong.
    + intros [k1 r1] [k2 r2] H1 H2 Heq. simpl in Heq. subst r2.
      apply (entries_get _ _ _ Hnd) in H1, H2.
      apply Hiff in H1 as [_ <-]. apply Hiff in H2 as [_ <-]. done.
    + unfold JsMap.keys in Hnd. by apply NoDup_fmap_1 in Hnd.
  - by destruct Hrepr.
  - intros r. unfold JsMap.values. rewrite list_elem_of_fmap. split.
    + intros ([k r'] & -> & Hin). simpl. apply (entries_get _ _ _ Hnd) in Hin.
      by apply Hiff in Hin as [? _].
    + intros Hin. exists (CacheEntry.key (TtlCache.c_heap c r), r). split; [done|].
      apply get_Some_entries. by apply Hiff.
Qed.

Lemma store_inv_size c rs :
  TtlCache.store_inv c rs → JsMap.size (TtlCache.c_map c) = length rs.
Proof.
  intros Hinv. unfold JsMap.size.
  rewrite <- (Permutation_length (store_inv_values _ _ Hinv)).
  unfold JsMap.values. by rewrite length_fmap.
Qed.

Lemma store_inv_order c rs : TtlCache.store_inv c rs → TtlCache.order c = rs.
Proof.
  intros (Hrepr & _ & _ & Hb). unfold TtlCache.order.
  rewrite (walk_repr _ _ _ rs); [done|done|].
  apply NoDup_bounded_length; [by destruct Hrepr | done].
Qed.

Lemma store_inv_inj c rs rs' :
  TtlCache.store_inv c rs → TtlCache.store_inv c rs' → rs = rs'.
Proof. intros H1%store_inv_order H2%store_inv_order. congruence. Qed.

Lemma consistent_order c : TtlCache.consistent c → TtlCache.store_inv c (TtlCache.order c).
Proof. intros [rs Hinv]. by rewrite (store_inv_order _ _ Hinv). Qed.

Lemma store_inv_get c rs k r :
  TtlCache.store_inv c rs → JsMap.get k (TtlCache.c_map c) = Some r →
  r ∈ rs ∧ CacheEntry.key (TtlCache.c_heap c r) = k.
Proof. intros (_ & _ & Hiff & _) Hg. by apply Hiff. Qed.

(** ** [removeEntry] *)

Lemma removeEntry_payload c r reason x :
  CacheEntry.payload (TtlCache.c_heap (TtlCache.removeEntry r reason c) x) =
  CacheEntry.payload (TtlCache.c_heap c x).
Proof.
  unfold TtlCache.removeEntry. destruct (bool_decide _); simpl; apply payload_remove.
Qed.

Lemma removeEntry_map c r reason :
  TtlCache.c_map (TtlCache.removeEntry r reason c) =
  JsMap.delete (CacheEntry.key (TtlCache.c_heap c r)) (TtlCache.c_map c).
Proof.
  unfold TtlCache.removeEntry. destruct (bool_decide _); simpl;
    by rewrite (payload_key _ _ (payload_remove r _ _ r)).
Qed.

Lemma removeEntry_log c r reason :
  TtlCache.c_log (TtlCache.removeEntry r reason c) =
  TtlCache.c_log c ++ TtlCache.evict_log (TtlCache.c_heap c) reason [r].
Proof.
  unfold TtlCache.removeEntry. destruct (bool_decide _); simpl;
    unfold TtlCache.evict_log, TtlCache.entry_kv; simpl;
    rewrite (payload_key _ _ (payload_remove r _ _ r)),
            (payload_value _ _ (payload_remove r _ _ r)), <- app_assoc; done.
Qed.

Lemma removeEntry_store c xs r ys reason :
  TtlCache.store_inv c (xs ++ r :: ys) →
  TtlCache.store_inv (TtlCache.removeEntry r reason c) (xs ++ ys).
Proof.
  intros (Hrepr & Hnd & Hiff & Hb).
  assert (NoDup (xs ++ r :: ys)) as Hndrs by (by destruct Hrepr).
  assert (r ∉ xs ++ ys) as Hr.
  { apply NoDup_app in Hndrs as (_ & Hxy & [Hry _]%NoDup_cons).
    intros [Hin|Hin]%elem_of_app; [|done]. apply (Hxy _ Hin). left. }
  assert (∀ x, x ∈ xs ++ ys → x ∈ xs ++ r :: ys) as Hsub.
  { intros x. rewrite !elem_of_app, elem_of_cons. tauto. }
  assert (r ∈ xs ++ r :: ys) as Hrin by (apply elem_of_app; right; left).
  split_and!.
  - unfold TtlCache.removeEntry. destruct (bool_decide _); simpl; by apply repr_remove.
  - rewrite removeEntry_map. by apply keys_delete_NoDup.
  - intros k' r'. rewrite removeEntry_map.
    rewrite (payload_key _ _ (removeEntry_payload c r reason r')).
    set (k := CacheEntry.key (TtlCache.c_heap c r)).
    destruct (decide (k' = k)) as [->|Hne].
    + rewrite get_delete_eq. split; [done|]. intros [Hin Hk].
      assert (JsMap.get k (TtlCache.c_map c) = Some r') as H1 by (apply Hiff; auto).
      assert (JsMap.get k (TtlCache.c_map c) = Some r) as H2 by (apply Hiff; auto).
      assert (r' = r) as -> by congruence. done.
    + rewrite get_delete_ne by done. rewrite Hiff. split.
      * intros [Hin Hk]. split; [|done].
        apply elem_of_app in Hin as [Hin|[->|Hin]%elem_of_cons];
          [apply elem_of_app; by left | by subst k | apply elem_of_app; by right].
      * intros [Hin Hk]. auto.
  - intros x Hx. unfold TtlCache.removeEntry. destruct (bool_decide _); simpl; auto.
Qed.

Lemma filter_all {A} (P : A → Prop) `{!∀ x, Decision (P x)} (l : list A) :
  (∀ x, x ∈ l → P x) → filter P l = l.
Proof.
  induction l as [|a l IH]; intros Hall; [done|].
  rewrite filter_cons_True by (apply Hall; left). f_equal. apply IH.
  intros x Hx. apply Hall. by right.
Qed.

Lemma filter_none {A} (P : A → Prop) `{!∀ x, Decision (P x)} (l : list A) :
  (∀ x, x ∈ l → ¬ P x) → filter P l = [].
Proof.
  induction l as [|a l IH]; intros Hall; [done|].
  rewrite filter_cons_False by (apply Hall; left). apply IH.
  intros x Hx. apply Hall. by right.
Qed.

Lemma filter_ne_split xs r ys :
  NoDup (xs ++ r :: ys) → filter (λ x, x ≠ r) (xs ++ r :: ys) = xs ++ ys.
Proof.
  intros Hnd. apply NoDup_app in Hnd as (_ & Hxy & [Hry _]%NoDup_cons).
  rewrite filter_app, filter_cons_False by (intros H; by apply H).
  f_equal; apply filter_all.
  - intros x Hin ->. apply (Hxy _ Hin). left.
  - intros x Hin ->. done.
Qed.

Lemma removeEntry_store_filter c rs r reason :
  TtlCache.store_inv c rs → r ∈ rs →
  TtlCache.store_inv (TtlCache.removeEntry r reason c) (filter (λ x, x ≠ r) rs).
Proof.
  intros Hinv (xs & ys & ->)%list_elem_of_split.
  rewrite filter_ne_split by (by destruct Hinv as [[? _] _]).
  by apply removeEntry_store.
Qed.

(** ** [removeEntries] *)

Lemma removeEntries_cons c reason r vs :
  TtlCache.removeEntries reason (r :: vs) c =
  TtlCache.removeEntries reason vs (TtlCache.removeEntry r reason c).
Proof. done. Qed.

Lemma removeEntries_payload c reason vs x :
  CacheEntry.payload (TtlCache.c_heap (TtlCache.removeEntries reason vs c) x) =
  CacheEntry.payload (TtlCache.c_heap c x).
Proof.
  revert c. induction vs as [|r vs IH]; intros c; [done|].
  simpl. change (foldl _ ?c' vs) with (TtlCache.removeEntries reason vs c').
  by rewrite IH, removeEntry_payload.
Qed.

Lemma evict_log_ext (h h' : ref → CacheEntry.t K V) reason vs :
  (∀ x, CacheEntry.payload (h' x) = CacheEntry.payload (h x)) →
  TtlCache.evict_log h' reason vs = TtlCache.evict_log h reason vs.
Proof.
  intros Hp. unfold TtlCache.evict_log. f_equal. apply list_fmap_ext.
  intros _ r _. unfold TtlCache.entry_kv.
  by rewrite (payload_key _ _ (Hp r)), (payload_value _ _ (Hp r)).
Qed.

Lemma removeEntries_log c reason vs :
  TtlCache.c_log (TtlCache.removeEntries reason vs c) =
  TtlCache.c_log c ++ TtlCache.evict_log (TtlCache.c_heap c) reason vs.
Proof.
  revert c. induction vs as [|r vs IH]; intros c.
  - simpl. by rewrite app_nil_r.
  - simpl. change (foldl _ ?c' vs) with (TtlCache.removeEntries reason vs c').
    rewrite IH, removeEntry_log, <- app_assoc. f_equal.
    rewrite (evict_log_ext (TtlCache.c_heap c)
               (TtlCache.c_heap (TtlCache.removeEntry r reason c)))
      by apply removeEntry_payload.
    unfold TtlCache.evict_log, TtlCache.evict_obs.
    by rewrite !fmap_cons, bind_cons.
Qed.

Lemma removeEntries_store c rs reason vs :
  NoDup vs → (∀ x, x ∈ vs → x ∈ rs) →
  TtlCache.store_inv c rs →
  TtlCache.store_inv (TtlCache.removeEntries reason vs c) (filter (λ x, x ∉ vs) rs).
Proof.
  revert c rs. induction vs as [|r vs IH]; intros c rs Hnd Hsub Hinv.
  - simpl. rewrite filter_all; [done|]. intros x _. apply not_elem_of_nil.
  - apply NoDup_cons in Hnd as [Hr Hnd]. simpl.
    change (foldl _ ?c' vs) with (TtlCache.removeEntries reason vs c').
    assert (filter (λ x, x ∉ r :: vs) rs = filter (λ x, x ∉ vs) (filter (λ x, x ≠ r) rs)) as ->.
    { rewrite list_filter_filter. apply list_filter_iff. intros x.
      rewrite not_elem_of_cons. tauto. }
    apply IH; [done| |].
    + intros x Hx. apply list_elem_of_filter. split.
      * intros ->. done.
      * apply Hsub. by right.
    + apply removeEntry_store_filter; [done|]. apply Hsub. left.
Qed.

(** ** Promotion, update in place, insertion *)

Lemma promote_payload c r x :
  CacheEntry.payload
    (TtlCache.c_heap (TtlCache.with_list (DoublyLinkedList.moveToFront r) c) x) =
  CacheEntry.payload (TtlCache.c_heap c x).
Proof. apply payload_moveToFront. Qed.

Lemma promote_store c rs r :
  TtlCache.store_inv c rs → r ∈ rs →
  TtlCache.store_inv (TtlCache.with_list (DoublyLinkedList.moveToFront r) c)
                     (r :: filter (λ x, x ≠ r) rs).
Proof.
  intros (Hrepr & Hnd & Hiff & Hb) (xs & ys & ->)%list_elem_of_split.
  assert (NoDup (xs ++ r :: ys)) as Hndrs by (by destruct Hrepr).
  rewrite filter_ne_split by done.
  assert (∀ x, x ∈ r :: xs ++ ys ↔ x ∈ xs ++ r :: ys) as Hmem.
  { intros x. rewrite !elem_of_cons, !elem_of_app, elem_of_cons. tauto. }
  split_and!.
  - by apply repr_moveToFront.
  - done.
  - intros k' r'. rewrite (payload_key _ _ (promote_payload c r r')).
    rewrite Hmem. apply Hiff.
  - intros x Hx%Hmem. by apply Hb.
Qed.

Lemma update_store c rs r v ex su :
  TtlCache.store_inv c rs →
  TtlCache.store_inv
    (TtlCache.with_heap (alter (CacheEntry.set_payload v ex su) r) c) rs.
Proof.
  intros (Hrepr & Hnd & Hiff & Hb).
  assert (∀ x, CacheEntry.key (alter (CacheEntry.set_payload v ex su) r (TtlCache.c_heap c) x)
               = CacheEntry.key (TtlCache.c_heap c x)) as Hk.
  { intros x. destruct (decide (r = x)) as [->|]; by heap_simpl. }
  split_and!.
  - eapply repr_frame; [|exact Hrepr]. intros x _. simpl.
    destruct (decide (r = x)) as [->|]; by heap_simpl.
  - done.
  - intros k' r'. simpl. rewrite Hk. apply Hiff.
  - done.
Qed.

Lemma insert_store c rs k v ex su :
  TtlCache.store_inv c rs →
  JsMap.get k (TtlCache.c_map c) = None →
  TtlCache.store_inv
    (TtlCache.with_list (DoublyLinkedList.addToFront (TtlCache.c_next c))
       (TtlCache.with_map (JsMap.set k (TtlCache.c_next c))
          (TtlCache.with_heap <[TtlCache.c_next c := CacheEntry.mk k v ex su None None]>
             (TtlCache.with_next (S (TtlCache.c_next c)) c))))
    (TtlCache.c_next c :: rs).
Proof.
  intros (Hrepr & Hnd & Hiff & Hb) Hnone.
  set (r := TtlCache.c_next c).
  assert (r ∉ rs) as Hr by (intros Hin%Hb; unfold r in Hin; lia).
  assert (∀ x, CacheEntry.key
                 ((DoublyLinkedList.addToFront r
                     (<[r := CacheEntry.mk k v ex su None None]> (TtlCache.c_heap c),
                      TtlCache.c_list c)).1 x) =
               if decide (r = x) then k else CacheEntry.key (TtlCache.c_heap c x)) as Hk.
  { intros x. rewrite (payload_key _ _ (payload_addToFront r _ _ x)).
    case_decide as Hx; [subst x | ]; by heap_simpl. }
  split_and!.
  - simpl. apply repr_addToFront; [done|].
    eapply repr_frame; [|exact Hrepr]. intros x Hx.
    assert (r ≠ x) by (intros ->; done). by heap_simpl.
  - simpl. rewrite keys_set_new by done. apply NoDup_app. split_and!.
    + done.
    + intros x Hx ->%list_elem_of_singleton. by apply get_None_keys in Hnone.
    + apply NoDup_singleton.
  - intros k' r'. simpl. rewrite Hk, elem_of_cons.
    destruct (decide (k' = k)) as [->|Hne].
    + rewrite get_set_eq. split.
      * intros [= <-]. rewrite decide_True by done. auto.
      * intros [[->|Hin] Hkey]; [done|]. exfalso.
        rewrite decide_False in Hkey by (intros ->; done).
        assert (JsMap.get k (TtlCache.c_map c) = Some r') by (apply Hiff; auto).
        congruence.
    + rewrite get_set_ne by done. rewrite Hiff. split.
      * intros [Hin Hkey]. split; [by right|].
        rewrite decide_False by (intros ->; done). done.
      * intros [[->|Hin] Hkey].
        -- rewrite decide_True in Hkey by done. congruence.
        -- rewrite decide_False in Hkey by (intros ->; done). done.
  - intros x [->|Hx%Hb]%elem_of_cons; simpl; unfold r; lia.
Qed.

(** ** [enforceMaxSize] *)

Lemma enforceMaxSize_loop_spec fuel bound c rs :
  TtlCache.store_inv c rs → (length rs < fuel)%nat →
  TtlCache.enforceMaxSize_loop fuel bound c =
    Some (TtlCache.removeEntries R_evicted (reverse (drop (Z.to_nat bound) rs)) c) ∧
  TtlCache.store_inv
    (TtlCache.removeEntries R_evicted (reverse (drop (Z.to_nat bound) rs)) c)
    (take (Z.to_nat bound) rs).
Proof.
  revert c rs. induction fuel as [|fuel IH]; intros c rs Hinv Hlen; [lia|].
  pose proof (store_inv_size _ _ Hinv) as Hsize.
  simpl. rewrite Hsize. case_bool_decide as Hb.
  - destruct rs as [|r xs _] using rev_ind.
    + simpl. rewrite (removeTail_nil _ _ (proj1 Hinv)).
      rewrite drop_nil, take_nil. simpl. done.
    + assert (DoublyLinkedList.repr (TtlCache.c_heap c) (TtlCache.c_list c) (xs ++ [r]))
        as Hrepr by (by destruct Hinv).
      destruct (removeTail_snoc _ _ _ _ Hrepr) as [Hrt _]. rewrite Hrt.
      rewrite length_app in Hb, Hlen. simpl in Hb, Hlen.
      pose proof (removeEntry_store c xs r [] R_evicted Hinv) as Hinv'.
      rewrite app_nil_r in Hinv'.
      rewrite drop_app_le by lia. rewrite reverse_snoc. rewrite take_app_le by lia.
      destruct (IH (TtlCache.removeEntry r R_evicted c) xs Hinv' ltac:(lia)) as [IH1 IH2].
      rewrite removeEntries_cons.
      split; [|exact IH2]. rewrite <- IH1.
      match goal with
      | |- TtlCache.enforceMaxSize_loop _ _ ?x = _ =>
          replace x with (TtlCache.removeEntry r R_evicted c); [done|]
      end.
      unfold TtlCache.removeEntry, TtlCache.with_list. simpl. by rewrite Hrt.
  - rewrite drop_ge, take_ge by lia. done.
Qed.

Lemma take_drop_min {A} (l : list A) (a : nat) :
  take (a `min` length l) l = take a l ∧ drop (a `min` length l) l = drop a l.
Proof.
  destruct (decide (a ≤ length l)%nat).
  - by rewrite Nat.min_l by lia.
  - rewrite Nat.min_r by lia. by rewrite !take_ge, !drop_ge by lia.
Qed.

Lemma enforceMaxSize_spec c rs :
  TtlCache.store_inv c rs →
  let n := TtlCache.capacity c (length rs) in
  TtlCache.enforceMaxSize c =
    Some (TtlCache.removeEntries R_evicted (reverse (drop n rs)) c) ∧
  TtlCache.store_inv (TtlCache.removeEntries R_evicted (reverse (drop n rs)) c) (take n rs).
Proof.
  intros Hinv. unfold TtlCache.enforceMaxSize, TtlCache.capacity.
  destruct (TtlCache.maxSize c) as [b|].
  - cbv zeta. destruct (take_drop_min rs (Z.to_nat b)) as [-> ->].
    apply enforceMaxSize_loop_spec; [done|]. rewrite (store_inv_size _ _ Hinv). lia.
  - cbv zeta. rewrite drop_ge, take_ge by lia. done.
Qed.

(** ** [set] and [setWithSwr] *)

Lemma set_write c k v options now :
  TtlCache.set k v options now c =
  TtlCache.write k v (now + default (TtlCache.defaultTtlMs c) (options ≫= SetOptions.ttlMs))
    (now + default (TtlCache.defaultTtlMs c) (options ≫= SetOptions.ttlMs)) c.
Proof. done. Qed.

Lemma setWithSwr_write c k v options now :
  TtlCache.setWithSwr k v options now c =
  TtlCache.write k v
    (now + default (TtlCache.defaultTtlMs c) (options ≫= GetOrSetOptions.ttlMs))
    (now + default (TtlCache.defaultTtlMs c) (options ≫= GetOrSetOptions.ttlMs)
       + default 0 (options ≫= GetOrSetOptions.swrMs)) c.
Proof. done. Qed.

Lemma write_existing c rs k v ex su r :
  TtlCache.store_inv c rs → JsMap.get k (TtlCache.c_map c) = Some r →
  TtlCache.write k v ex su c = Some (TtlCache.written_existing k v ex su r c) ∧
  TtlCache.store_inv (TtlCache.written_existing k v ex su r c) (r :: filter (λ x, x ≠ r) rs) ∧
  CacheEntry.payload (TtlCache.c_heap (TtlCache.written_existing k v ex su r c) r) = (k, v, ex, su) ∧
  (∀ x, x ≠ r →
     CacheEntry.payload (TtlCache.c_heap (TtlCache.written_existing k v ex su r c) x) =
     CacheEntry.payload (TtlCache.c_heap c x)).
Proof.
  intros Hinv Hget. destruct (store_inv_get _ _ _ _ Hinv Hget) as [Hin Hkey].
  unfold TtlCache.write. rewrite Hget. split; [done|].
  unfold TtlCache.written_existing. split_and!.
  - apply (promote_store _ rs r); [|done]. by apply update_store.
  - simpl. rewrite payload_moveToFront. heap_simpl.
    unfold CacheEntry.payload. simpl. by rewrite Hkey.
  - intros x Hx. simpl. rewrite payload_moveToFront. by heap_simpl.
Qed.

Lemma inserted_store c rs k v ex su :
  TtlCache.store_inv c rs → JsMap.get k (TtlCache.c_map c) = None →
  TtlCache.store_inv (TtlCache.inserted k v ex su c) (TtlCache.c_next c :: rs).
Proof. apply insert_store. Qed.

Lemma inserted_payload c k v ex su x :
  CacheEntry.payload (TtlCache.c_heap (TtlCache.inserted k v ex su c) x) =
  if decide (x = TtlCache.c_next c) then (k, v, ex, su)
  else CacheEntry.payload (TtlCache.c_heap c x).
Proof.
  unfold TtlCache.inserted. cbn.
  rewrite payload_addToFront.
  case_decide as Hx; [subst x|]; by heap_simpl.
Qed.

Lemma write_new c rs k v ex su :
  TtlCache.store_inv c rs → JsMap.get k (TtlCache.c_map c) = None →
  TtlCache.write k v ex su c = Some (TtlCache.written_new k v ex su rs c) ∧
  TtlCache.store_inv (TtlCache.written_new k v ex su rs c)
    (take (TtlCache.capacity c (S (length rs))) (TtlCache.c_next c :: rs)) ∧
  (∀ x, CacheEntry.payload (TtlCache.c_heap (TtlCache.written_new k v ex su rs c) x) =
        if decide (x = TtlCache.c_next c) then (k, v, ex, su)
        else CacheEntry.payload (TtlCache.c_heap c x)).
Proof.
  intros Hinv Hget.
  pose proof (inserted_store c rs k v ex su Hinv Hget) as Hins.
  destruct (enforceMaxSize_spec _ _ Hins) as [Henf Hinv'].
  unfold TtlCache.write. rewrite Hget. split_and!.
  - change (TtlCache.enforceMaxSize _) with (TtlCache.enforceMaxSize (TtlCache.inserted k v ex su c)).
    rewrite Henf. done.
  - exact Hinv'.
  - intros x. unfold TtlCache.written_new. simpl.
    rewrite removeEntries_payload. apply inserted_payload.
Qed.

End TtlCacheFacts.
End TtlCacheFacts.

Module SyncFacts.
Import JsMapFacts DllFacts TtlCacheFacts.
Section SyncFacts.
Context {K V E : Type} `{!EqDecision K}.
Local Abbreviation t := (@TtlCache.t K V E).
Implicit Types (c : t) (k : K) (v : V) (r : ref) (rs xs ys : list ref).

Local Arguments DoublyLinkedList.seg : simpl never.
Local Arguments DoublyLinkedList.remove : simpl never.
Local Arguments DoublyLinkedList.addToFront : simpl never.
Local Arguments DoublyLinkedList.moveToFront : simpl never.
Local Arguments DoublyLinkedList.removeTail : simpl never.

(** ** Frames *)

Lemma store_eq_refl c : TtlCache.store_eq c c.
Proof. by repeat split. Qed.

Lemma store_eq_trans c1 c2 c3 :
  TtlCache.store_eq c1 c2 → TtlCache.store_eq c2 c3 → TtlCache.store_eq c1 c3.
Proof.
  intros (?&?&?&?&?&?) (?&?&?&?&?&?). repeat split; congruence.
Qed.

Lemma runtime_eq_refl c : TtlCache.runtime_eq c c.
Proof. by repeat split. Qed.

Lemma runtime_eq_trans c1 c2 c3 :
  TtlCache.runtime_eq c1 c2 → TtlCache.runtime_eq c2 c3 → TtlCache.runtime_eq c1 c3.
Proof.
  intros (?&?&?&?&?) (?&?&?&?&?). repeat split; congruence.
Qed.

Lemma store_eq_inv c c' rs :
  TtlCache.store_eq c c' → TtlCache.store_inv c rs → TtlCache.store_inv c' rs.
Proof.
  intros (Hm & Hh & Hl & Hn & _). unfold TtlCache.store_inv.
  by rewrite Hm, Hh, Hl, Hn.
Qed.

Lemma store_eq_consistent c c' :
  TtlCache.store_eq c c' → TtlCache.consistent c → TtlCache.consistent c'.
Proof. intros Heq [rs Hinv]. exists rs. by eapply store_eq_inv. Qed.

Lemma store_eq_order c c' : TtlCache.store_eq c c' → TtlCache.order c' = TtlCache.order c.
Proof. intros (Hm & Hh & Hl & Hn & _). unfold TtlCache.order. by rewrite Hh, Hl, Hn. Qed.

Lemma store_eq_lookup c c' k :
  TtlCache.store_eq c c' → TtlCache.lookup k c' = TtlCache.lookup k c.
Proof. intros (Hm & Hh & _). unfold TtlCache.lookup. by rewrite Hm, Hh. Qed.

Lemma runtime_eq_inv c c' :
  TtlCache.runtime_eq c c' → TtlCache.runtime_inv c → TtlCache.runtime_inv c'.
Proof.
  intros (Hi & Hl & Hw & _). unfold TtlCache.runtime_inv. by rewrite Hi, Hl, Hw.
Qed.

Lemma removeEntry_runtime c r reason :
  TtlCache.runtime_eq c (TtlCache.removeEntry r reason c).
Proof. unfold TtlCache.removeEntry. by destruct (bool_decide _). Qed.

Lemma removeEntries_runtime c reason vs :
  TtlCache.runtime_eq c (TtlCache.removeEntries reason vs c).
Proof.
  revert c. induction vs as [|r vs IH]; intros c; [apply runtime_eq_refl|].
  rewrite removeEntries_cons. eapply runtime_eq_trans; [apply removeEntry_runtime|apply IH].
Qed.

Lemma removeEntry_config c r reason :
  TtlCache.maxSize (TtlCache.removeEntry r reason c) = TtlCache.maxSize c ∧
  TtlCache.defaultTtlMs (TtlCache.removeEntry r reason c) = TtlCache.defaultTtlMs c ∧
  TtlCache.c_next (TtlCache.removeEntry r reason c) = TtlCache.c_next c.
Proof. unfold TtlCache.removeEntry. by destruct (bool_decide _). Qed.

Lemma removeEntries_config c reason vs :
  TtlCache.maxSize (TtlCache.removeEntries reason vs c) = TtlCache.maxSize c ∧
  TtlCache.defaultTtlMs (TtlCache.removeEntries reason vs c) = TtlCache.defaultTtlMs c ∧
  TtlCache.c_next (TtlCache.removeEntries reason vs c) = TtlCache.c_next c.
Proof.
  revert c. induction vs as [|r vs IH]; intros c; [done|].
  rewrite removeEntries_cons. destruct (IH (TtlCache.removeEntry r reason c)) as (-> & -> & ->).
  apply removeEntry_config.
Qed.

(** ** Consistency is preserved by the synchronous operations *)

Lemma new_store `{!Inhabited K, !Inhabited V} options :
  TtlCache.store_inv (TtlCache.new (K:=K) (V:=V) (E:=E) options) [].
Proof.
  split_and!.
  - apply repr_nil.
  - apply NoDup_nil_2.
  - intros k r. split; [done|]. intros [Hin _]. by apply elem_of_nil in Hin.
  - intros r Hin. by apply elem_of_nil in Hin.
Qed.

Lemma write_consistent c k v ex su :
  TtlCache.consistent c →
  ∃ c', TtlCache.write k v ex su c = Some c' ∧ TtlCache.consistent c' ∧
        TtlCache.runtime_eq c c'.
Proof.
  intros [rs Hinv]. destruct (JsMap.get k (TtlCache.c_map c)) as [r|] eqn:Hget.
  - destruct (write_existing c rs k v ex su r Hinv Hget) as (Hw & Hinv' & _).
    eexists. split; [exact Hw|]. split; [by eexists|]. by repeat split.
  - destruct (write_new c rs k v ex su Hinv Hget) as (Hw & Hinv' & _).
    eexists. split; [exact Hw|]. split; [by eexists|].
    unfold TtlCache.written_new.
    eapply runtime_eq_trans; [|apply (removeEntries_runtime (TtlCache.inserted k v ex su c))].
    by repeat split.
Qed.

Lemma get_entry_in c rs k r :
  TtlCache.store_inv c rs → JsMap.get k (TtlCache.c_map c) = Some r → r ∈ rs.
Proof. intros Hinv Hget. by destruct (store_inv_get _ _ _ _ Hinv Hget). Qed.

Lemma get_consistent c k now :
  TtlCache.consistent c → TtlCache.consistent (TtlCache.get k now c).2.
Proof.
  intros [rs Hinv]. unfold TtlCache.get.
  destruct (JsMap.get k (TtlCache.c_map c)) as [r|] eqn:Hget; [|by exists rs].
  pose proof (get_entry_in _ _ _ _ Hinv Hget) as Hin.
  destruct (CacheEntry.isFresh _ now); simpl.
  - eexists. apply (promote_store _ _ r Hinv Hin).
  - destruct (CacheEntry.isExpired _ now).
    + eexists. apply (removeEntry_store_filter _ _ r R_expired Hinv Hin).
    + by exists rs.
Qed.

Lemma peek_consistent c k now :
  TtlCache.consistent c → TtlCache.consistent (TtlCache.peek k now c).2.
Proof.
  intros [rs Hinv]. unfold TtlCache.peek.
  destruct (JsMap.get k (TtlCache.c_map c)) as [r|] eqn:Hget; [|by exists rs].
  pose proof (get_entry_in _ _ _ _ Hinv Hget) as Hin.
  destruct (CacheEntry.isExpired _ now); simpl.
  - eexists. apply (removeEntry_store_filter _ _ r R_expired Hinv Hin).
  - by exists rs.
Qed.

Lemma has_consistent c k now :
  TtlCache.consistent c → TtlCache.consistent (TtlCache.has k now c).2.
Proof.
  intros [rs Hinv]. unfold TtlCache.has.
  destruct (JsMap.get k (TtlCache.c_map c)) as [r|] eqn:Hget; [|by exists rs].
  pose proof (get_entry_in _ _ _ _ Hinv Hget) as Hin.
  destruct (CacheEntry.isExpired _ now); simpl.
  - eexists. apply (removeEntry_store_filter _ _ r R_expired Hinv Hin).
  - by exists rs.
Qed.

Lemma delete_consistent c k :
  TtlCache.consistent c → TtlCache.consistent (TtlCache.delete k c).2.
Proof.
  intros [rs Hinv]. unfold TtlCache.delete.
  destruct (JsMap.get k (TtlCache.c_map c)) as [r|] eqn:Hget; [|by exists rs].
  pose proof (get_entry_in _ _ _ _ Hinv Hget) as Hin. simpl.
  eexists. apply (removeEntry_store_filter _ _ r R_manual Hinv Hin).
Qed.

Lemma get_clear {A} k (m : JsMap.t K A) : JsMap.get k (JsMap.clear m) = None.
Proof. unfold JsMap.clear. by induction m. Qed.

Lemma clear_announce_frame (c : t) (vs : list ref) :
  let c' := foldl (λ c r,
                     let e := TtlCache.c_heap c r in
                     let c := TtlCache.onEvict (CacheEntry.key e) (CacheEntry.value e)
                                R_clear c in
                     TtlCache.emit Ev_evict (CacheEntry.key e)
                       (Some (CacheEntry.value e)) c) c vs in
  TtlCache.store_eq c c' ∧ TtlCache.runtime_eq c c' ∧
  TtlCache.c_log c' = TtlCache.c_log c ++ TtlCache.evict_log (TtlCache.c_heap c) R_clear vs ∧
  TtlCache.stats c' = TtlCache.stats c.
Proof.
  revert c. induction vs as [|r vs IH]; intros c.
  - simpl. split_and!; [apply store_eq_refl|apply runtime_eq_refl| |done].
    unfold TtlCache.evict_log. simpl. by rewrite app_nil_r.
  - simpl. specialize (IH (TtlCache.emit Ev_evict (CacheEntry.key (TtlCache.c_heap c r))
               (Some (CacheEntry.value (TtlCache.c_heap c r)))
               (TtlCache.onEvict (CacheEntry.key (TtlCache.c_heap c r))
                  (CacheEntry.value (TtlCache.c_heap c r)) R_clear c))).
    simpl in IH. destruct IH as (Hs & Hr & Hl & Hst). split_and!.
    + eapply store_eq_trans; [|exact Hs]. by repeat split.
    + eapply runtime_eq_trans; [|exact Hr]. by repeat split.
    + rewrite Hl. simpl. rewrite <- !app_assoc. done.
    + rewrite Hst. done.
Qed.

Lemma clear_store c : TtlCache.store_inv (TtlCache.clear c) [].
Proof.
  unfold TtlCache.clear. split_and!.
  - simpl. apply repr_nil.
  - simpl. unfold JsMap.keys. rewrite entries_clear. apply NoDup_nil_2.
  - intros k r. simpl. rewrite get_clear. split; [done|].
    intros [Hin _]. by apply elem_of_nil in Hin.
  - intros r Hin. by apply elem_of_nil in Hin.
Qed.

Lemma clear_runtime c : TtlCache.runtime_eq c (TtlCache.clear c).
Proof.
  unfold TtlCache.clear.
  destruct (clear_announce_frame c (JsMap.values (TtlCache.c_map c))) as (_ & Hr & _).
  eapply runtime_eq_trans; [exact Hr|]. by repeat split.
Qed.

Lemma sweep_loop_filter now (vs : list ref) c :
  foldl (λ c r, if CacheEntry.isExpired (TtlCache.c_heap c r) now
                then TtlCache.removeEntry r R_expired c else c) c vs =
  TtlCache.removeEntries R_expired
    (filter (λ r, CacheEntry.isExpired (TtlCache.c_heap c r) now = true) vs) c.
Proof.
  revert c. induction vs as [|r vs IH]; intros c; [done|].
  simpl. rewrite IH, filter_cons.
  destruct (CacheEntry.isExpired (TtlCache.c_heap c r) now) eqn:Hexp.
  - rewrite decide_True by done. rewrite removeEntries_cons. f_equal.
    apply list_filter_iff. intros x.
    by rewrite (payload_isExpired _ _ now (removeEntry_payload c r R_expired x)).
  - rewrite decide_False by done. done.
Qed.

Lemma sweep_removeEntries now c :
  TtlCache.sweep now c =
  TtlCache.removeEntries R_expired
    (filter (λ r, CacheEntry.isExpired (TtlCache.c_heap c r) now = true)
            (JsMap.values (TtlCache.c_map c))) c.
Proof. apply sweep_loop_filter. Qed.

Lemma filter_ext_in {A} (P1 P2 : A → Prop)
    `{!∀ x, Decision (P1 x), !∀ x, Decision (P2 x)} (l : list A) :
  (∀ x, x ∈ l → (P1 x ↔ P2 x)) → filter P1 l = filter P2 l.
Proof.
  induction l as [|a l IH]; intros Hiff; [done|].
  rewrite !filter_cons. rewrite IH by (intros x Hx; apply Hiff; by right).
  apply decide_ext, Hiff. left.
Qed.

Lemma removeEntries_expired_store c rs now :
  TtlCache.store_inv c rs →
  TtlCache.store_inv
    (TtlCache.removeEntries R_expired
       (filter (λ r, CacheEntry.isExpired (TtlCache.c_heap c r) now = true)
               (JsMap.values (TtlCache.c_map c))) c)
    (filter (λ r, CacheEntry.isExpired (TtlCache.c_heap c r) now ≠ true) rs).
Proof.
  intros Hinv. pose proof (store_inv_values _ _ Hinv) as Hperm.
  assert (NoDup (JsMap.values (TtlCache.c_map c))) as Hnd.
  { rewrite Hperm. by destruct Hinv as [[? _] _]. }
  rewrite (filter_ext_in _
             (λ x, x ∉ filter (λ r, CacheEntry.isExpired (TtlCache.c_heap c r) now = true)
                              (JsMap.values (TtlCache.c_map c))) rs).
  - apply removeEntries_store; [by apply NoDup_filter| |done].
    intros x [_ Hx]%list_elem_of_filter. by rewrite <- Hperm.
  - intros x Hx. rewrite list_elem_of_filter, Hperm. tauto.
Qed.

Lemma prune_consistent c now :
  TtlCache.consistent c → TtlCache.consistent (TtlCache.prune now c).
Proof.
  intros [rs Hinv]. unfold TtlCache.prune. rewrite sweep_removeEntries.
  eexists. by apply removeEntries_expired_store.
Qed.

Lemma spread_consistent c now :
  TtlCache.consistent c → TtlCache.consistent (TtlCache.spread now c).2.
Proof. intros [rs Hinv]. eexists. by apply removeEntries_expired_store. Qed.

End SyncFacts.
End SyncFacts.

Module AsyncFacts.
Import JsMapFacts DllFacts TtlCacheFacts SyncFacts.
Section AsyncFacts.
Context {K V E : Type} `{!EqDecision K}.
Local Abbreviation t := (@TtlCache.t K V E).
Implicit Types (c : t) (k : K) (v : V) (r : ref) (rs xs ys : list ref)
  (w : TtlCache.Waiter (K:=K)) (ws : list (TtlCache.Waiter (K:=K)))
  (o : TtlCache.Outcome (V:=V) (E:=E)).

Local Arguments DoublyLinkedList.seg : simpl never.
Local Arguments DoublyLinkedList.remove : simpl never.
Local Arguments DoublyLinkedList.addToFront : simpl never.
Local Arguments DoublyLinkedList.moveToFront : simpl never.
Local Arguments DoublyLinkedList.removeTail : simpl never.

(** ** Waking continuations *)

Lemma settle_waiter_frame o c w :
  TtlCache.store_eq c (TtlCache.settle_waiter o c w) ∧
  TtlCache.stats (TtlCache.settle_waiter o c w) = TtlCache.stats c ∧
  TtlCache.c_log (TtlCache.settle_waiter o c w) = TtlCache.c_log c ∧
  TtlCache.c_loads (TtlCache.settle_waiter o c w) = TtlCache.c_loads c ∧
  TtlCache.c_waiters (TtlCache.settle_waiter o c w) = TtlCache.c_waiters c ∧
  TtlCache.c_aborted (TtlCache.settle_waiter o c w) = TtlCache.c_aborted c.
Proof.
  unfold TtlCache.settle_waiter.
  destruct (TtlCache.w_finally w), (TtlCache.w_caller w); by repeat split.
Qed.

Lemma settle_waiter_results o c w :
  TtlCache.c_results (TtlCache.settle_waiter o c w) =
  TtlCache.c_results c ++ option_list (TtlCache.delivered o w).
Proof.
  unfold TtlCache.settle_waiter, TtlCache.delivered.
  destruct (TtlCache.w_finally w), (TtlCache.w_caller w); simpl; by rewrite ?app_nil_r.
Qed.

Lemma settle_waiter_inflight o c w :
  TtlCache.c_inflight (TtlCache.settle_waiter o c w) =
  from_option (λ k, JsMap.delete k (TtlCache.c_inflight c)) (TtlCache.c_inflight c)
              (TtlCache.w_finally w).
Proof.
  unfold TtlCache.settle_waiter.
  destruct (TtlCache.w_finally w), (TtlCache.w_caller w); done.
Qed.

Lemma wake_frame o ws c :
  let c' := foldl (TtlCache.settle_waiter o) c ws in
  TtlCache.store_eq c c' ∧
  TtlCache.stats c' = TtlCache.stats c ∧
  TtlCache.c_log c' = TtlCache.c_log c ∧
  TtlCache.c_loads c' = TtlCache.c_loads c ∧
  TtlCache.c_waiters c' = TtlCache.c_waiters c ∧
  TtlCache.c_aborted c' = TtlCache.c_aborted c.
Proof.
  revert c. induction ws as [|w ws IH]; intros c.
  - simpl. split; [apply store_eq_refl|done].
  - simpl. destruct (IH (TtlCache.settle_waiter o c w)) as (Hs & -> & -> & -> & -> & ->).
    destruct (settle_waiter_frame o c w) as (Hs' & -> & -> & -> & -> & ->).
    split; [|done]. by eapply store_eq_trans.
Qed.

Lemma wake_results o ws c :
  TtlCache.c_results (foldl (TtlCache.settle_waiter o) c ws) =
  TtlCache.c_results c ++ TtlCache.answers o ws.
Proof.
  revert c. induction ws as [|w ws IH]; intros c.
  - simpl. by rewrite app_nil_r.
  - simpl. rewrite IH, settle_waiter_results, <- app_assoc. f_equal.
    unfold TtlCache.answers. simpl. by destruct (TtlCache.delivered o w).
Qed.

Lemma wake_inflight_get o ws c k :
  JsMap.get k (TtlCache.c_inflight (foldl (TtlCache.settle_waiter o) c ws)) =
  if decide (Some k ∈ TtlCache.w_finally <$> ws) then None
  else JsMap.get k (TtlCache.c_inflight c).
Proof.
  revert c. induction ws as [|w ws IH]; intros c.
  - cbn [foldl]. rewrite decide_False; [done|]. rewrite fmap_nil. apply not_elem_of_nil.
  - cbn [foldl]. rewrite fmap_cons, IH, settle_waiter_inflight.
    destruct (decide (Some k ∈ TtlCache.w_finally <$> ws)) as [Hin|Hnin].
    + rewrite decide_True; [done|]. by right.
    + destruct (TtlCache.w_finally w) as [k'|] eqn:Hf; simpl.
      * destruct (decide (k' = k)) as [->|Hne].
        -- rewrite get_delete_eq. rewrite decide_True; [done|]. left.
        -- rewrite get_delete_ne by done. rewrite decide_False; [done|].
           intros [Heq|Hin]%elem_of_cons; [congruence|done].
      * rewrite decide_False; [done|].
        intros [Heq|Hin]%elem_of_cons; [congruence|done].
Qed.

Lemma inflight_valid_delete k (m : JsMap.t K nat) (n : nat) :
  (∀ k' p, JsMap.get k' m = Some p → (p < n)%nat) →
  (∀ k' p, JsMap.get k' (JsMap.delete k m) = Some p → (p < n)%nat).
Proof.
  intros H k' p. destruct (decide (k' = k)) as [->|Hne].
  - by rewrite get_delete_eq.
  - rewrite get_delete_ne by done. apply H.
Qed.

Lemma settle_waiter_runtime_inv o c w :
  TtlCache.runtime_inv c → TtlCache.runtime_inv (TtlCache.settle_waiter o c w).
Proof.
  intros [H1 H2]. destruct (settle_waiter_frame o c w) as (_ & _ & _ & Hl & Hw & _).
  unfold TtlCache.runtime_inv. rewrite Hl, Hw, settle_waiter_inflight. split; [done|].
  destruct (TtlCache.w_finally w); simpl; [|done]. by apply inflight_valid_delete.
Qed.

Lemma wake_runtime_inv o ws c :
  TtlCache.runtime_inv c → TtlCache.runtime_inv (foldl (TtlCache.settle_waiter o) c ws).
Proof.
  revert c. induction ws as [|w ws IH]; intros c Hinv; [done|].
  simpl. by apply IH, settle_waiter_runtime_inv.
Qed.

(** ** [withAbort] *)

Lemma withAbort_frame w c :
  TtlCache.store_eq c (TtlCache.withAbort w c) ∧
  TtlCache.stats (TtlCache.withAbort w c) = TtlCache.stats c ∧
  TtlCache.c_log (TtlCache.withAbort w c) = TtlCache.c_log c ∧
  TtlCache.c_loads (TtlCache.withAbort w c) = TtlCache.c_loads c ∧
  TtlCache.c_aborted (TtlCache.withAbort w c) = TtlCache.c_aborted c.
Proof.
  unfold TtlCache.withAbort.
  destruct (TtlCache.signal_aborted _ c).
  { destruct (settle_waiter_frame (TtlCache.Rejected (TtlCache.AbortError n)) c w)
      as (? & ? & ? & ? & ? & ?). done. }
  destruct (TtlCache.l_state <$> _) as [[|v|e]|].
  - by repeat split.
  - destruct (settle_waiter_frame (TtlCache.Resolved v) c w) as (? & ? & ? & ? & ? & ?). done.
  - destruct (settle_waiter_frame (TtlCache.Rejected (TtlCache.LoaderError e)) c w)
      as (? & ? & ? & ? & ? & ?). done.
  - by repeat split.
Qed.

Lemma withAbort_pending w c ld :
  TtlCache.signal_aborted (TtlCache.w_signal w) c = None →
  TtlCache.c_loads c !! TtlCache.w_promise w = Some ld →
  TtlCache.l_state ld = TtlCache.Pending →
  TtlCache.withAbort w c = TtlCache.with_waiters (λ ws, ws ++ [w]) c.
Proof.
  intros Hs Hl Hp. unfold TtlCache.withAbort. rewrite Hs, Hl. simpl. by rewrite Hp.
Qed.

Lemma withAbort_runtime_inv w c :
  TtlCache.runtime_inv c →
  (TtlCache.w_promise w < length (TtlCache.c_loads c))%nat →
  TtlCache.runtime_inv (TtlCache.withAbort w c).
Proof.
  intros Hinv Hlt. unfold TtlCache.withAbort.
  destruct (TtlCache.signal_aborted _ c); [by apply settle_waiter_runtime_inv|].
  destruct (lookup_lt_is_Some_2 _ _ Hlt) as [ld Hld]. rewrite Hld. simpl.
  destruct (TtlCache.l_state ld) eqn:Hst; try by apply settle_waiter_runtime_inv.
  destruct Hinv as [H1 H2]. split; [|done].
  intros w' [Hin|Hin%list_elem_of_singleton]%elem_of_app; [by apply H1|].
  subst w'. eauto.
Qed.

(** ** [refreshInBackground] and the miss path *)

Lemma refreshInBackground_frame c k loader options :
  let c' := TtlCache.refreshInBackground k loader options c in
  TtlCache.store_eq c c' ∧ TtlCache.stats c' = TtlCache.stats c ∧
  TtlCache.c_log c' = TtlCache.c_log c ∧
  TtlCache.c_aborted c' = TtlCache.c_aborted c ∧
  TtlCache.c_results c' = TtlCache.c_results c.
Proof.
  unfold TtlCache.refreshInBackground. destruct (JsMap.has _ _); by repeat split.
Qed.

Lemma inflight_valid_set k p (m : JsMap.t K nat) (n : nat) :
  (p < n)%nat →
  (∀ k' p', JsMap.get k' m = Some p' → (p' < n)%nat) →
  (∀ k' p', JsMap.get k' (JsMap.set k p m) = Some p' → (p' < n)%nat).
Proof.
  intros Hp H k' p'. destruct (decide (k' = k)) as [->|Hne].
  - rewrite get_set_eq. by intros [= <-].
  - rewrite get_set_ne by done. apply H.
Qed.

Lemma runtime_inv_start c (ld : TtlCache.Load (K:=K)) (reg : option K) :
  TtlCache.runtime_inv c →
  TtlCache.runtime_inv
    (match reg with
     | Some k => TtlCache.with_inflight (JsMap.set k (length (TtlCache.c_loads c)))
     | None => id
     end (TtlCache.with_loads (λ ls, ls ++ [ld]) c)).
Proof.
  intros [H1 H2].
  assert (∀ k p, JsMap.get k (TtlCache.c_inflight c) = Some p →
                 (p < length (TtlCache.c_loads c ++ [ld]))%nat) as H2'.
  { intros k p Hg%H2. rewrite length_app. simpl. lia. }
  assert (∀ w, w ∈ TtlCache.c_waiters c →
     ∃ ld', (TtlCache.c_loads c ++ [ld]) !! TtlCache.w_promise w = Some ld' ∧
            TtlCache.l_state ld' = TtlCache.Pending) as H1'.
  { intros w (ld' & Hl & Hp)%H1. exists ld'. split; [|done]. by apply lookup_app_l_Some. }
  destruct reg as [k|]; (split; [exact H1'|]); simpl; [|exact H2'].
  apply inflight_valid_set; [|exact H2']. rewrite length_app. simpl. lia.
Qed.

Lemma refreshInBackground_runtime_inv c k loader options :
  TtlCache.runtime_inv c →
  TtlCache.runtime_inv (TtlCache.refreshInBackground k loader options c).
Proof.
  intros Hinv. unfold TtlCache.refreshInBackground. destruct (JsMap.has _ _); [done|].
  simpl.
  pose proof (runtime_inv_start c (TtlCache.mkLoad k loader options TtlCache.Pending)
                (Some k) Hinv) as [H1 H2].
  split; [|exact H2].
  intros w [Hin|Hin%list_elem_of_singleton]%elem_of_app; [by apply H1|].
  subst w. simpl. eexists. split; [apply list_lookup_middle; done|done].
Qed.

Lemma getOrSet_miss_frame c caller k loader options :
  let c' := TtlCache.getOrSet_miss caller k loader options c in
  TtlCache.store_eq c c' ∧
  TtlCache.stats c' = TtlCache.miss_incr (TtlCache.stats c) ∧
  TtlCache.c_log c' = TtlCache.c_log c ++ [TtlCache.Emit Ev_miss k None] ∧
  TtlCache.c_aborted c' = TtlCache.c_aborted c.
Proof.
  unfold TtlCache.getOrSet_miss.
  destruct (if TtlCache.dedupe_on options then _ else _) as [p|].
  - match goal with |- context [TtlCache.withAbort ?w ?c0] =>
      destruct (withAbort_frame w c0) as (Hs & -> & -> & _ & ->) end.
    split; [|done]. eapply store_eq_trans; [|exact Hs]. by repeat split.
  - simpl. match goal with |- context [TtlCache.withAbort ?w ?c0] =>
      destruct (withAbort_frame w c0) as (Hs & -> & -> & _ & ->) end.
    split.
    + eapply store_eq_trans; [|exact Hs]. destruct (TtlCache.dedupe_on options); by repeat split.
    + destruct (TtlCache.dedupe_on options); done.
Qed.

Lemma getOrSet_miss_runtime_inv c caller k loader options :
  TtlCache.runtime_inv c →
  TtlCache.runtime_inv (TtlCache.getOrSet_miss caller k loader options c).
Proof.
  intros Hinv. unfold TtlCache.getOrSet_miss.
  destruct (if TtlCache.dedupe_on options then _ else _) as [p|] eqn:Hreg.
  - apply withAbort_runtime_inv; [done|]. simpl.
    destruct (TtlCache.dedupe_on options); [|done]. by apply (proj2 Hinv) in Hreg.
  - simpl.
    pose proof (runtime_inv_start
                  (TtlCache.emit Ev_miss k None (TtlCache.with_stats TtlCache.miss_incr c))
                  (TtlCache.mkLoad k loader options TtlCache.Pending)
                  (if TtlCache.dedupe_on options then Some k else None) Hinv) as Hst.
    apply withAbort_runtime_inv.
    + destruct (TtlCache.dedupe_on options); exact Hst.
    + destruct (TtlCache.dedupe_on options); simpl; rewrite length_app; simpl; lia.
Qed.

(** ** [getOrSet] keeps the invariants *)

Lemma getOrSet_consistent c caller k loader options now :
  TtlCache.consistent c →
  TtlCache.consistent (TtlCache.getOrSet caller k loader options now c).
Proof.
  intros [rs Hinv]. unfold TtlCache.getOrSet.
  destruct (TtlCache.signal_aborted _ c); [by exists rs|].
  destruct (JsMap.get k (TtlCache.c_map c)) as [r|] eqn:Hget.
  - pose proof (get_entry_in _ _ _ _ Hinv Hget) as Hin.
    pose proof (promote_store _ _ r Hinv Hin) as Hpro.
    destruct (CacheEntry.isFresh _ now); [by eexists|].
    destruct (CacheEntry.isStale _ now).
    + destruct (refreshInBackground_frame
                  (TtlCache.emit Ev_stale k
                     (Some (CacheEntry.value
                        (TtlCache.c_heap (TtlCache.with_list (DoublyLinkedList.moveToFront r) c) r)))
                     (TtlCache.with_stats TtlCache.stale_incr
                        (TtlCache.with_list (DoublyLinkedList.moveToFront r) c)))
                  k loader options) as (Hs & _).
      eexists. eapply (store_eq_inv _ _ _ Hs). exact Hpro.
    + destruct (getOrSet_miss_frame (TtlCache.removeEntry r R_expired c)
                  caller k loader options) as (Hs & _).
      eexists. eapply (store_eq_inv _ _ _ Hs).
      by apply removeEntry_store_filter.
  - destruct (getOrSet_miss_frame c caller k loader options) as (Hs & _).
    exists rs. by eapply (store_eq_inv _ _ _ Hs).
Qed.

Lemma getOrSet_runtime_inv c caller k loader options now :
  TtlCache.runtime_inv c →
  TtlCache.runtime_inv (TtlCache.getOrSet caller k loader options now c).
Proof.
  intros Hinv. unfold TtlCache.getOrSet.
  destruct (TtlCache.signal_aborted _ c); [done|].
  destruct (JsMap.get k (TtlCache.c_map c)) as [r|] eqn:Hget.
  - destruct (CacheEntry.isFresh _ now); [done|].
    destruct (CacheEntry.isStale _ now).
    + match goal with |- context [TtlCache.refreshInBackground ?k ?l ?o ?c0] =>
        pose proof (refreshInBackground_runtime_inv c0 k l o Hinv) as Hr end.
      exact Hr.
    + apply getOrSet_miss_runtime_inv.
      eapply runtime_eq_inv; [apply removeEntry_runtime|done].
  - by apply getOrSet_miss_runtime_inv.
Qed.

Lemma getOrSet_wf c caller k loader options now :
  TtlCache.wf c → TtlCache.wf (TtlCache.getOrSet caller k loader options now c).
Proof.
  intros [H1 H2]. split; [by apply getOrSet_consistent | by apply getOrSet_runtime_inv].
Qed.

(** ** [settle] and [abort] keep the invariants *)

Lemma executeLoader_resume_consistent c k v options now :
  TtlCache.consistent c →
  ∃ c', TtlCache.executeLoader_resume k v options now c = Some c' ∧
        TtlCache.consistent c' ∧ TtlCache.runtime_eq c c'.
Proof.
  intros Hc. unfold TtlCache.executeLoader_resume. rewrite setWithSwr_write.
  destruct (write_consistent c k v
              (now + default (TtlCache.defaultTtlMs c) (options ≫= GetOrSetOptions.ttlMs))
              (now + default (TtlCache.defaultTtlMs c) (options ≫= GetOrSetOptions.ttlMs)
                 + default 0 (options ≫= GetOrSetOptions.swrMs)) Hc)
    as (c' & -> & Hc' & Hr).
  simpl. eexists. split; [done|]. split; [exact Hc'|exact Hr].
Qed.

Lemma resolve_promise_frame c p ld res :
  let c' := TtlCache.resolve_promise p ld res c in
  TtlCache.store_eq c c' ∧ TtlCache.stats c' = TtlCache.stats c ∧
  TtlCache.c_log c' = TtlCache.c_log c ∧
  TtlCache.c_aborted c' = TtlCache.c_aborted c.
Proof.
  unfold TtlCache.resolve_promise. simpl.
  match goal with |- context [foldl (TtlCache.settle_waiter ?o) ?c0 ?ws] =>
    destruct (wake_frame o ws c0) as (Hs & -> & -> & _ & _ & ->) end.
  split; [|done]. eapply store_eq_trans; [|exact Hs]. by repeat split.
Qed.

Lemma resolve_promise_runtime_inv c p ld res :
  TtlCache.runtime_inv c → TtlCache.runtime_inv (TtlCache.resolve_promise p ld res c).
Proof.
  intros [H1 H2]. unfold TtlCache.resolve_promise. apply wake_runtime_inv. split; simpl.
  - intros w [Hp Hin]%list_elem_of_filter. destruct (H1 w Hin) as (ld' & Hl & Hst).
    exists ld'. split; [|done]. by rewrite list_lookup_insert_ne.
  - intros k p' Hg. rewrite length_insert. by eapply H2.
Qed.

Lemma settle_wf c p res now :
  TtlCache.wf c → ∃ c', TtlCache.settle p res now c = Some c' ∧ TtlCache.wf c'.
Proof.
  intros [Hc Hr]. unfold TtlCache.settle.
  destruct (TtlCache.c_loads c !! p) as [ld|]; [|by exists c].
  destruct (TtlCache.l_state ld); try by exists c.
  destruct res as [v|e].
  - destruct (executeLoader_resume_consistent c (TtlCache.l_key ld) v
                (TtlCache.l_options ld) now Hc) as (c1 & -> & Hc1 & Hr1).
    simpl. eexists. split; [done|].
    destruct (resolve_promise_frame c1 p ld (inl v)) as (Hs & _). split.
    + by eapply store_eq_consistent.
    + apply resolve_promise_runtime_inv. by eapply runtime_eq_inv.
  - simpl. eexists. split; [done|].
    destruct (resolve_promise_frame c p ld (inr e)) as (Hs & _). split.
    + by eapply store_eq_consistent.
    + by apply resolve_promise_runtime_inv.
Qed.

Lemma abort_frame c sg :
  let c' := TtlCache.abort sg c in
  TtlCache.store_eq c c' ∧ TtlCache.stats c' = TtlCache.stats c ∧
  TtlCache.c_log c' = TtlCache.c_log c ∧ TtlCache.c_loads c' = TtlCache.c_loads c.
Proof.
  unfold TtlCache.abort. destruct (bool_decide _); [by repeat split|]. simpl.
  match goal with |- context [foldl (TtlCache.settle_waiter ?o) ?c0 ?ws] =>
    destruct (wake_frame o ws c0) as (Hs & -> & -> & -> & _) end.
  split; [|done]. eapply store_eq_trans; [|exact Hs]. by repeat split.
Qed.

Lemma abort_wf c sg : TtlCache.wf c → TtlCache.wf (TtlCache.abort sg c).
Proof.
  intros [Hc [H1 H2]]. destruct (abort_frame c sg) as (Hs & _). split.
  - by eapply store_eq_consistent.
  - unfold TtlCache.abort. destruct (bool_decide _); [done|].
    apply wake_runtime_inv. split; simpl; [|done].
    intros w [_ Hin]%list_elem_of_filter. by apply H1.
Qed.

(** ** Every event keeps the invariants *)

Lemma new_wf `{!Inhabited K, !Inhabited V} options :
  TtlCache.wf (TtlCache.new (K:=K) (V:=V) (E:=E) options).
Proof.
  split; [exists []; apply new_store|]. split.
  - intros w Hin. by apply elem_of_nil in Hin.
  - intros k p. done.
Qed.

Lemma step_wf c ev now :
  TtlCache.wf c → ∃ c', TtlCache.step ev now c = Some c' ∧ TtlCache.wf c'.
Proof.
  intros Hwf. pose proof Hwf as [Hc Hr]. destruct ev; simpl.
  - rewrite set_write.
    match goal with |- context [TtlCache.write k v ?ex ?su c] =>
      destruct (write_consistent c k v ex su Hc) as (c' & -> & Hc' & Hr') end.
    exists c'. split; [done|]. split; [done|]. by eapply runtime_eq_inv.
  - eexists. split; [done|]. split; [by apply get_consistent|].
    unfold TtlCache.get. destruct (JsMap.get _ _); [|done].
    destruct (CacheEntry.isFresh _ _); simpl; [done|].
    destruct (CacheEntry.isExpired _ _); [|done].
    eapply runtime_eq_inv; [|exact Hr].
    eapply runtime_eq_trans; [apply removeEntry_runtime|by repeat split].
  - eexists. split; [done|]. split; [by apply peek_consistent|].
    unfold TtlCache.peek. destruct (JsMap.get _ _); [|done].
    destruct (CacheEntry.isExpired _ _); [|done].
    eapply runtime_eq_inv; [apply removeEntry_runtime|done].
  - eexists. split; [done|]. split; [by apply has_consistent|].
    unfold TtlCache.has. destruct (JsMap.get _ _); [|done].
    destruct (CacheEntry.isExpired _ _); [|done].
    eapply runtime_eq_inv; [apply removeEntry_runtime|done].
  - eexists. split; [done|]. split; [by apply delete_consistent|].
    unfold TtlCache.delete. destruct (JsMap.get _ _); [|done].
    eapply runtime_eq_inv; [apply removeEntry_runtime|done].
  - eexists. split; [done|]. split; [eexists; apply clear_store|].
    eapply runtime_eq_inv; [apply clear_runtime|done].
  - eexists. split; [done|]. split; [by apply prune_consistent|].
    unfold TtlCache.prune. rewrite sweep_removeEntries.
    eapply runtime_eq_inv; [apply removeEntries_runtime|done].
  - eexists. split; [done|]. split; [by apply spread_consistent|].
    eapply runtime_eq_inv; [apply removeEntries_runtime|done].
  - eexists. split; [done|]. by apply getOrSet_wf.
  - by apply settle_wf.
  - eexists. split; [done|]. by apply abort_wf.
Qed.

Lemma run_wf c evs :
  TtlCache.wf c → ∃ c', TtlCache.run evs c = Some c' ∧ TtlCache.wf c'.
Proof.
  revert c. induction evs as [|[ev now] evs IH]; intros c Hwf.
  - by exists c.
  - simpl. destruct (step_wf c ev now Hwf) as (c1 & -> & Hwf1). simpl. by apply IH.
Qed.

End AsyncFacts.
End AsyncFacts.

Module Views.
Import JsMapFacts DllFacts TtlCacheFacts SyncFacts AsyncFacts.
Section Views.
Context {K V E : Type} `{!EqDecision K}.
Local Abbreviation t := (@TtlCache.t K V E).
Implicit Types (c : t) (k : K) (v : V) (r : ref) (rs xs ys : list ref).

Local Arguments DoublyLinkedList.seg : simpl never.
Local Arguments DoublyLinkedList.remove : simpl never.
Local Arguments DoublyLinkedList.addToFront : simpl never.
Local Arguments DoublyLinkedList.moveToFront : simpl never.
Local Arguments DoublyLinkedList.removeTail : simpl never.

Lemma lru_keys_inv c rs :
  TtlCache.store_inv c rs →
  TtlCache.lru_keys c = (λ r, CacheEntry.key (TtlCache.c_heap c r)) <$> rs.
Proof. intros Hinv. unfold TtlCache.lru_keys. by rewrite (store_inv_order _ _ Hinv). Qed.

Lemma lru_entries_inv c rs :
  TtlCache.store_inv c rs →
  TtlCache.lru_entries c = TtlCache.entry_kv (TtlCache.c_heap c) <$> rs.
Proof. intros Hinv. unfold TtlCache.lru_entries. by rewrite (store_inv_order _ _ Hinv). Qed.

Lemma size_inv c rs : TtlCache.store_inv c rs → TtlCache.size c = length rs.
Proof. apply store_inv_size. Qed.

Lemma key_inj c rs x y :
  TtlCache.store_inv c rs → x ∈ rs → y ∈ rs →
  CacheEntry.key (TtlCache.c_heap c x) = CacheEntry.key (TtlCache.c_heap c y) → x = y.
Proof.
  intros (_ & _ & Hiff & _) Hx Hy Hk.
  assert (JsMap.get (CacheEntry.key (TtlCache.c_heap c x)) (TtlCache.c_map c) = Some x) as H1
    by (apply Hiff; auto).
  assert (JsMap.get (CacheEntry.key (TtlCache.c_heap c x)) (TtlCache.c_map c) = Some y) as H2
    by (apply Hiff; auto).
  congruence.
Qed.

Lemma fmap_filter_ne {A B} `{!EqDecision A, !EqDecision B} (f : A → B) (a : A) (l : list A) :
  (∀ x, x ∈ l → f x = f a → x = a) →
  f <$> filter (λ x, x ≠ a) l = filter (λ y, y ≠ f a) (f <$> l).
Proof.
  induction l as [|x l IH]; intros Hinj; [done|].
  rewrite fmap_cons, !filter_cons.
  rewrite <- IH by (intros y Hy; apply Hinj; by right).
  destruct (decide (x = a)) as [->|Hne].
  - rewrite decide_False by (intros H; by apply H). rewrite decide_False by (intros H; by apply H).
    done.
  - rewrite decide_True by done. rewrite decide_True; [done|].
    intros Heq. apply Hne, Hinj; [left|done].
Qed.

Lemma fmap_ext_in {A B} (f g : A → B) (l : list A) :
  (∀ x, x ∈ l → f x = g x) → f <$> l = g <$> l.
Proof.
  induction l as [|x l IH]; intros H; [done|].
  rewrite !fmap_cons. f_equal; [apply H; left | apply IH; intros y Hy; apply H; by right].
Qed.

(** The keys in eviction order after the entry [r] of key [k] was promoted
    or removed, when the other entries kept their payload. *)
Lemma lru_keys_filter c c' rs r :
  TtlCache.store_inv c rs → r ∈ rs →
  TtlCache.store_inv c' (filter (λ x, x ≠ r) rs) →
  (∀ x, x ≠ r → CacheEntry.payload (TtlCache.c_heap c' x) = CacheEntry.payload (TtlCache.c_heap c x)) →
  TtlCache.lru_keys c' =
  filter (λ k', k' ≠ CacheEntry.key (TtlCache.c_heap c r)) (TtlCache.lru_keys c).
Proof.
  intros Hinv Hin Hinv' Hpay.
  rewrite (lru_keys_inv _ _ Hinv), (lru_keys_inv _ _ Hinv').
  rewrite <- (fmap_filter_ne (λ x, CacheEntry.key (TtlCache.c_heap c x)) r rs).
  - apply fmap_ext_in. intros x [Hne _]%list_elem_of_filter.
    apply payload_key. by apply Hpay.
  - intros x Hx Hk. by apply (key_inj c rs).
Qed.

Lemma lru_keys_promoted c c' rs r :
  TtlCache.store_inv c rs → r ∈ rs →
  TtlCache.store_inv c' (r :: filter (λ x, x ≠ r) rs) →
  (∀ x, CacheEntry.key (TtlCache.c_heap c' x) = CacheEntry.key (TtlCache.c_heap c x)) →
  TtlCache.lru_keys c' =
  CacheEntry.key (TtlCache.c_heap c r) ::
    filter (λ k', k' ≠ CacheEntry.key (TtlCache.c_heap c r)) (TtlCache.lru_keys c).
Proof.
  intros Hinv Hin Hinv' Hkey.
  rewrite (lru_keys_inv _ _ Hinv), (lru_keys_inv _ _ Hinv').
  rewrite fmap_cons, Hkey. f_equal.
  rewrite <- (fmap_filter_ne (λ x, CacheEntry.key (TtlCache.c_heap c x)) r rs).
  - apply fmap_ext_in. intros x _. apply Hkey.
  - intros x Hx Hk. by apply (key_inj c rs).
Qed.

Lemma payload_fields (e : CacheEntry.t K V) k v ex su :
  CacheEntry.payload e = (k, v, ex, su) →
  CacheEntry.key e = k ∧ CacheEntry.value e = v ∧
  CacheEntry.expiresAt e = ex ∧ CacheEntry.staleUntil e = su.
Proof. unfold CacheEntry.payload. by intros [= -> -> -> ->]. Qed.

Lemma lookup_Some c k e :
  TtlCache.lookup k c = Some e →
  ∃ r, JsMap.get k (TtlCache.c_map c) = Some r ∧ e = TtlCache.c_heap c r.
Proof.
  unfold TtlCache.lookup. destruct (JsMap.get k (TtlCache.c_map c)) as [r|]; [|done].
  intros [= <-]. eauto.
Qed.

Lemma lookup_None c k :
  TtlCache.lookup k c = None ↔ JsMap.get k (TtlCache.c_map c) = None.
Proof. unfold TtlCache.lookup. by destruct (JsMap.get k (TtlCache.c_map c)). Qed.

(** ** What [removeEntry] does, seen from outside *)

Lemma removeEntry_view c rs k r reason :
  TtlCache.store_inv c rs → JsMap.get k (TtlCache.c_map c) = Some r →
  let c' := TtlCache.removeEntry r reason c in
  TtlCache.store_inv c' (filter (λ x, x ≠ r) rs) ∧
  TtlCache.lookup k c' = None ∧
  TtlCache.lru_keys c' = filter (λ k', k' ≠ k) (TtlCache.lru_keys c) ∧
  TtlCache.c_log c' = TtlCache.c_log c ++
    TtlCache.evict_obs reason [(k, CacheEntry.value (TtlCache.c_heap c r))].
Proof.
  intros Hinv Hget. destruct (store_inv_get _ _ _ _ Hinv Hget) as [Hin Hkey].
  pose proof (removeEntry_store_filter c rs r reason Hinv Hin) as Hinv'.
  cbv zeta. split_and!.
  - done.
  - apply lookup_None. rewrite removeEntry_map, Hkey. apply get_delete_eq.
  - rewrite <- Hkey. apply (lru_keys_filter c _ rs r); try done.
    intros x _. apply removeEntry_payload.
  - rewrite removeEntry_log. unfold TtlCache.evict_log, TtlCache.entry_kv. simpl.
    by rewrite Hkey.
Qed.

Lemma promote_view c rs k r :
  TtlCache.store_inv c rs → JsMap.get k (TtlCache.c_map c) = Some r →
  let c' := TtlCache.with_list (DoublyLinkedList.moveToFront r) c in
  TtlCache.store_inv c' (r :: filter (λ x, x ≠ r) rs) ∧
  TtlCache.lru_keys c' = k :: filter (λ k', k' ≠ k) (TtlCache.lru_keys c) ∧
  CacheEntry.payload (TtlCache.c_heap c' r) = CacheEntry.payload (TtlCache.c_heap c r).
Proof.
  intros Hinv Hget. destruct (store_inv_get _ _ _ _ Hinv Hget) as [Hin Hkey].
  pose proof (promote_store c rs r Hinv Hin) as Hinv'.
  cbv zeta. split_and!.
  - done.
  - rewrite <- Hkey. apply (lru_keys_promoted c _ rs r); try done.
    intros x. apply payload_key, promote_payload.
  - apply promote_payload.
Qed.

(** ** What [write] does, seen from outside *)

Lemma write_existing_view c rs k v ex su r :
  TtlCache.store_inv c rs → JsMap.get k (TtlCache.c_map c) = Some r →
  ∃ c', TtlCache.write k v ex su c = Some c' ∧
    TtlCache.store_inv c' (r :: filter (λ x, x ≠ r) rs) ∧
    TtlCache.lru_keys c' = k :: filter (λ k', k' ≠ k) (TtlCache.lru_keys c) ∧
    CacheEntry.payload <$> TtlCache.lookup k c' = Some (k, v, ex, su) ∧
    TtlCache.c_log c' = TtlCache.c_log c ++ [TtlCache.Emit Ev_set k (Some v)] ∧
    TtlCache.stats c' = TtlCache.stats c ∧
    TtlCache.runtime_eq c c'.
Proof.
  intros Hinv Hget. destruct (store_inv_get _ _ _ _ Hinv Hget) as [Hin Hkey].
  destruct (write_existing c rs k v ex su r Hinv Hget) as (Hw & Hinv' & Hr & Hother).
  eexists. split; [exact Hw|]. split_and!.
  - exact Hinv'.
  - assert (∀ x, CacheEntry.key (TtlCache.c_heap (TtlCache.written_existing k v ex su r c) x) =
                 CacheEntry.key (TtlCache.c_heap c x)) as Hkeys.
    { intros x. destruct (decide (x = r)) as [->|Hne].
      - destruct (payload_fields _ _ _ _ _ Hr) as [-> _]. by rewrite Hkey.
      - apply payload_key. by apply Hother. }
    pose proof (lru_keys_promoted c _ rs r Hinv Hin Hinv' Hkeys) as Hk.
    by rewrite Hkey in Hk.
  - unfold TtlCache.lookup.
    change (TtlCache.c_map (TtlCache.written_existing k v ex su r c)) with (TtlCache.c_map c).
    rewrite Hget. cbn [fmap option_fmap option_map]. by rewrite Hr.
  - done.
  - done.
  - by repeat split.
Qed.

Lemma capacity_le c n : (TtlCache.capacity c n ≤ n)%nat.
Proof. unfold TtlCache.capacity. destruct (TtlCache.maxSize c); lia. Qed.

Lemma capacity_ok_pos c n : TtlCache.capacity_ok c → (1 ≤ TtlCache.capacity c (S n))%nat.
Proof.
  unfold TtlCache.capacity_ok, TtlCache.capacity. destruct (TtlCache.maxSize c); lia.
Qed.

Lemma write_new_view c rs k v ex su :
  TtlCache.store_inv c rs → JsMap.get k (TtlCache.c_map c) = None →
  let n := TtlCache.capacity c (S (TtlCache.size c)) in
  ∃ c', TtlCache.write k v ex su c = Some c' ∧
    TtlCache.store_inv c' (take n (TtlCache.c_next c :: rs)) ∧
    TtlCache.size c' = n ∧
    TtlCache.lru_entries c' = take n ((k, v) :: TtlCache.lru_entries c) ∧
    TtlCache.lru_keys c' = take n (k :: TtlCache.lru_keys c) ∧
    TtlCache.c_log c' =
      TtlCache.c_log c ++
      TtlCache.evict_obs R_evicted (reverse (drop n ((k, v) :: TtlCache.lru_entries c))) ++
      [TtlCache.Emit Ev_set k (Some v)] ∧
    ((1 ≤ n)%nat → CacheEntry.payload <$> TtlCache.lookup k c' = Some (k, v, ex, su)) ∧
    TtlCache.runtime_eq c c'.
Proof.
  intros Hinv Hget. rewrite (size_inv _ _ Hinv). cbv zeta.
  set (n := TtlCache.capacity c (S (length rs))).
  destruct (write_new c rs k v ex su Hinv Hget) as (Hw & Hinv' & Hpay).
  fold n in Hinv'.
  assert (TtlCache.c_next c ∉ rs) as Hfresh.
  { destruct Hinv as (_ & _ & _ & Hb). intros Hin%Hb. lia. }
  assert (∀ (h : ref → CacheEntry.t K V),
            (∀ x, CacheEntry.payload (h x) =
                  if decide (x = TtlCache.c_next c) then (k, v, ex, su)
                  else CacheEntry.payload (TtlCache.c_heap c x)) →
            TtlCache.entry_kv h <$> (TtlCache.c_next c :: rs) =
            (k, v) :: TtlCache.lru_entries c) as Hkv.
  { intros h Hh. rewrite fmap_cons, (lru_entries_inv _ _ Hinv). f_equal.
    - pose proof (Hh (TtlCache.c_next c)) as Hn. rewrite decide_True in Hn by done.
      unfold TtlCache.entry_kv. by destruct (payload_fields _ _ _ _ _ Hn) as (-> & -> & _).
    - apply fmap_ext_in. intros x Hx. pose proof (Hh x) as Hxp.
      rewrite decide_False in Hxp by (intros ->; done).
      unfold TtlCache.entry_kv.
      by rewrite (payload_key _ _ Hxp), (payload_value _ _ Hxp). }
  eexists. split; [exact Hw|]. split_and!.
  - exact Hinv'.
  - rewrite (size_inv _ _ Hinv'). rewrite length_take. simpl.
    pose proof (capacity_le c (S (length rs))). fold n in H. lia.
  - rewrite (lru_entries_inv _ _ Hinv'), fmap_take. f_equal. by apply Hkv.
  - rewrite (lru_keys_inv _ _ Hinv').
    assert (TtlCache.lru_keys c = (TtlCache.lru_entries c).*1) as ->.
    { unfold TtlCache.lru_keys, TtlCache.lru_entries. rewrite <- list_fmap_compose. done. }
    rewrite fmap_take. f_equal.
    change (k :: (TtlCache.lru_entries c).*1) with (((k, v) :: TtlCache.lru_entries c).*1).
    rewrite <- (Hkv _ Hpay), <- list_fmap_compose. done.
  - unfold TtlCache.written_new. fold n. cbn [TtlCache.c_log TtlCache.emit TtlCache.with_log].
    rewrite removeEntries_log. rewrite <- app_assoc. f_equal. f_equal.
    unfold TtlCache.evict_log. f_equal.
    rewrite fmap_reverse, fmap_drop. do 2 f_equal.
    apply Hkv. intros x. apply inserted_payload.
  - intros Hn. assert (TtlCache.c_next c ∈ take n (TtlCache.c_next c :: rs)) as Hin.
    { destruct n as [|n']; [lia|]. left. }
    pose proof (Hpay (TtlCache.c_next c)) as Hp. rewrite decide_True in Hp by done.
    destruct Hinv' as (_ & _ & Hiff & _).
    assert (JsMap.get k (TtlCache.c_map (TtlCache.written_new k v ex su rs c)) =
            Some (TtlCache.c_next c)) as Hg.
    { apply Hiff. split; [done|]. by destruct (payload_fields _ _ _ _ _ Hp) as (-> & _). }
    unfold TtlCache.lookup. rewrite Hg. cbn [fmap option_fmap option_map]. by rewrite Hp.
  - unfold TtlCache.written_new.
    eapply runtime_eq_trans; [|apply (removeEntries_runtime (TtlCache.inserted k v ex su c))].
    by repeat split.
Qed.

(** The entry that a successful [write] leaves under the key, whenever the
    capacity bound leaves room for one entry. *)
Lemma write_lookup c k v ex su :
  TtlCache.consistent c →
  TtlCache.capacity_ok c ∨ is_Some (TtlCache.lookup k c) →
  ∃ c', TtlCache.write k v ex su c = Some c' ∧
    CacheEntry.payload <$> TtlCache.lookup k c' = Some (k, v, ex, su) ∧
    hd_error (TtlCache.lru_keys c') = Some k ∧
    TtlCache.consistent c' ∧
    TtlCache.runtime_eq c c' ∧
    TtlCache.maxSize c' = TtlCache.maxSize c ∧
    ∃ evicted, TtlCache.c_log c' =
      TtlCache.c_log c ++ TtlCache.evict_obs R_evicted evicted ++
      [TtlCache.Emit Ev_set k (Some v)].
Proof.
  intros [rs Hinv] Hcap.
  destruct (JsMap.get k (TtlCache.c_map c)) as [r|] eqn:Hget.
  - destruct (write_existing_view c rs k v ex su r Hinv Hget)
      as (c' & Hw & Hinv' & Hkeys & Hl & Hlog & _ & Hr).
    exists c'. split_and!; try done.
    + by rewrite Hkeys.
    + by exists (r :: filter (λ x, x ≠ r) rs).
    + unfold TtlCache.write in Hw. rewrite Hget in Hw. by injection Hw as <-.
    + by exists [].
  - destruct (write_new_view c rs k v ex su Hinv Hget)
      as (c' & Hw & Hinv' & _ & _ & Hkeys & Hlog & Hl & Hr).
    destruct Hcap as [Hcap|[e He]];
      [|apply lookup_None in Hget; congruence].
    pose proof (capacity_ok_pos c (TtlCache.size c) Hcap) as Hpos.
    exists c'. split_and!; try done.
    + by apply Hl.
    + rewrite Hkeys. destruct (TtlCache.capacity c (S (TtlCache.size c))); [lia|done].
    + by eexists.
    + destruct (write_new c rs k v ex su Hinv Hget) as (Hw' & _).
      rewrite Hw in Hw'. injection Hw' as ->. unfold TtlCache.written_new.
      cbn. apply (removeEntries_config (TtlCache.inserted k v ex su c)).
    + by eexists.
Qed.

End Views.
End Views.

Module AsyncViews.
Import JsMapFacts DllFacts TtlCacheFacts SyncFacts AsyncFacts Views.
Section AsyncViews.
Context {K V E : Type} `{!EqDecision K}.
Local Abbreviation t := (@TtlCache.t K V E).
Implicit Types (c : t) (k : K) (v : V) (r : ref) (rs xs ys : list ref)
  (w : TtlCache.Waiter (K:=K)) (ws : list (TtlCache.Waiter (K:=K))).

Lemma store_eq_lru_keys c c' :
  TtlCache.store_eq c c' → TtlCache.lru_keys c' = TtlCache.lru_keys c.
Proof.
  intros Heq. unfold TtlCache.lru_keys. rewrite (store_eq_order _ _ Heq).
  destruct Heq as (_ & -> & _). done.
Qed.

Lemma store_eq_capacity_ok c c' :
  TtlCache.store_eq c c' → TtlCache.capacity_ok c → TtlCache.capacity_ok c'.
Proof. intros (_ & _ & _ & _ & Hm & _). unfold TtlCache.capacity_ok. by rewrite Hm. Qed.

Lemma settle_pending c p ld res now :
  TtlCache.c_loads c !! p = Some ld → TtlCache.l_state ld = TtlCache.Pending →
  TtlCache.settle p res now c =
  (c1 ← match res with
        | inl value =>
            TtlCache.executeLoader_resume (TtlCache.l_key ld) value
              (TtlCache.l_options ld) now c
        | inr _ => Some c
        end;
   Some (TtlCache.resolve_promise p ld res c1)).
Proof. intros Hl Hs. unfold TtlCache.settle. by rewrite Hl, Hs. Qed.

Lemma resolve_promise_results c p ld res :
  TtlCache.c_results (TtlCache.resolve_promise p ld res c) =
  TtlCache.c_results c ++
  TtlCache.answers (TtlCache.outcome_of res)
           (filter (λ w, TtlCache.w_promise w = p) (TtlCache.c_waiters c)).
Proof. unfold TtlCache.resolve_promise. by rewrite wake_results. Qed.

Lemma resolve_promise_inflight c p ld res k :
  JsMap.get k (TtlCache.c_inflight (TtlCache.resolve_promise p ld res c)) =
  if decide (Some k ∈ TtlCache.w_finally <$>
               filter (λ w, TtlCache.w_promise w = p) (TtlCache.c_waiters c))
  then None else JsMap.get k (TtlCache.c_inflight c).
Proof. unfold TtlCache.resolve_promise. by rewrite wake_inflight_get. Qed.

Lemma resolve_promise_loads c p ld res :
  TtlCache.c_loads (TtlCache.resolve_promise p ld res c) =
  <[p := TtlCache.mkLoad (TtlCache.l_key ld) (TtlCache.l_loader ld) (TtlCache.l_options ld)
           match res with inl v => TtlCache.Fulfilled v | inr e => TtlCache.Failed e end]>
    (TtlCache.c_loads c).
Proof.
  unfold TtlCache.resolve_promise.
  match goal with |- context [foldl (TtlCache.settle_waiter ?o) ?c0 ?ws] =>
    destruct (wake_frame o ws c0) as (_ & _ & _ & -> & _) end.
  done.
Qed.

Lemma resolve_promise_waiters c p ld res :
  TtlCache.c_waiters (TtlCache.resolve_promise p ld res c) =
  filter (λ w, TtlCache.w_promise w ≠ p) (TtlCache.c_waiters c).
Proof.
  unfold TtlCache.resolve_promise.
  match goal with |- context [foldl (TtlCache.settle_waiter ?o) ?c0 ?ws] =>
    destruct (wake_frame o ws c0) as (_ & _ & _ & _ & -> & _) end.
  done.
Qed.

(** A loader that fails leaves the store, the statistics and the log as
    they are. *)
Lemma settle_failure c p ld e now :
  TtlCache.c_loads c !! p = Some ld → TtlCache.l_state ld = TtlCache.Pending →
  TtlCache.settle p (inr e) now c = Some (TtlCache.resolve_promise p ld (inr e) c) ∧
  TtlCache.store_eq c (TtlCache.resolve_promise p ld (inr e) c) ∧
  TtlCache.stats (TtlCache.resolve_promise p ld (inr e) c) = TtlCache.stats c ∧
  TtlCache.c_log (TtlCache.resolve_promise p ld (inr e) c) = TtlCache.c_log c.
Proof.
  intros Hl Hs. rewrite (settle_pending _ _ _ _ _ Hl Hs).
  destruct (resolve_promise_frame c p ld (inr e)) as (? & ? & ? & _). done.
Qed.

(** A loader that succeeds: the value is written under the key with the
    window of the call's options, the entry is the most recent one, and the
    continuations waiting for the promise get the value. *)
Lemma settle_success c p ld v now :
  TtlCache.consistent c →
  TtlCache.capacity_ok c ∨ is_Some (TtlCache.lookup (TtlCache.l_key ld) c) →
  TtlCache.c_loads c !! p = Some ld → TtlCache.l_state ld = TtlCache.Pending →
  let k := TtlCache.l_key ld in
  let ex := now + default (TtlCache.defaultTtlMs c)
                          (TtlCache.l_options ld ≫= GetOrSetOptions.ttlMs) in
  let su := ex + default 0 (TtlCache.l_options ld ≫= GetOrSetOptions.swrMs) in
  ∃ c', TtlCache.settle p (inl v) now c = Some c' ∧
    CacheEntry.payload <$> TtlCache.lookup k c' = Some (k, v, ex, su) ∧
    hd_error (TtlCache.lru_keys c') = Some k ∧
    TtlCache.consistent c' ∧
    TtlCache.c_results c' =
      TtlCache.c_results c ++
      TtlCache.answers (TtlCache.Resolved v)
           (filter (λ w, TtlCache.w_promise w = p) (TtlCache.c_waiters c)) ∧
    (∀ k', JsMap.get k' (TtlCache.c_inflight c') =
       if decide (Some k' ∈ TtlCache.w_finally <$>
                    filter (λ w, TtlCache.w_promise w = p) (TtlCache.c_waiters c))
       then None else JsMap.get k' (TtlCache.c_inflight c)) ∧
    ∃ evicted, TtlCache.c_log c' =
      TtlCache.c_log c ++ TtlCache.evict_obs R_evicted evicted ++
      [TtlCache.Emit Ev_set k (Some v); TtlCache.Emit Ev_load k (Some v)].
Proof.
  intros Hc Hcap Hl Hs. cbv zeta. rewrite (settle_pending _ _ _ _ _ Hl Hs).
  unfold TtlCache.executeLoader_resume. rewrite setWithSwr_write.
  match goal with |- context [TtlCache.write ?k v ?ex ?su c] =>
    destruct (write_lookup c k v ex su Hc Hcap)
      as (c1 & -> & Hlook & Hhd & Hc1 & (Hi & Hlo & Hw & _ & Hres) & _ & evicted & Hlog) end.
  cbn [mbind option_bind].
  set (c2 := TtlCache.emit Ev_load (TtlCache.l_key ld) (Some v)
               (TtlCache.with_stats TtlCache.load_incr c1)).
  destruct (resolve_promise_frame c2 p ld (inl v)) as (Hs2 & _ & Hlog2 & _).
  eexists. split; [done|]. split_and!.
  - rewrite (store_eq_lookup _ _ _ Hs2). exact Hlook.
  - rewrite (store_eq_lru_keys _ _ Hs2). exact Hhd.
  - eapply store_eq_consistent; [exact Hs2|]. exact Hc1.
  - rewrite resolve_promise_results. cbn. by rewrite Hres, Hw.
  - intros k'. rewrite resolve_promise_inflight. cbn. by rewrite Hw, Hi.
  - exists evicted. rewrite Hlog2. cbn. rewrite Hlog. by rewrite <- !app_assoc.
Qed.

(** Whatever the loader's result, the continuations waiting for its promise
    get it, and no other result is delivered. *)
Lemma settle_results c p ld res now :
  TtlCache.wf c →
  TtlCache.c_loads c !! p = Some ld → TtlCache.l_state ld = TtlCache.Pending →
  ∃ c', TtlCache.settle p res now c = Some c' ∧
    TtlCache.c_results c' =
      TtlCache.c_results c ++
      TtlCache.answers (TtlCache.outcome_of res)
           (filter (λ w, TtlCache.w_promise w = p) (TtlCache.c_waiters c)) ∧
    (∀ k', JsMap.get k' (TtlCache.c_inflight c') =
       if decide (Some k' ∈ TtlCache.w_finally <$>
                    filter (λ w, TtlCache.w_promise w = p) (TtlCache.c_waiters c))
       then None else JsMap.get k' (TtlCache.c_inflight c)) ∧
    TtlCache.c_waiters c' =
      filter (λ w, TtlCache.w_promise w ≠ p) (TtlCache.c_waiters c) ∧
    TtlCache.c_aborted c' = TtlCache.c_aborted c.
Proof.
  intros [Hc Hr] Hl Hs. rewrite (settle_pending _ _ _ _ _ Hl Hs).
  destruct res as [v|e].
  - destruct (executeLoader_resume_consistent c (TtlCache.l_key ld) v
                (TtlCache.l_options ld) now Hc) as (c1 & -> & _ & (Hi & _ & Hw & Ha & Hres)).
    cbn [mbind option_bind]. eexists. split; [done|].
    rewrite resolve_promise_results, resolve_promise_waiters, Hres, Hw.
    split_and!; try done.
    + intros k'. by rewrite resolve_promise_inflight, Hw, Hi.
    + destruct (resolve_promise_frame c1 p ld (inl v)) as (_ & _ & _ & ->). done.
  - cbn [mbind option_bind]. eexists. split; [done|].
    rewrite resolve_promise_results, resolve_promise_waiters.
    split_and!; try done.
    + intros k'. by rewrite resolve_promise_inflight.
    + destruct (resolve_promise_frame c p ld (inr e)) as (_ & _ & _ & ->). done.
Qed.

(** No continuation waits for a promise that has not been made yet. *)
Lemma no_waiter_on_next_promise c :
  TtlCache.runtime_inv c →
  filter (λ w, TtlCache.w_promise w = length (TtlCache.c_loads c)) (TtlCache.c_waiters c) = [].
Proof.
  intros [H1 _]. apply filter_none. intros w Hin Hp.
  destruct (H1 w Hin) as (ld & Hl%lookup_lt_Some & _). lia.
Qed.

Lemma waiters_on_other_promises c :
  TtlCache.runtime_inv c →
  filter (λ w, TtlCache.w_promise w ≠ length (TtlCache.c_loads c)) (TtlCache.c_waiters c) =
  TtlCache.c_waiters c.
Proof.
  intros [H1 _]. apply filter_all. intros w Hin Hp.
  destruct (H1 w Hin) as (ld & Hl%lookup_lt_Some & _). lia.
Qed.

(** ** The miss path of [getOrSet] *)

Lemma getOrSet_miss_path c caller k loader options now :
  TtlCache.signal_aborted (options ≫= GetOrSetOptions.signal) c = None →
  (∀ e, TtlCache.lookup k c = Some e →
        CacheEntry.isFresh e now = false ∧ CacheEntry.isStale e now = false) →
  TtlCache.getOrSet caller k loader options now c =
  TtlCache.getOrSet_miss caller k loader options
    (match JsMap.get k (TtlCache.c_map c) with
     | Some r => TtlCache.removeEntry r R_expired c
     | None => c
     end).
Proof.
  intros Hsig Hmiss. unfold TtlCache.getOrSet. rewrite Hsig.
  unfold TtlCache.lookup in Hmiss.
  destruct (JsMap.get k (TtlCache.c_map c)) as [r|]; [|done].
  destruct (Hmiss _ eq_refl) as [-> ->]. done.
Qed.

Lemma getOrSet_miss_start c caller k loader options :
  TtlCache.dedupe_on options = true →
  JsMap.get k (TtlCache.c_inflight c) = None →
  TtlCache.signal_aborted (options ≫= GetOrSetOptions.signal) c = None →
  TtlCache.getOrSet_miss caller k loader options c =
  TtlCache.with_waiters
    (λ ws, ws ++ [TtlCache.mkWaiter (Some caller) (length (TtlCache.c_loads c))
                    (options ≫= GetOrSetOptions.signal) (Some k)])
    (TtlCache.with_inflight (JsMap.set k (length (TtlCache.c_loads c)))
       (TtlCache.with_loads
          (λ ls, ls ++ [TtlCache.mkLoad k loader options TtlCache.Pending])
          (TtlCache.emit Ev_miss k None (TtlCache.with_stats TtlCache.miss_incr c)))).
Proof.
  intros Hd Hi Hsig. unfold TtlCache.getOrSet_miss. rewrite Hd. cbn. rewrite Hi. cbn.
  apply (withAbort_pending _ _ (TtlCache.mkLoad k loader options TtlCache.Pending));
    [exact Hsig| |done].
  cbn. by apply list_lookup_middle.
Qed.

Lemma getOrSet_miss_attach c caller k loader options p ld :
  TtlCache.dedupe_on options = true →
  JsMap.get k (TtlCache.c_inflight c) = Some p →
  TtlCache.c_loads c !! p = Some ld → TtlCache.l_state ld = TtlCache.Pending →
  TtlCache.signal_aborted (options ≫= GetOrSetOptions.signal) c = None →
  TtlCache.getOrSet_miss caller k loader options c =
  TtlCache.with_waiters
    (λ ws, ws ++ [TtlCache.mkWaiter (Some caller) p
                    (options ≫= GetOrSetOptions.signal) None])
    (TtlCache.emit Ev_miss k None (TtlCache.with_stats TtlCache.miss_incr c)).
Proof.
  intros Hd Hi Hl Hs Hsig. unfold TtlCache.getOrSet_miss. rewrite Hd. cbn. rewrite Hi.
  by apply (withAbort_pending _ _ ld).
Qed.

End AsyncViews.
End AsyncViews.

Module IterationFacts.
Import JsMapFacts DllFacts TtlCacheFacts SyncFacts AsyncFacts Views AsyncViews.
Section IterationFacts.
Context {K V E : Type} `{!EqDecision K}.
Local Abbreviation t := (TtlCache.t K V E).
Implicit Types (c : t) (k : K) (v : V) (r : ref) (m slots : JsMap.t K ref)
  (h : ref → CacheEntry.t K V).

Lemma yielded_nil h now : TtlCache.yielded h now [] = [].
Proof. done. Qed.

Lemma yielded_tombstone h now slots :
  TtlCache.yielded h now (None :: slots) = TtlCache.yielded h now slots.
Proof. done. Qed.

Lemma yielded_entry h now k r slots :
  TtlCache.yielded h now (Some (k, r) :: slots) =
  if CacheEntry.isExpired (h r) now then TtlCache.yielded h now slots
  else if CacheEntry.isFresh (h r) now
       then (CacheEntry.key (h r), CacheEntry.value (h r)) :: TtlCache.yielded h now slots
       else TtlCache.yielded h now slots.
Proof.
  unfold TtlCache.yielded.
  change (JsMap.values (Some (k, r) :: slots)) with (r :: JsMap.values slots).
  rewrite fmap_cons, filter_cons.
  destruct (CacheEntry.isExpired (h r) now); [by rewrite decide_False by (by intros [? _])|].
  destruct (CacheEntry.isFresh (h r) now).
  - by rewrite decide_True.
  - by rewrite decide_False by (by intros [_ ?]).
Qed.

Lemma set_aside_tombstone h now slots :
  TtlCache.set_aside h now (None :: slots) = TtlCache.set_aside h now slots.
Proof. done. Qed.

Lemma set_aside_entry h now k r slots :
  TtlCache.set_aside h now (Some (k, r) :: slots) =
  if CacheEntry.isExpired (h r) now then r :: TtlCache.set_aside h now slots
  else TtlCache.set_aside h now slots.
Proof.
  unfold TtlCache.set_aside.
  change (JsMap.values (Some (k, r) :: slots)) with (r :: JsMap.values slots).
  rewrite filter_cons. by destruct (CacheEntry.isExpired (h r) now).
Qed.

(** One run of the scanning loop: either it reaches the end of the map, or
    it stops at a fresh entry and the rest of the map is left to scan. *)
Lemma scan_spec h now slots idx expired :
  match TtlCache.scan h now slots idx expired with
  | (Some kv, idx', expired') =>
      ∃ n, idx' = (idx + S n)%nat ∧ (n < length slots)%nat ∧
        TtlCache.yielded h now slots = kv :: TtlCache.yielded h now (drop (S n) slots) ∧
        expired ++ TtlCache.set_aside h now slots =
        expired' ++ TtlCache.set_aside h now (drop (S n) slots)
  | (None, _, expired') =>
      TtlCache.yielded h now slots = [] ∧
      expired' = expired ++ TtlCache.set_aside h now slots
  end.
Proof.
  revert idx expired. induction slots as [|[[k r]|] slots IH]; intros idx expired.
  - cbn. by rewrite app_nil_r.
  - cbn [TtlCache.scan]. rewrite yielded_entry, set_aside_entry.
    destruct (CacheEntry.isExpired (h r) now).
    + specialize (IH (S idx) (expired ++ [r])).
      destruct (TtlCache.scan h now slots (S idx) (expired ++ [r])) as [[[kv|] idx'] expired'].
      * destruct IH as (n & -> & Hn & Hy & He). exists (S n).
        split_and!; [lia|simpl; lia|exact Hy|].
        cbn [drop]. rewrite <- He, <- app_assoc. done.
      * destruct IH as [Hy ->]. by rewrite <- app_assoc.
    + destruct (CacheEntry.isFresh (h r) now).
      * exists 0%nat. split_and!; [lia|simpl; lia|done|done].
      * specialize (IH (S idx) expired).
        destruct (TtlCache.scan h now slots (S idx) expired) as [[[kv|] idx'] expired'].
        -- destruct IH as (n & -> & Hn & Hy & He). exists (S n).
           split_and!; [lia|simpl; lia|exact Hy|exact He].
        -- exact IH.
  - cbn [TtlCache.scan]. rewrite yielded_tombstone, set_aside_tombstone.
    specialize (IH (S idx) expired).
    destruct (TtlCache.scan h now slots (S idx) expired) as [[[kv|] idx'] expired'].
    + destruct IH as (n & -> & Hn & Hy & He). exists (S n).
      split_and!; [lia|simpl; lia|exact Hy|exact He].
    + exact IH.
Qed.

Lemma drain_suspended c clock now fuel idx expired :
  (length (drop idx (TtlCache.c_map c)) < fuel)%nat →
  TtlCache.drain fuel clock (TtlCache.GenSuspended now idx expired) c =
  Some (TtlCache.yielded (TtlCache.c_heap c) now (drop idx (TtlCache.c_map c)),
        TtlCache.removeEntries R_expired
          (expired ++ TtlCache.set_aside (TtlCache.c_heap c) now (drop idx (TtlCache.c_map c)))
          c).
Proof.
  revert idx expired. induction fuel as [|fuel IH]; intros idx expired Hlen; [lia|].
  cbn [TtlCache.drain TtlCache.iterator_next]. unfold TtlCache.resume.
  pose proof (scan_spec (TtlCache.c_heap c) now (drop idx (TtlCache.c_map c)) idx expired) as Hs.
  destruct (TtlCache.scan _ now _ idx expired) as [[[kv|] idx'] expired'].
  - destruct Hs as (n & -> & Hn & Hy & He).
    assert (drop (idx + S n) (TtlCache.c_map c) = drop (S n) (drop idx (TtlCache.c_map c))) as Hd
      by (rewrite drop_drop; done).
    rewrite IH.
    + cbn. rewrite Hd, Hy, He. done.
    + rewrite Hd, length_drop. lia.
  - destruct Hs as [-> ->]. done.
Qed.

(** Iterating to the end without touching the cache in between is
    [spread]. *)
Lemma drain_spread c now :
  TtlCache.drain (S (length (TtlCache.c_map c))) now TtlCache.GenStart c =
  Some (TtlCache.spread now c).
Proof.
  pose proof (drain_suspended c now now (S (length (TtlCache.c_map c))) 0 []) as H.
  rewrite drop_0 in H. specialize (H ltac:(lia)).
  cbn [TtlCache.drain TtlCache.iterator_next] in *. exact H.
Qed.

End IterationFacts.
End IterationFacts.

Module Claims.
Import JsMapFacts DllFacts TtlCacheFacts SyncFacts AsyncFacts Views AsyncViews.
Section Claims.
Context {K V E : Type} `{!EqDecision K}.
Local Abbreviation t := (@TtlCache.t K V E).
Implicit Types (c : t) (k : K) (v : V) (r : ref) (rs xs ys : list ref).

Local Arguments DoublyLinkedList.seg : simpl never.
Local Arguments DoublyLinkedList.remove : simpl never.
Local Arguments DoublyLinkedList.addToFront : simpl never.
Local Arguments DoublyLinkedList.moveToFront : simpl never.
Local Arguments DoublyLinkedList.removeTail : simpl never.

Lemma not_fresh_not_stale (e : CacheEntry.t K V) now :
  CacheEntry.isFresh e now = false → CacheEntry.isStale e now = false →
  CacheEntry.isExpired e now = true.
Proof.
  unfold CacheEntry.isFresh, CacheEntry.isStale, CacheEntry.isExpired.
  intros H1%bool_decide_eq_false H2%andb_false_iff. apply bool_decide_eq_true.
  destruct H2 as [H2%bool_decide_eq_false|H2%bool_decide_eq_false]; lia.
Qed.

Lemma stale_not_expired (e : CacheEntry.t K V) now :
  CacheEntry.isStale e now = true → CacheEntry.isExpired e now = false.
Proof.
  unfold CacheEntry.isStale, CacheEntry.isExpired.
  intros [_ H%bool_decide_eq_true]%andb_true_iff. apply bool_decide_eq_false. lia.
Qed.

Lemma get_fresh_keys c k now e :
  TtlCache.consistent c → TtlCache.lookup k c = Some e →
  CacheEntry.isFresh e now = true →
  TtlCache.lru_keys (TtlCache.get k now c).2 =
  k :: filter (λ k', k' ≠ k) (TtlCache.lru_keys c).
Proof.
  intros [rs Hinv] (r & Hget & ->)%lookup_Some Hfresh.
  unfold TtlCache.get. rewrite Hget, Hfresh. cbn [negb snd].
  by destruct (promote_view c rs k r Hinv Hget) as (_ & Hkeys & _).
Qed.

Lemma peek_keys c k now :
  TtlCache.consistent c →
  TtlCache.lru_keys (TtlCache.peek k now c).2 = TtlCache.lru_keys c ∨
  (TtlCache.lookup k (TtlCache.peek k now c).2 = None ∧
   TtlCache.lru_keys (TtlCache.peek k now c).2 =
   filter (λ k', k' ≠ k) (TtlCache.lru_keys c)).
Proof.
  intros [rs Hinv]. unfold TtlCache.peek.
  destruct (JsMap.get k (TtlCache.c_map c)) as [r|] eqn:Hget; [|by left].
  destruct (CacheEntry.isExpired (TtlCache.c_heap c r) now); [|by left].
  right. cbn [snd].
  by destruct (removeEntry_view c rs k r R_expired Hinv Hget) as (_ & Hl & Hkeys & _).
Qed.



Lemma write_grows c k v ex su :
  TtlCache.consistent c → TtlCache.lookup k c = None →
  let n := TtlCache.capacity c (S (TtlCache.size c)) in
  ∃ c', TtlCache.write k v ex su c = Some c' ∧
    TtlCache.lru_entries c' = take n ((k, v) :: TtlCache.lru_entries c) ∧
    TtlCache.c_log c' =
      TtlCache.c_log c ++
      TtlCache.evict_obs R_evicted (reverse (drop n ((k, v) :: TtlCache.lru_entries c))) ++
      [TtlCache.Emit Ev_set k (Some v)] ∧
    TtlCache.size c' = n ∧
    (∀ bound, TtlCache.maxSize c = Some bound → 0 ≤ bound → Z.of_nat (TtlCache.size c') ≤ bound).
Proof.
  intros [rs Hinv] Hnone%lookup_None. cbv zeta.
  destruct (write_new_view c rs k v ex su Hinv Hnone)
    as (c' & Hw & _ & Hsize & Hentries & _ & Hlog & _).
  exists c'. split_and!; try done.
  intros bound Hb Hpos. rewrite Hsize. unfold TtlCache.capacity. rewrite Hb. lia.
Qed.

(** C6. An insertion that grows the store removes entries from the least
    recently used end, each with reason [evicted], until the size is the
    capacity: the entries that stay are the most recent ones and the size is
    within a bound that is not negative. [set] and [get] on an existing key
    move it to the most recent end, [peek] leaves the order as it is, and
    without a bound no entry is evicted. *)
Theorem lru_eviction_order c k v now :
  TtlCache.consistent c →
  (TtlCache.lookup k c = None →
   let n := TtlCache.capacity c (S (TtlCache.size c)) in
   (∀ options, ∃ c', TtlCache.set k v options now c = Some c' ∧
      TtlCache.lru_entries c' = take n ((k, v) :: TtlCache.lru_entries c) ∧
      TtlCache.c_log c' =
        TtlCache.c_log c ++
        TtlCache.evict_obs R_evicted
          (reverse (drop n ((k, v) :: TtlCache.lru_entries c))) ++
        [TtlCache.Emit Ev_set k (Some v)] ∧
      TtlCache.size c' = n ∧
      (∀ bound, TtlCache.maxSize c = Some bound → 0 ≤ bound →
                Z.of_nat (TtlCache.size c') ≤ bound)) ∧
   (∀ options, ∃ c', TtlCache.setWithSwr k v options now c = Some c' ∧
      TtlCache.lru_entries c' = take n ((k, v) :: TtlCache.lru_entries c) ∧
      TtlCache.c_log c' =
        TtlCache.c_log c ++
        TtlCache.evict_obs R_evicted
          (reverse (drop n ((k, v) :: TtlCache.lru_entries c))) ++
        [TtlCache.Emit Ev_set k (Some v)] ∧
      TtlCache.size c' = n ∧
      (∀ bound, TtlCache.maxSize c = Some bound → 0 ≤ bound →
                Z.of_nat (TtlCache.size c') ≤ bound))) ∧
  (∀ e options, TtlCache.lookup k c = Some e →
     ∃ c', TtlCache.set k v options now c = Some c' ∧
       TtlCache.lru_keys c' = k :: filter (λ k', k' ≠ k) (TtlCache.lru_keys c)) ∧
  (∀ e, TtlCache.lookup k c = Some e → CacheEntry.isFresh e now = true →
     TtlCache.lru_keys (TtlCache.get k now c).2 =
     k :: filter (λ k', k' ≠ k) (TtlCache.lru_keys c)) ∧
  (TtlCache.lru_keys (TtlCache.peek k now c).2 = TtlCache.lru_keys c ∨
   (TtlCache.lookup k (TtlCache.peek k now c).2 = None ∧
    TtlCache.lru_keys (TtlCache.peek k now c).2 =
    filter (λ k', k' ≠ k) (TtlCache.lru_keys c))) ∧
  (TtlCache.maxSize c = None →
     TtlCache.enforceMaxSize c = Some c ∧
     TtlCache.capacity c (S (TtlCache.size c)) = S (TtlCache.size c)).
Proof.
  intros Hc. split_and!.
  - intros Hnone. cbv zeta. split.
    + intros options. rewrite set_write. by apply write_grows.
    + intros options. rewrite setWithSwr_write. by apply write_grows.
  - intros e options (r & Hget & _)%lookup_Some. destruct Hc as [rs Hinv].
    rewrite set_write.
    match goal with |- context [TtlCache.write k v ?ex ?su c] =>
      destruct (write_existing_view c rs k v ex su r Hinv Hget) as (c' & Hw & _ & Hkeys & _) end.
    by exists c'.
  - intros e He Hfresh. by apply get_fresh_keys with e.
  - by apply peek_keys.
  - intros Hnone. unfold TtlCache.enforceMaxSize, TtlCache.capacity. by rewrite Hnone.
Qed.

(** C7. An explicit [set] writes [expiresAt = now + ttl], with the ttl of the
    call or else the default of the cache, and [staleUntil = expiresAt]. A
    completed load writes [expiresAt = now + ttl] and
    [staleUntil = expiresAt + swr], with [swr] zero unless the call gave one.
    The default ttl of a cache made without one is 30000. *)
Theorem write_timestamps `{!Inhabited K, !Inhabited V} c k v now :
  TtlCache.consistent c → TtlCache.capacity_ok c →
  (∀ options, ∃ c' e,
     TtlCache.set k v options now c = Some c' ∧
     TtlCache.lookup k c' = Some e ∧ CacheEntry.value e = v ∧
     CacheEntry.expiresAt e =
       now + default (TtlCache.defaultTtlMs c) (options ≫= SetOptions.ttlMs) ∧
     CacheEntry.staleUntil e = CacheEntry.expiresAt e) ∧
  (∀ options, ∃ c' e,
     TtlCache.executeLoader_resume k v options now c = Some c' ∧
     TtlCache.lookup k c' = Some e ∧ CacheEntry.value e = v ∧
     CacheEntry.expiresAt e =
       now + default (TtlCache.defaultTtlMs c) (options ≫= GetOrSetOptions.ttlMs) ∧
     CacheEntry.staleUntil e =
       CacheEntry.expiresAt e + default 0 (options ≫= GetOrSetOptions.swrMs)) ∧
  (∀ options,
     TtlCache.defaultTtlMs (TtlCache.new (K:=K) (V:=V) (E:=E) options) =
     default 30000 (options ≫= CacheOptions.ttlMs)).
Proof.
  intros Hc Hcap. split_and!.
  - intros options. rewrite set_write.
    match goal with |- context [TtlCache.write k v ?ex ?su c] =>
      destruct (write_lookup c k v ex su Hc (or_introl Hcap)) as (c' & Hw & Hl & _) end.
    destruct (TtlCache.lookup k c') as [e|] eqn:He; [|done].
    injection Hl as Hk Hv Hex Hsu.
    exists c', e. split_and!; try done. congruence.
  - intros options. unfold TtlCache.executeLoader_resume. rewrite setWithSwr_write.
    match goal with |- context [TtlCache.write k v ?ex ?su c] =>
      destruct (write_lookup c k v ex su Hc (or_introl Hcap)) as (c' & -> & Hl & _) end.
    cbn [mbind option_bind].
    change (TtlCache.lookup k (TtlCache.emit _ _ _ (TtlCache.with_stats _ c')))
      with (TtlCache.lookup k c').
    destruct (TtlCache.lookup k c') as [e|] eqn:He; [|done].
    injection Hl as Hk Hv Hex Hsu.
    eexists _, e. split_and!; try done. congruence.
  - done.
Qed.

Lemma delete_view c k :
  TtlCache.consistent c →
  TtlCache.lookup k (TtlCache.delete k c).2 = None ∧
  TtlCache.runtime_eq c (TtlCache.delete k c).2 ∧
  TtlCache.maxSize (TtlCache.delete k c).2 = TtlCache.maxSize c ∧
  TtlCache.defaultTtlMs (TtlCache.delete k c).2 = TtlCache.defaultTtlMs c.
Proof.
  intros [rs Hinv]. unfold TtlCache.delete.
  destruct (JsMap.get k (TtlCache.c_map c)) as [r|] eqn:Hget; cbn [snd].
  - destruct (removeEntry_view c rs k r R_manual Hinv Hget) as (_ & Hl & _).
    destruct (removeEntry_config c r R_manual) as (? & ? & _).
    split_and!; try done.
  - split_and!; try done. by apply lookup_None.
Qed.

Lemma clear_view c k :
  TtlCache.lookup k (TtlCache.clear c) = None ∧
  TtlCache.size (TtlCache.clear c) = 0%nat ∧
  TtlCache.runtime_eq c (TtlCache.clear c) ∧
  TtlCache.maxSize (TtlCache.clear c) = TtlCache.maxSize c ∧
  TtlCache.defaultTtlMs (TtlCache.clear c) = TtlCache.defaultTtlMs c.
Proof.
  split_and!.
  - apply lookup_None. unfold TtlCache.clear. cbn. apply get_clear.
  - apply (size_inv _ []), clear_store.
  - apply clear_runtime.
  - unfold TtlCache.clear. cbn.
    by destruct (clear_announce_frame c (JsMap.values (TtlCache.c_map c)))
      as ((_ & _ & _ & _ & ? & _) & _).
  - unfold TtlCache.clear. cbn.
    by destruct (clear_announce_frame c (JsMap.values (TtlCache.c_map c)))
      as ((_ & _ & _ & _ & _ & ?) & _).
Qed.

(** C10. A load that completes writes its value under its key, as the most
    recent entry and with the window of its options, in the state in which
    it completes: [delete] and [clear] leave the load pending, so the value
    comes back after the key was deleted or the cache was cleared. *)
Theorem load_completion_writes c p ld v now :
  TtlCache.wf c → TtlCache.capacity_ok c →
  TtlCache.c_loads c !! p = Some ld → TtlCache.l_state ld = TtlCache.Pending →
  let k := TtlCache.l_key ld in
  let ex := now + default (TtlCache.defaultTtlMs c)
                          (TtlCache.l_options ld ≫= GetOrSetOptions.ttlMs) in
  let su := ex + default 0 (TtlCache.l_options ld ≫= GetOrSetOptions.swrMs) in
  (TtlCache.c_loads (TtlCache.delete k c).2 = TtlCache.c_loads c ∧
   TtlCache.lookup k (TtlCache.delete k c).2 = None) ∧
  (TtlCache.c_loads (TtlCache.clear c) = TtlCache.c_loads c ∧
   TtlCache.size (TtlCache.clear c) = 0%nat) ∧
  ∀ c1, c1 = c ∨ c1 = (TtlCache.delete k c).2 ∨ c1 = TtlCache.clear c →
    ∃ c', TtlCache.settle p (inl v) now c1 = Some c' ∧
      CacheEntry.payload <$> TtlCache.lookup k c' = Some (k, v, ex, su) ∧
      hd_error (TtlCache.lru_keys c') = Some k ∧
      ∃ evicted, TtlCache.c_log c' =
        TtlCache.c_log c1 ++ TtlCache.evict_obs R_evicted evicted ++
        [TtlCache.Emit Ev_set k (Some v); TtlCache.Emit Ev_load k (Some v)].
Proof.
  intros [Hc Hr] Hcap Hl Hs. cbv zeta.
  destruct (delete_view c (TtlCache.l_key ld) Hc) as (Hdl & (_ & Hdloads & _) & Hdm & Hdt).
  destruct (clear_view c (TtlCache.l_key ld)) as (_ & Hcs & (_ & Hcloads & _) & Hcm & Hct).
  split_and!; try done.
  intros c1 Hc1.
  assert (TtlCache.consistent c1 ∧ TtlCache.capacity_ok c1 ∧
          TtlCache.c_loads c1 = TtlCache.c_loads c ∧
          TtlCache.defaultTtlMs c1 = TtlCache.defaultTtlMs c) as (Hc1c & Hc1cap & Hc1l & Hc1t).
  { destruct Hc1 as [->| [->| ->]].
    - done.
    - split_and!; try done; [by apply delete_consistent|].
      unfold TtlCache.capacity_ok. by rewrite Hdm.
    - split_and!; try done; [eexists; apply clear_store|].
      unfold TtlCache.capacity_ok. by rewrite Hcm. }
  rewrite <- Hc1l in Hl.
  destruct (settle_success c1 p ld v now Hc1c (or_introl Hc1cap) Hl Hs)
    as (c' & Hset & Hlook & Hhd & _ & _ & _ & Hlog).
  cbv zeta in Hlook. rewrite Hc1t in Hlook. by exists c'.
Qed.

Lemma stale_not_fresh (e : CacheEntry.t K V) now :
  CacheEntry.isStale e now = true → CacheEntry.isFresh e now = false.
Proof.
  unfold CacheEntry.isStale, CacheEntry.isFresh.
  intros [H%bool_decide_eq_true _]%andb_true_iff. apply bool_decide_eq_false. lia.
Qed.


Lemma signal_aborted_ext c c' signal :
  TtlCache.c_aborted c' = TtlCache.c_aborted c →
  TtlCache.signal_aborted signal c' = TtlCache.signal_aborted signal c.
Proof. intros H. unfold TtlCache.signal_aborted. by rewrite H. Qed.

Lemma answers_waiter_of o p (finally : option K) calls :
  TtlCache.answers (V:=V) (E:=E) o (TtlCache.waiter_of p finally <$> calls) =
  (λ call, (TtlCache.call_caller call, o)) <$> calls.
Proof.
  unfold TtlCache.answers. induction calls as [|call calls IH]; [done|].
  cbn. f_equal. exact IH.
Qed.

Lemma first_call_starts_load c k call :
  TtlCache.wf c →
  JsMap.get k (TtlCache.c_inflight c) = None →
  (∀ e, TtlCache.lookup k c = Some e →
        CacheEntry.isFresh e (TtlCache.call_now call) = false ∧
        CacheEntry.isStale e (TtlCache.call_now call) = false) →
  TtlCache.dedupe_on (TtlCache.call_options call) = true →
  TtlCache.signal_aborted (TtlCache.call_options call ≫= GetOrSetOptions.signal) c = None →
  let p := length (TtlCache.c_loads c) in
  let c1 := TtlCache.getOrSet_call k c call in
  TtlCache.wf c1 ∧ TtlCache.lookup k c1 = None ∧
  TtlCache.c_loads c1 =
    TtlCache.c_loads c ++
    [TtlCache.mkLoad k (TtlCache.call_loader call) (TtlCache.call_options call)
       TtlCache.Pending] ∧
  JsMap.get k (TtlCache.c_inflight c1) = Some p ∧
  TtlCache.c_waiters c1 = TtlCache.c_waiters c ++ [TtlCache.waiter_of p (Some k) call] ∧
  TtlCache.c_aborted c1 = TtlCache.c_aborted c ∧
  TtlCache.c_results c1 = TtlCache.c_results c.
Proof.
  intros Hwf Hi Hmiss Hd Hsig. cbv zeta.
  pose proof (getOrSet_wf c (TtlCache.call_caller call) k (TtlCache.call_loader call)
                (TtlCache.call_options call) (TtlCache.call_now call) Hwf) as Hwf1.
  unfold TtlCache.getOrSet_call. revert Hwf1.
  rewrite (getOrSet_miss_path _ _ _ _ _ _ Hsig Hmiss).
  set (c0 := match JsMap.get k (TtlCache.c_map c) with
             | Some r => TtlCache.removeEntry r R_expired c
             | None => c
             end).
  assert (TtlCache.runtime_eq c c0 ∧ TtlCache.lookup k c0 = None) as [(Hi0 & Hl0 & Hw0 & Ha0 & Hr0) Hlk0].
  { subst c0. destruct Hwf as [[rs Hinv] _].
    destruct (JsMap.get k (TtlCache.c_map c)) as [r|] eqn:Hget.
    - split; [apply removeEntry_runtime|].
      by destruct (removeEntry_view c rs k r R_expired Hinv Hget) as (_ & ? & _).
    - split; [apply runtime_eq_refl|]. by apply lookup_None. }
  rewrite getOrSet_miss_start;
    [|done|by rewrite Hi0|by rewrite (signal_aborted_ext c c0)].
  intros Hwf1. split_and!; try done.
  - cbn. by rewrite Hl0.
  - cbn. rewrite Hl0. apply get_set_eq.
  - cbn. by rewrite Hw0, Hl0.
Qed.

Lemma next_call_attaches c k p ld call :
  TtlCache.wf c →
  TtlCache.lookup k c = None →
  JsMap.get k (TtlCache.c_inflight c) = Some p →
  TtlCache.c_loads c !! p = Some ld → TtlCache.l_state ld = TtlCache.Pending →
  TtlCache.dedupe_on (TtlCache.call_options call) = true →
  TtlCache.signal_aborted (TtlCache.call_options call ≫= GetOrSetOptions.signal) c = None →
  let c1 := TtlCache.getOrSet_call k c call in
  TtlCache.wf c1 ∧ TtlCache.lookup k c1 = None ∧
  TtlCache.c_loads c1 = TtlCache.c_loads c ∧
  TtlCache.c_inflight c1 = TtlCache.c_inflight c ∧
  TtlCache.c_waiters c1 = TtlCache.c_waiters c ++ [TtlCache.waiter_of p None call] ∧
  TtlCache.c_aborted c1 = TtlCache.c_aborted c ∧
  TtlCache.c_results c1 = TtlCache.c_results c.
Proof.
  intros Hwf Hlk Hi Hl Hs Hd Hsig. cbv zeta.
  pose proof (getOrSet_wf c (TtlCache.call_caller call) k (TtlCache.call_loader call)
                (TtlCache.call_options call) (TtlCache.call_now call) Hwf) as Hwf1.
  unfold TtlCache.getOrSet_call. revert Hwf1.
  rewrite (getOrSet_miss_path _ _ _ _ _ _ Hsig) by (intros e He; congruence).
  apply lookup_None in Hlk. rewrite Hlk.
  rewrite (getOrSet_miss_attach _ _ _ _ _ p ld) by done.
  intros Hwf1. split_and!; try done. by apply lookup_None.
Qed.

Lemma later_calls_attach c k p ld calls :
  TtlCache.wf c →
  TtlCache.lookup k c = None →
  JsMap.get k (TtlCache.c_inflight c) = Some p →
  TtlCache.c_loads c !! p = Some ld → TtlCache.l_state ld = TtlCache.Pending →
  (∀ call, call ∈ calls →
     TtlCache.dedupe_on (TtlCache.call_options call) = true ∧
     TtlCache.signal_aborted (TtlCache.call_options call ≫= GetOrSetOptions.signal) c = None) →
  let c1 := TtlCache.getOrSet_calls k calls c in
  TtlCache.wf c1 ∧
  TtlCache.c_loads c1 = TtlCache.c_loads c ∧
  TtlCache.c_inflight c1 = TtlCache.c_inflight c ∧
  TtlCache.c_waiters c1 = TtlCache.c_waiters c ++ (TtlCache.waiter_of p None <$> calls) ∧
  TtlCache.c_aborted c1 = TtlCache.c_aborted c ∧
  TtlCache.c_results c1 = TtlCache.c_results c.
Proof.
  revert c. induction calls as [|call calls IH]; intros c Hwf Hlk Hi Hl Hs Hcalls.
  - cbn. by rewrite app_nil_r.
  - destruct (Hcalls call ltac:(left)) as [Hd Hsig].
    destruct (next_call_attaches c k p ld call Hwf Hlk Hi Hl Hs Hd Hsig)
      as (Hwf1 & Hlk1 & Hl1 & Hi1 & Hw1 & Ha1 & Hr1).
    cbv zeta. unfold TtlCache.getOrSet_calls. cbn [foldl].
    change (foldl (TtlCache.getOrSet_call k) ?x calls) with (TtlCache.getOrSet_calls k calls x).
    destruct (IH (TtlCache.getOrSet_call k c call)) as (Hwf2 & Hl2 & Hi2 & Hw2 & Ha2 & Hr2);
      try done.
    + by rewrite Hi1.
    + by rewrite Hl1.
    + intros call' Hin. destruct (Hcalls call' ltac:(by right)) as [? ?].
      split; [done|]. by rewrite (signal_aborted_ext c).
    + split_and!; try congruence.
      rewrite Hw2, Hw1, fmap_cons, <- app_assoc. done.
Qed.

(** C1. Calls of [getOrSet] for the same key, with dedupe on, made while no
    load is registered for the key and the key has no fresh or stale entry:
    the first call invokes its loader and registers the promise within its
    own turn, the later calls invoke nothing and wait for that promise, and
    when the loader settles every call gets its result (the value, or the
    error) and the registration is removed. *)
Theorem concurrent_calls_share_one_load c k first rest :
  TtlCache.wf c →
  JsMap.get k (TtlCache.c_inflight c) = None →
  (∀ e, TtlCache.lookup k c = Some e →
        CacheEntry.isFresh e (TtlCache.call_now first) = false ∧
        CacheEntry.isStale e (TtlCache.call_now first) = false) →
  (∀ call, call ∈ first :: rest →
     TtlCache.dedupe_on (TtlCache.call_options call) = true ∧
     TtlCache.signal_aborted (TtlCache.call_options call ≫= GetOrSetOptions.signal) c = None) →
  let p := length (TtlCache.c_loads c) in
  let c1 := TtlCache.getOrSet_call k c first in
  let cN := TtlCache.getOrSet_calls k rest c1 in
  (TtlCache.c_loads c1 =
     TtlCache.c_loads c ++
     [TtlCache.mkLoad k (TtlCache.call_loader first) (TtlCache.call_options first)
        TtlCache.Pending] ∧
   JsMap.get k (TtlCache.c_inflight c1) = Some p) ∧
  (TtlCache.c_loads cN = TtlCache.c_loads c1 ∧
   JsMap.get k (TtlCache.c_inflight cN) = Some p ∧
   TtlCache.c_results cN = TtlCache.c_results c) ∧
  ∀ res now, ∃ c2,
    TtlCache.settle p res now cN = Some c2 ∧
    TtlCache.c_results c2 =
      TtlCache.c_results c ++
      ((λ call, (TtlCache.call_caller call, TtlCache.outcome_of res)) <$> first :: rest) ∧
    JsMap.get k (TtlCache.c_inflight c2) = None.
Proof.
  intros Hwf Hi Hmiss Hcalls. cbv zeta.
  destruct (Hcalls first ltac:(left)) as [Hd Hsig].
  destruct (first_call_starts_load c k first Hwf Hi Hmiss Hd Hsig)
    as (Hwf1 & Hlk1 & Hl1 & Hi1 & Hw1 & Ha1 & Hr1).
  set (c1 := TtlCache.getOrSet_call k c first) in *.
  set (ld := TtlCache.mkLoad k (TtlCache.call_loader first) (TtlCache.call_options first)
               TtlCache.Pending) in *.
  assert (TtlCache.c_loads c1 !! length (TtlCache.c_loads c) = Some ld) as Hld
    by (rewrite Hl1; by apply list_lookup_middle).
  destruct (later_calls_attach c1 k (length (TtlCache.c_loads c)) ld rest Hwf1 Hlk1 Hi1 Hld eq_refl)
    as (HwfN & HlN & HiN & HwN & HaN & HrN).
  { intros call Hin. destruct (Hcalls call ltac:(by right)) as [? ?].
    split; [done|]. by rewrite (signal_aborted_ext c). }
  set (cN := TtlCache.getOrSet_calls k rest c1) in *.
  split_and!; try done.
  - by rewrite HiN.
  - congruence.
  - intros res now. rewrite <- HlN in Hld.
    destruct (settle_results cN _ ld res now HwfN Hld eq_refl)
      as (c2 & Hset & Hres & Hinf & _).
    exists c2. split; [exact Hset|].
    assert (filter (λ w, TtlCache.w_promise w = length (TtlCache.c_loads c))
              (TtlCache.c_waiters cN) =
            TtlCache.waiter_of (length (TtlCache.c_loads c)) (Some k) first ::
              (TtlCache.waiter_of (length (TtlCache.c_loads c)) None <$> rest)) as Hwoken.
    { rewrite HwN, Hw1, !filter_app, (no_waiter_on_next_promise c (proj2 Hwf)).
      rewrite !filter_all; [done| |].
      - intros w (call & -> & _)%list_elem_of_fmap. done.
      - intros w ->%list_elem_of_singleton. done. }
    rewrite Hres, Hinf, Hwoken. split.
    + rewrite HrN, Hr1. f_equal.
      change (TtlCache.waiter_of ?p (Some k) first :: ?l) with ((TtlCache.waiter_of p (Some k) <$> [first]) ++ l).
      unfold TtlCache.answers. rewrite omap_app.
      fold (TtlCache.answers (TtlCache.outcome_of res)
              (TtlCache.waiter_of (length (TtlCache.c_loads c)) (Some k) <$> [first])).
      fold (TtlCache.answers (TtlCache.outcome_of res)
              (TtlCache.waiter_of (length (TtlCache.c_loads c)) (@None K) <$> rest)).
      by rewrite !answers_waiter_of.
    + rewrite decide_True; [done|]. left.
Qed.

Lemma abort_view c sg :
  sg ∉ TtlCache.c_aborted c →
  let c' := TtlCache.abort sg c in
  TtlCache.c_results c' =
    TtlCache.c_results c ++
    TtlCache.answers (TtlCache.Rejected (TtlCache.AbortError sg))
      (filter (λ w, TtlCache.w_signal w = Some sg) (TtlCache.c_waiters c)) ∧
  TtlCache.c_waiters c' =
    filter (λ w, TtlCache.w_signal w ≠ Some sg) (TtlCache.c_waiters c) ∧
  TtlCache.c_aborted c' = sg :: TtlCache.c_aborted c.
Proof.
  intros Hsg. unfold TtlCache.abort. rewrite bool_decide_eq_false_2 by done. cbv zeta.
  rewrite wake_results.
  match goal with |- context [foldl (TtlCache.settle_waiter ?o) ?c0 ?ws] =>
    destruct (wake_frame o ws c0) as (_ & _ & _ & _ & -> & ->) end.
  done.
Qed.

(** C9. A call of [getOrSet] whose signal has fired already rejects with the
    reason of the signal and changes nothing else: no loader is invoked. When
    a signal fires later, the calls waiting with that signal reject, every
    other waiting call keeps waiting, the loads and the store are as they
    were, and when a loader settles afterwards the calls that still wait for
    it get its result. *)
Theorem cancellation_is_per_caller c sg :
  TtlCache.wf c →
  (sg ∈ TtlCache.c_aborted c →
   ∀ caller k loader options now,
     options ≫= GetOrSetOptions.signal = Some sg →
     TtlCache.getOrSet caller k loader options now c =
     TtlCache.with_results
       (λ answered, answered ++ [(caller, TtlCache.Rejected (TtlCache.AbortError sg))])
       c) ∧
  (sg ∉ TtlCache.c_aborted c →
   let c' := TtlCache.abort sg c in
   TtlCache.c_results c' =
     TtlCache.c_results c ++
     TtlCache.answers (TtlCache.Rejected (TtlCache.AbortError sg))
       (filter (λ w, TtlCache.w_signal w = Some sg) (TtlCache.c_waiters c)) ∧
   TtlCache.c_waiters c' =
     filter (λ w, TtlCache.w_signal w ≠ Some sg) (TtlCache.c_waiters c) ∧
   TtlCache.c_loads c' = TtlCache.c_loads c ∧
   TtlCache.store_eq c c' ∧
   TtlCache.stats c' = TtlCache.stats c ∧
   TtlCache.c_log c' = TtlCache.c_log c ∧
   ∀ p ld res now,
     TtlCache.c_loads c !! p = Some ld → TtlCache.l_state ld = TtlCache.Pending →
     ∃ c'', TtlCache.settle p res now c' = Some c'' ∧
       TtlCache.c_results c'' =
         TtlCache.c_results c' ++
         TtlCache.answers (TtlCache.outcome_of res)
           (filter (λ w, TtlCache.w_promise w = p ∧ TtlCache.w_signal w ≠ Some sg)
                   (TtlCache.c_waiters c))).
Proof.
  intros Hwf. split.
  - intros Hin caller k loader options now Hsig. unfold TtlCache.getOrSet.
    unfold TtlCache.signal_aborted. rewrite Hsig. cbn.
    by rewrite bool_decide_eq_true_2.
  - intros Hnin. cbv zeta.
    destruct (abort_view c sg Hnin) as (Hres & Hw & _).
    destruct (abort_frame c sg) as (Hs & Hst & Hlog & Hl).
    split_and!; try done.
    intros p ld res now Hld Hpend. rewrite <- Hl in Hld.
    destruct (settle_results (TtlCache.abort sg c) p ld res now (abort_wf c sg Hwf) Hld Hpend)
      as (c'' & Hset & Hres'' & _).
    exists c''. split; [exact Hset|]. rewrite Hres'', Hw. by rewrite list_filter_filter.
Qed.

End Claims.
End Claims.

Module Examples.
Import JsMapFacts DllFacts TtlCacheFacts SyncFacts AsyncFacts Views AsyncViews Claims.
Import Scenarios.

Lemma reach_wf (evs : list (TtlCache.Event * Z)) (c : Cache) :
  TtlCache.wf c → TtlCache.wf (TtlCache.reach evs c).
Proof.
  intros Hwf. unfold TtlCache.reach.
  destruct (run_wf c evs Hwf) as (c' & -> & Hwf'). exact Hwf'.
Qed.

Lemma two_entries_wf : TtlCache.wf two_entries.
Proof. apply reach_wf, new_wf. Qed.

Lemma loaded_with_swr_wf : TtlCache.wf loaded_with_swr.
Proof. apply reach_wf, new_wf. Qed.

Lemma load_pending_wf : TtlCache.wf load_pending.
Proof. apply reach_wf, new_wf. Qed.

Example two_entries_keys : TtlCache.lru_keys two_entries = [2%nat; 1%nat].
Proof. vm_compute. reflexivity. Qed.

Example loaded_with_swr_entry :
  CacheEntry.payload <$> TtlCache.lookup 7%nat loaded_with_swr = Some (7%nat, 55%nat, 1000, 1200).
Proof. vm_compute. reflexivity. Qed.


(** C8, failing input. After the second [next()] the map still holds key 2
    but the eviction list is empty: the entry of key 2 cannot be reached
    from the list, and the removal of key 1 was reported twice. *)
Theorem iteration_breaks_correspondence :
  TtlCache.consistent iteration_start ∧
  iteration_first_next.1.1 = Some (2%nat, 20%nat) ∧
  iteration_first_next.2 = iteration_start ∧
  TtlCache.consistent iteration_deleted ∧
  TtlCache.lru_keys iteration_deleted = [2%nat] ∧
  iteration_second_next.1 = (None, TtlCache.GenDone) ∧
  JsMap.keys (TtlCache.c_map iteration_end) = [2%nat] ∧
  TtlCache.c_list iteration_end = DoublyLinkedList.mk None None ∧
  TtlCache.c_log iteration_end =
    TtlCache.c_log iteration_start ++
    [TtlCache.OnEvict 1%nat 10%nat R_manual; TtlCache.Emit Ev_evict 1%nat (Some 10%nat);
     TtlCache.OnEvict 1%nat 10%nat R_expired; TtlCache.Emit Ev_evict 1%nat (Some 10%nat)] ∧
  ¬ TtlCache.consistent iteration_end.
Proof.
  assert (TtlCache.wf iteration_start) as Hwf by apply reach_wf, new_wf.
  split_and!.
  - exact (proj1 Hwf).
  - vm_compute. reflexivity.
  - reflexivity.
  - apply delete_consistent. exact (proj1 Hwf).
  - vm_compute. reflexivity.
  - vm_compute. reflexivity.
  - vm_compute. reflexivity.
  - vm_compute. reflexivity.
  - vm_compute. reflexivity.
  - intros [rs (Hrepr & _ & Hiff & _)].
    assert (rs = []) as ->.
    { destruct Hrepr as (_ & Hhd & _). destruct rs; [done|]. vm_compute in Hhd. discriminate Hhd. }
    assert (JsMap.get 2%nat (TtlCache.c_map iteration_end) = Some 1%nat) as Hget
      by (vm_compute; reflexivity).
    apply Hiff in Hget as [Hin _]. by apply elem_of_nil in Hin.
Qed.

(** C3, failing input. When the caller that started the load is cancelled,
    the load is still pending but its registration is gone, and the next
    call for the key invokes the loader a second time while the first load
    is running. *)
Theorem cancelled_owner_unregisters_pending_load :
  JsMap.get 7%nat (TtlCache.c_inflight owner_waiting) = Some 0%nat ∧
  TtlCache.l_state <$> TtlCache.c_loads owner_cancelled = [TtlCache.Pending] ∧
  JsMap.get 7%nat (TtlCache.c_inflight owner_cancelled) = None ∧
  TtlCache.c_results owner_cancelled = [(1%nat, TtlCache.Rejected (TtlCache.AbortError 9))] ∧
  TtlCache.l_state <$> TtlCache.c_loads second_call = [TtlCache.Pending; TtlCache.Pending] ∧
  TtlCache.l_loader <$> TtlCache.c_loads second_call = [0%nat; 1%nat] ∧
  JsMap.get 7%nat (TtlCache.c_inflight second_call) = Some 1%nat.
Proof. vm_compute. by split_and!. Qed.

(** *** The theorems at concrete inputs *)



Lemma lru_eviction_order_witness :
  TtlCache.consistent two_entries ∧
  ∃ c', TtlCache.set 3%nat 30%nat None 0 two_entries = Some c' ∧
    TtlCache.lru_entries c' = [(3%nat, 30%nat); (2%nat, 20%nat)] ∧
    TtlCache.c_log c' =
      TtlCache.c_log two_entries ++
      [TtlCache.OnEvict 1%nat 10%nat R_evicted; TtlCache.Emit Ev_evict 1%nat (Some 10%nat);
       TtlCache.Emit Ev_set 3%nat (Some 30%nat)].
Proof.
  pose proof (lru_eviction_order two_entries 3%nat 30%nat 0 (proj1 two_entries_wf)) as H.
  split; [exact (proj1 two_entries_wf)|].
  destruct H as (H & _). destruct (H eq_refl) as (Hset & _).
  destruct (Hset None) as (c' & Hc' & Hentries & Hlog & _).
  exists c'. split; [exact Hc'|]. split; [exact Hentries|exact Hlog].
Defined.

Lemma write_timestamps_witness :
  TtlCache.consistent two_entries ∧ TtlCache.capacity_ok two_entries ∧
  ∃ c' e, TtlCache.set 3%nat 30%nat (Some (SetOptions.mk (Some 500))) 7 two_entries = Some c' ∧
    TtlCache.lookup 3%nat c' = Some e ∧
    CacheEntry.expiresAt e = 507 ∧ CacheEntry.staleUntil e = CacheEntry.expiresAt e.
Proof.
  assert (TtlCache.capacity_ok two_entries) as Hcap by (vm_compute; discriminate).
  pose proof (write_timestamps two_entries 3%nat 30%nat 7 (proj1 two_entries_wf) Hcap) as H.
  split; [exact (proj1 two_entries_wf)|]. split; [exact Hcap|].
  destruct H as (H & _).
  destruct (H (Some (SetOptions.mk (Some 500)))) as (c' & e & Hset & Hl & _ & Hex & Hsu).
  exists c', e. split_and!; [exact Hset|exact Hl|exact Hex|exact Hsu].
Defined.

Lemma load_completion_writes_witness :
  TtlCache.wf load_pending ∧ TtlCache.capacity_ok load_pending ∧
  TtlCache.c_loads load_pending !! 0%nat = Some pending_load_7 ∧
  TtlCache.l_state pending_load_7 = TtlCache.Pending ∧
  ∃ c', TtlCache.settle 0 (inl 55%nat) 10 (TtlCache.clear load_pending) = Some c' ∧
    CacheEntry.payload <$> TtlCache.lookup 7%nat c' = Some (7%nat, 55%nat, 30010, 30010).
Proof.
  assert (TtlCache.capacity_ok load_pending) as Hcap by (vm_compute; exact I).
  assert (TtlCache.c_loads load_pending !! 0%nat = Some pending_load_7) as Hl by reflexivity.
  pose proof (load_completion_writes load_pending 0 pending_load_7 55%nat 10
                load_pending_wf Hcap Hl eq_refl) as H.
  split_and!; [exact load_pending_wf|exact Hcap|exact Hl|reflexivity|].
  destruct H as (_ & _ & H).
  destruct (H (TtlCache.clear load_pending) (or_intror (or_intror eq_refl)))
    as (c' & Hset & Hlook & _).
  exists c'. split; [exact Hset|exact Hlook].
Defined.


Lemma concurrent_calls_share_one_load_witness :
  let c : Cache := TtlCache.new None in
  let first := TtlCache.mkCall 1 0 None 0 in
  TtlCache.wf c ∧
  JsMap.get 7%nat (TtlCache.c_inflight c) = None ∧
  (∀ e, TtlCache.lookup 7%nat c = Some e →
        CacheEntry.isFresh e (TtlCache.call_now first) = false ∧
        CacheEntry.isStale e (TtlCache.call_now first) = false) ∧
  (∀ call, call ∈ first :: three_calls →
     TtlCache.dedupe_on (TtlCache.call_options call) = true ∧
     TtlCache.signal_aborted (TtlCache.call_options call ≫= GetOrSetOptions.signal) c = None) ∧
  length (TtlCache.c_loads
            (TtlCache.getOrSet_calls 7%nat three_calls (TtlCache.getOrSet_call 7%nat c first)))
    = 1%nat ∧
  ∃ c2, TtlCache.settle 0 (inl 55%nat) 5
          (TtlCache.getOrSet_calls 7%nat three_calls (TtlCache.getOrSet_call 7%nat c first))
        = Some c2 ∧
    TtlCache.c_results c2 =
      [(1%nat, TtlCache.Resolved 55%nat); (2%nat, TtlCache.Resolved 55%nat);
       (3%nat, TtlCache.Resolved 55%nat)].
Proof.
  intros c first.
  assert (TtlCache.wf c) as Hwf by apply new_wf.
  assert (∀ e, TtlCache.lookup 7%nat c = Some e →
        CacheEntry.isFresh e (TtlCache.call_now first) = false ∧
        CacheEntry.isStale e (TtlCache.call_now first) = false) as Hmiss
    by (intros e He; discriminate He).
  assert (∀ call, call ∈ first :: three_calls →
     TtlCache.dedupe_on (TtlCache.call_options call) = true ∧
     TtlCache.signal_aborted (TtlCache.call_options call ≫= GetOrSetOptions.signal) c = None)
    as Hcalls.
  { intros call Hin. unfold three_calls in Hin.
    repeat (apply elem_of_cons in Hin as [->|Hin]; [by split|]).
    by apply elem_of_nil in Hin. }
  pose proof (concurrent_calls_share_one_load c 7%nat first three_calls Hwf eq_refl Hmiss Hcalls)
    as H.
  split_and!; [exact Hwf|reflexivity|exact Hmiss|exact Hcalls| |].
  - destruct H as ((Hl1 & _) & (HlN & _) & _). rewrite HlN, Hl1. reflexivity.
  - destruct H as (_ & _ & H). destruct (H (inl 55%nat) 5) as (c2 & Hset & Hres & _).
    exists c2. split; [exact Hset|exact Hres].
Defined.

Lemma cancellation_is_per_caller_witness :
  TtlCache.wf two_waiting ∧
  TtlCache.c_results (TtlCache.abort 9 two_waiting) =
    [(1%nat, TtlCache.Rejected (TtlCache.AbortError 9))] ∧
  ∃ c'', TtlCache.settle 0 (inl 55%nat) 5 (TtlCache.abort 9 two_waiting) = Some c'' ∧
    TtlCache.c_results c'' =
      [(1%nat, TtlCache.Rejected (TtlCache.AbortError 9)); (2%nat, TtlCache.Resolved 55%nat)].
Proof.
  assert (TtlCache.wf two_waiting) as Hwf by apply reach_wf, new_wf.
  pose proof (cancellation_is_per_caller two_waiting 9 Hwf) as (_ & H).
  split; [exact Hwf|].
  assert (9%nat ∉ TtlCache.c_aborted two_waiting) as Hnin by (vm_compute; apply not_elem_of_nil).
  destruct (H Hnin) as (Hres & _ & _ & _ & _ & _ & Hsettle).
  split; [exact Hres|].
  destruct (Hsettle 0%nat (TtlCache.mkLoad 7%nat 0 abort_options TtlCache.Pending)
              (inl 55%nat) 5 eq_refl eq_refl) as (c'' & Hset & Hres'').
  exists c''. split; [exact Hset|]. rewrite Hres'', Hres. reflexivity.
Defined.

End Examples.

(** * Properties of the eviction list *)

Module ListProperties.
Import JsMapFacts DllFacts TtlCacheFacts.
Section ListProperties.
Context {K V : Type}.
Local Abbreviation heap := (ref → CacheEntry.t K V).
Implicit Types (h : heap) (l : DoublyLinkedList.t) (r : ref) (rs xs ys : list ref).

Local Arguments DoublyLinkedList.seg : simpl never.
Local Arguments DoublyLinkedList.remove : simpl never.
Local Arguments DoublyLinkedList.addToFront : simpl never.
Local Arguments DoublyLinkedList.moveToFront : simpl never.
Local Arguments DoublyLinkedList.removeTail : simpl never.

Lemma remove_clears_links r h l :
  CacheEntry.prev ((DoublyLinkedList.remove r (h, l)).1 r) = None ∧
  CacheEntry.next ((DoublyLinkedList.remove r (h, l)).1 r) = None.
Proof.
  unfold DoublyLinkedList.remove.
  destruct (CacheEntry.prev (h r)) as [p|];
    [destruct (CacheEntry.next (alter _ p h r)) as [n|]
    |destruct (CacheEntry.next (h r)) as [n|]];
    cbn; by heap_simpl.
Qed.

(** X1. [addToFront] of an entry that is not in the list makes it the most
    recent one: the list holds the entry followed by the former entries, a
    walk from [head] along [next] visits them in this order, and no entry
    changes its key, value or timestamps. *)
Theorem addToFront_pushes h l rs r :
  DoublyLinkedList.repr h l rs → r ∉ rs →
  let hl' := DoublyLinkedList.addToFront r (h, l) in
  DoublyLinkedList.repr hl'.1 hl'.2 (r :: rs) ∧
  DoublyLinkedList.head hl'.2 = Some r ∧
  DoublyLinkedList.walk (S (length rs)) hl'.1 (DoublyLinkedList.head hl'.2) = Some (r :: rs) ∧
  (∀ x, CacheEntry.payload (hl'.1 x) = CacheEntry.payload (h x)).
Proof.
  intros Hrepr Hnin. cbv zeta.
  pose proof (repr_addToFront h l rs r Hnin Hrepr) as Hrepr'.
  split_and!.
  - exact Hrepr'.
  - by destruct Hrepr' as (_ & -> & _).
  - by apply walk_repr.
  - intros x. apply payload_addToFront.
Qed.

(** X2. [remove] of an entry of the list takes it out and keeps the others
    in their order; the removed entry is left with no links, and no entry
    changes its key, value or timestamps. *)
Theorem remove_unlinks h l rs r :
  DoublyLinkedList.repr h l rs → r ∈ rs →
  let hl' := DoublyLinkedList.remove r (h, l) in
  DoublyLinkedList.repr hl'.1 hl'.2 (filter (λ x, x ≠ r) rs) ∧
  CacheEntry.prev (hl'.1 r) = None ∧ CacheEntry.next (hl'.1 r) = None ∧
  (∀ x, CacheEntry.payload (hl'.1 x) = CacheEntry.payload (h x)).
Proof.
  intros Hrepr (xs & ys & ->)%list_elem_of_split. cbv zeta.
  rewrite filter_ne_split by apply Hrepr.
  split_and!.
  - by apply repr_remove.
  - apply remove_clears_links.
  - apply remove_clears_links.
  - intros x. apply payload_remove.
Qed.

(** X3. [moveToFront] of an entry of the list makes it the most recent one
    and keeps the others in their order; on the entry that is the head
    already it changes nothing at all. *)
Theorem moveToFront_promotes h l rs r :
  DoublyLinkedList.repr h l rs → r ∈ rs →
  let hl' := DoublyLinkedList.moveToFront r (h, l) in
  DoublyLinkedList.repr hl'.1 hl'.2 (r :: filter (λ x, x ≠ r) rs) ∧
  (hd_error rs = Some r → hl' = (h, l)) ∧
  (∀ x, CacheEntry.payload (hl'.1 x) = CacheEntry.payload (h x)).
Proof.
  intros Hrepr (xs & ys & ->)%list_elem_of_split. cbv zeta.
  rewrite filter_ne_split by apply Hrepr.
  split_and!.
  - by apply repr_moveToFront.
  - intros Hhd. unfold DoublyLinkedList.moveToFront. cbn [snd].
    destruct Hrepr as (_ & Hh & _). rewrite decide_True; [done|congruence].
  - intros x. apply payload_moveToFront.
Qed.

(** X4. [removeTail] returns the least recent entry and takes it out of the
    list; on the empty list it returns nothing and changes nothing. *)
Theorem removeTail_pops_least_recent h l rs :
  DoublyLinkedList.repr h l rs →
  let res := DoublyLinkedList.removeTail (h, l) in
  res.1 = last rs ∧
  DoublyLinkedList.repr res.2.1 res.2.2 (take (length rs - 1) rs) ∧
  (rs = [] → res.2 = (h, l)).
Proof.
  intros Hrepr. cbv zeta.
  destruct rs as [|r xs _] using rev_ind.
  - rewrite (removeTail_nil h l Hrepr). by split_and!.
  - destruct (removeTail_snoc h l xs r Hrepr) as [-> Hrepr'].
    cbn [fst snd]. rewrite last_snoc, length_app. cbn [length].
    replace (length xs + 1 - 1)%nat with (length xs) by lia.
    rewrite take_app_length. split_and!; [done|done|].
    intros Heq. by destruct xs.
Qed.

End ListProperties.
End ListProperties.

(** * Properties of the event emitter *)

Module EmitterProperties.
Import JsMapFacts TtlCacheFacts SyncFacts.
Section EmitterProperties.
Context {K V : Type}.
Implicit Types (em : CacheEventEmitter.t) (ev : CacheEvent) (h : nat) (k : K)
  (v : option V).

Lemma keys_set_existing {A B} `{!EqDecision A} (a : A) (b : B) (m : JsMap.t A B) :
  is_Some (JsMap.get a m) → JsMap.keys (JsMap.set a b m) = JsMap.keys m.
Proof.
  intros Hs. unfold JsMap.set. rewrite (proj2 (has_true a m) Hs).
  unfold JsMap.keys, JsMap.entries. clear Hs.
  induction m as [|[[a' b']|] m IH]; [done| |done].
  cbn. case_decide; subst; cbn; by f_equal.
Qed.

Lemma keys_delete {A B} `{!EqDecision A} (a : A) (m : JsMap.t A B) :
  JsMap.keys (JsMap.delete a m) = filter (λ x, x ≠ a) (JsMap.keys m).
Proof.
  unfold JsMap.keys. rewrite entries_delete.
  induction (JsMap.entries m) as [|[a' b'] kvs IH]; [done|].
  rewrite filter_cons. cbn [fst]. rewrite fmap_cons, filter_cons. cbn [fst].
  case_decide; [rewrite fmap_cons|]; by rewrite IH.
Qed.

Lemma keys_singleton {A B} `{!EqDecision A} (a : A) (b : B) :
  JsMap.keys (JsMap.set a b (JsMap.empty (K:=A) (A:=B))) = [a].
Proof. done. Qed.

Lemma emit_handlers ev k v em :
  CacheEventEmitter.emit ev k v em =
  (λ h, (h, k, v)) <$> CacheEventEmitter.handlers ev em.
Proof.
  unfold CacheEventEmitter.emit, CacheEventEmitter.handlers.
  by destruct (JsMap.get ev em).
Qed.

Lemma handlers_on ev h em :
  CacheEventEmitter.handlers ev (CacheEventEmitter.on ev h em) =
  if decide (h ∈ CacheEventEmitter.handlers ev em)
  then CacheEventEmitter.handlers ev em
  else CacheEventEmitter.handlers ev em ++ [h].
Proof.
  unfold CacheEventEmitter.handlers, CacheEventEmitter.on.
  destruct (JsMap.get ev em) as [set|] eqn:Hget; rewrite get_set_eq; cbn.
  - destruct (JsMap.get h set) as [u|] eqn:Hh.
    + rewrite decide_True; [by apply keys_set_existing|].
      destruct (decide (h ∈ JsMap.keys set)) as [|Hn]; [done|].
      apply get_None_keys in Hn. congruence.
    + rewrite decide_False by (by apply get_None_keys).
      by apply keys_set_new.
  - rewrite decide_False by apply not_elem_of_nil. done.
Qed.

Lemma handlers_on_other ev ev' h em :
  ev' ≠ ev →
  CacheEventEmitter.handlers ev' (CacheEventEmitter.on ev h em) =
  CacheEventEmitter.handlers ev' em.
Proof.
  intros Hne. unfold CacheEventEmitter.handlers, CacheEventEmitter.on.
  destruct (JsMap.get ev em); by rewrite get_set_ne.
Qed.

Lemma handlers_off ev h em :
  CacheEventEmitter.handlers ev (CacheEventEmitter.off ev h em) =
  filter (λ x, x ≠ h) (CacheEventEmitter.handlers ev em).
Proof.
  unfold CacheEventEmitter.handlers, CacheEventEmitter.off.
  destruct (JsMap.get ev em) as [set|] eqn:Hget.
  - rewrite get_set_eq. cbn. apply keys_delete.
  - by rewrite Hget.
Qed.

Lemma handlers_off_other ev ev' h em :
  ev' ≠ ev →
  CacheEventEmitter.handlers ev' (CacheEventEmitter.off ev h em) =
  CacheEventEmitter.handlers ev' em.
Proof.
  intros Hne. unfold CacheEventEmitter.handlers, CacheEventEmitter.off.
  destruct (JsMap.get ev em); [by rewrite get_set_ne|done].
Qed.

Lemma handlers_clear ev em :
  CacheEventEmitter.handlers ev (CacheEventEmitter.clear em) = [].
Proof.
  unfold CacheEventEmitter.handlers, CacheEventEmitter.clear. by rewrite get_clear.
Qed.

Lemma handlers_apply_NoDup em op :
  (∀ ev, NoDup (CacheEventEmitter.handlers ev em)) →
  ∀ ev, NoDup (CacheEventEmitter.handlers ev (CacheEventEmitter.apply em op)).
Proof.
  intros Hnd ev. destruct op as [ev' h|ev' h|]; cbn [CacheEventEmitter.apply].
  - destruct (decide (ev = ev')) as [->|Hne].
    + rewrite handlers_on. case_decide; [done|].
      apply NoDup_app. split_and!; [done| |apply NoDup_singleton].
      intros x Hx ->%list_elem_of_singleton. done.
    + by rewrite handlers_on_other.
  - destruct (decide (ev = ev')) as [->|Hne].
    + rewrite handlers_off. by apply NoDup_filter.
    + by rewrite handlers_off_other.
  - rewrite handlers_clear. apply NoDup_nil_2.
Qed.

Lemma handlers_after_NoDup ops ev :
  NoDup (CacheEventEmitter.handlers ev (CacheEventEmitter.after ops)).
Proof.
  unfold CacheEventEmitter.after. revert ev.
  induction ops as [|op ops IH] using rev_ind; intros ev.
  - apply NoDup_nil_2.
  - rewrite foldl_snoc. by apply handlers_apply_NoDup.
Qed.

(** X5. [on] registers a handler once: [emit] for the event calls the
    handlers that were registered before, in their order, and then the new
    handler; registering a handler that is registered already changes
    nothing that [emit] does, and the other events are as they were. *)
Theorem on_registers_once ev h em k v :
  CacheEventEmitter.emit ev k v (CacheEventEmitter.on ev h em) =
    (if decide (h ∈ CacheEventEmitter.handlers ev em)
     then CacheEventEmitter.emit ev k v em
     else CacheEventEmitter.emit ev k v em ++ [(h, k, v)]) ∧
  (∀ ev', CacheEventEmitter.emit ev' k v
            (CacheEventEmitter.on ev h (CacheEventEmitter.on ev h em)) =
          CacheEventEmitter.emit ev' k v (CacheEventEmitter.on ev h em)) ∧
  (∀ ev', ev' ≠ ev →
     CacheEventEmitter.emit ev' k v (CacheEventEmitter.on ev h em) =
     CacheEventEmitter.emit ev' k v em).
Proof.
  split_and!.
  - rewrite !emit_handlers, handlers_on. case_decide; [done|].
    by rewrite fmap_app.
  - intros ev'. rewrite !emit_handlers. f_equal.
    destruct (decide (ev' = ev)) as [->|Hne].
    + rewrite (handlers_on ev h (CacheEventEmitter.on ev h em)).
      rewrite decide_True; [done|]. rewrite handlers_on.
      case_decide; [done|]. apply elem_of_app. right. left.
    + by rewrite !handlers_on_other.
  - intros ev' Hne. by rewrite !emit_handlers, handlers_on_other.
Qed.

(** X6. [off] takes the handler out of the calls that [emit] makes for the
    event and keeps the others in their order; for a handler that is not
    registered, and for the other events, [emit] does what it did. A handler
    registered again after [off] is called last. *)
Theorem off_unregisters ev h em k v :
  CacheEventEmitter.emit ev k v (CacheEventEmitter.off ev h em) =
    filter (λ call, call.1.1 ≠ h) (CacheEventEmitter.emit ev k v em) ∧
  (h ∉ CacheEventEmitter.handlers ev em →
     CacheEventEmitter.emit ev k v (CacheEventEmitter.off ev h em) =
     CacheEventEmitter.emit ev k v em) ∧
  (∀ ev', ev' ≠ ev →
     CacheEventEmitter.emit ev' k v (CacheEventEmitter.off ev h em) =
     CacheEventEmitter.emit ev' k v em) ∧
  CacheEventEmitter.emit ev k v
    (CacheEventEmitter.on ev h (CacheEventEmitter.off ev h em)) =
    filter (λ call, call.1.1 ≠ h) (CacheEventEmitter.emit ev k v em) ++ [(h, k, v)].
Proof.
  assert (∀ l : list nat,
            (λ x, (x, k, v)) <$> filter (λ x, x ≠ h) l =
            filter (λ call : nat * K * option V, call.1.1 ≠ h) ((λ x, (x, k, v)) <$> l))
    as Hcomm.
  { induction l as [|x l IH]; [done|].
    rewrite fmap_cons, !filter_cons. cbn [fst].
    case_decide; [rewrite fmap_cons|]; by rewrite IH. }
  split_and!.
  - by rewrite !emit_handlers, handlers_off.
  - intros Hnin. rewrite !emit_handlers, handlers_off. f_equal.
    apply filter_all. intros x Hx ->. done.
  - intros ev' Hne. by rewrite !emit_handlers, handlers_off_other.
  - rewrite !emit_handlers, handlers_on, handlers_off.
    rewrite decide_False.
    + by rewrite fmap_app, Hcomm.
    + intros [Hh _]%list_elem_of_filter. done.
Qed.

(** X7. Whatever calls of [on], [off] and [clear] an emitter has gone
    through, [emit] calls no handler twice; and after [clear] it calls no
    handler at all, for any event. *)
Theorem emit_calls_each_handler_once (ops : list CacheEventEmitter.Op) ev k v :
  NoDup (CacheEventEmitter.emit ev k v (CacheEventEmitter.after ops)).*1.*1 ∧
  CacheEventEmitter.emit ev k v
    (CacheEventEmitter.clear (CacheEventEmitter.after ops)) = [].
Proof.
  split.
  - rewrite emit_handlers, <- !list_fmap_compose.
    replace ((fst ∘ fst ∘ (λ h : nat, (h, k, v))) <$>
               CacheEventEmitter.handlers ev (CacheEventEmitter.after ops))
      with (CacheEventEmitter.handlers ev (CacheEventEmitter.after ops)).
    + apply handlers_after_NoDup.
    + induction (CacheEventEmitter.handlers ev (CacheEventEmitter.after ops)) as [|x l IH];
        [done|]. rewrite fmap_cons. cbn. by f_equal.
  - by rewrite emit_handlers, handlers_clear.
Qed.

End EmitterProperties.
End EmitterProperties.

(** * Properties of the synchronous operations *)

Module CacheProperties.
Import JsMapFacts DllFacts TtlCacheFacts SyncFacts AsyncFacts Views AsyncViews.
Section CacheProperties.
Context {K V E : Type} `{!EqDecision K}.
Local Abbreviation t := (TtlCache.t K V E).
Implicit Types (c : t) (k : K) (v : V) (r : ref) (rs xs ys : list ref).

Lemma absent_not_listed c k :
  TtlCache.consistent c → TtlCache.lookup k c = None → k ∉ TtlCache.lru_keys c.
Proof.
  intros [rs Hinv] Hnone%lookup_None.
  rewrite (lru_keys_inv c rs Hinv). intros (r & Hk & Hin)%list_elem_of_fmap.
  destruct Hinv as (_ & _ & Hiff & _).
  assert (JsMap.get k (TtlCache.c_map c) = Some r) as Hget by (by apply Hiff).
  congruence.
Qed.

Lemma set_only_fresh_or_expired (e : CacheEntry.t K V) now :
  CacheEntry.staleUntil e = CacheEntry.expiresAt e →
  CacheEntry.isFresh e now = bool_decide (now < CacheEntry.expiresAt e) ∧
  CacheEntry.isExpired e now = negb (bool_decide (now < CacheEntry.expiresAt e)).
Proof.
  intros Heq. unfold CacheEntry.isFresh, CacheEntry.isExpired. rewrite Heq.
  split; [done|]. repeat case_bool_decide; done || lia.
Qed.

(** X8. [has] answers whether the key has an entry that is not expired,
    fresh or stale, and then changes nothing: no promotion, no counter, no
    event. For a stale entry it answers [true] although [get] returns
    nothing. An expired entry is removed with reason [expired] and the
    answer is [false], as it is for an absent key. *)
Theorem has_reports_unexpired c k now :
  TtlCache.consistent c →
  match TtlCache.lookup k c with
  | None => TtlCache.has k now c = (false, c)
  | Some e =>
      let c' := (TtlCache.has k now c).2 in
      if CacheEntry.isExpired e now then
        (TtlCache.has k now c).1 = false ∧
        TtlCache.lookup k c' = None ∧
        TtlCache.lru_keys c' = filter (λ k', k' ≠ k) (TtlCache.lru_keys c) ∧
        TtlCache.stats c' = TtlCache.eviction_incr (TtlCache.stats c) ∧
        TtlCache.c_log c' =
          TtlCache.c_log c ++
          [TtlCache.OnEvict k (CacheEntry.value e) R_expired;
           TtlCache.Emit Ev_evict k (Some (CacheEntry.value e))]
      else
        TtlCache.has k now c = (true, c) ∧
        (CacheEntry.isStale e now = true → (TtlCache.get k now c).1 = None)
  end.
Proof.
  intros [rs Hinv]. unfold TtlCache.lookup, TtlCache.has.
  destruct (JsMap.get k (TtlCache.c_map c)) as [r|] eqn:Hget; [|done].
  cbn [fmap option_fmap option_map].
  destruct (CacheEntry.isExpired (TtlCache.c_heap c r) now) eqn:Hexp.
  - destruct (removeEntry_view c rs k r R_expired Hinv Hget) as (_ & Hl & Hkeys & Hlog).
    cbn [fst snd]. by split_and!.
  - split; [done|]. intros Hstale. unfold TtlCache.get. rewrite Hget.
    assert (CacheEntry.isFresh (TtlCache.c_heap c r) now = false) as ->.
    { unfold CacheEntry.isStale in Hstale. unfold CacheEntry.isFresh.
      apply andb_true_iff in Hstale as [H1%bool_decide_eq_true _].
      apply bool_decide_eq_false. lia. }
    by rewrite Hexp.
Qed.

(** X9. [delete] returns whether the key had an entry, whatever its age. The
    entry is gone afterwards and the other entries keep their order; the
    removal is reported with reason [manual] and does not count as an
    eviction. Deleting again, or deleting an absent key, returns [false] and
    changes nothing; the loads in flight are not touched. *)
Theorem delete_removes c k :
  TtlCache.consistent c →
  let c' := (TtlCache.delete k c).2 in
  (TtlCache.delete k c).1 = bool_decide (is_Some (TtlCache.lookup k c)) ∧
  TtlCache.lookup k c' = None ∧
  TtlCache.lru_keys c' = filter (λ k', k' ≠ k) (TtlCache.lru_keys c) ∧
  TtlCache.stats c' = TtlCache.stats c ∧
  TtlCache.c_log c' =
    TtlCache.c_log c ++
    from_option (λ e, [TtlCache.OnEvict k (CacheEntry.value e) R_manual;
                       TtlCache.Emit Ev_evict k (Some (CacheEntry.value e))])
                [] (TtlCache.lookup k c) ∧
  TtlCache.delete k c' = (false, c') ∧
  TtlCache.runtime_eq c c'.
Proof.
  intros Hc. pose proof Hc as [rs Hinv]. cbv zeta.
  destruct (TtlCache.lookup k c) as [e|] eqn:Hl.
  - apply lookup_Some in Hl as (r & Hget & ->).
    destruct (removeEntry_view c rs k r R_manual Hinv Hget) as (_ & Hl' & Hkeys & Hlog).
    assert (TtlCache.delete k c = (true, TtlCache.removeEntry r R_manual c)) as ->
      by (unfold TtlCache.delete; by rewrite Hget).
    cbn [fst snd]. split_and!; try done.
    unfold TtlCache.delete. apply lookup_None in Hl'. by rewrite Hl'.
  - pose proof (absent_not_listed c k Hc Hl) as Hnin.
    apply lookup_None in Hl as Hget.
    assert (TtlCache.delete k c = (false, c)) as ->
      by (unfold TtlCache.delete; by rewrite Hget).
    cbn [fst snd]. split_and!; try done.
    + symmetry. apply filter_all. intros x Hx ->. done.
    + cbn. by rewrite app_nil_r.
    + unfold TtlCache.delete. by rewrite Hget.
Qed.

(** X10. [clear] leaves an empty cache, whatever state it starts from: no
    key has an entry, the size is zero and the map and the eviction list
    agree. Every entry is reported once with reason [clear], in insertion
    order; the counters, the loads in flight and the waiting calls are as
    they were. *)
Theorem clear_empties c :
  let c' := TtlCache.clear c in
  TtlCache.consistent c' ∧
  TtlCache.size c' = 0%nat ∧
  TtlCache.lru_keys c' = [] ∧
  (∀ k, TtlCache.lookup k c' = None) ∧
  TtlCache.stats c' = TtlCache.stats c ∧
  TtlCache.c_log c' =
    TtlCache.c_log c ++
    TtlCache.evict_obs R_clear
      (TtlCache.entry_kv (TtlCache.c_heap c) <$> JsMap.values (TtlCache.c_map c)) ∧
  TtlCache.runtime_eq c c'.
Proof.
  cbv zeta. pose proof (clear_store c) as Hinv.
  destruct (clear_announce_frame c (JsMap.values (TtlCache.c_map c)))
    as (_ & _ & Hlog & Hstats).
  split_and!.
  - by exists [].
  - by apply (size_inv _ []).
  - by rewrite (lru_keys_inv _ [] Hinv).
  - intros k. apply lookup_None. unfold TtlCache.clear. cbn. apply get_clear.
  - exact Hstats.
  - exact Hlog.
  - apply clear_runtime.
Qed.

Lemma fmap_filter_comm {A B} (f : A → B) (P : A → Prop) (Q : B → Prop)
    `{!∀ x, Decision (P x), !∀ y, Decision (Q y)} (l : list A) :
  (∀ x, x ∈ l → (P x ↔ Q (f x))) →
  f <$> filter P l = filter Q (f <$> l).
Proof.
  induction l as [|x l IH]; intros Hl; [done|].
  rewrite fmap_cons, !filter_cons.
  assert (P x ↔ Q (f x)) as Hx by (apply Hl; left).
  assert (f <$> filter P l = filter Q (f <$> l)) as IH'
    by (apply IH; intros y Hy; apply Hl; by right).
  destruct (decide (P x)), (decide (Q (f x))); try tauto.
  by rewrite fmap_cons, IH'.
Qed.

Lemma listed_lookup c rs r :
  TtlCache.store_inv c rs → r ∈ rs →
  TtlCache.lookup (CacheEntry.key (TtlCache.c_heap c r)) c = Some (TtlCache.c_heap c r).
Proof.
  intros (_ & _ & Hiff & _) Hin. unfold TtlCache.lookup.
  assert (JsMap.get (CacheEntry.key (TtlCache.c_heap c r)) (TtlCache.c_map c) = Some r)
    as -> by (by apply Hiff).
  done.
Qed.

(** X11. [prune] removes the entries that are expired at the time of the
    call and no others: the fresh and the stale entries stay, in their
    order, with their values and timestamps. The removals are reported with
    reason [expired] in insertion order. Pruning again at the same time
    changes nothing, and the loads in flight are not touched. *)
Theorem prune_removes_expired c now :
  TtlCache.consistent c →
  let c' := TtlCache.prune now c in
  let gone k := from_option (λ e, CacheEntry.isExpired e now) false (TtlCache.lookup k c) in
  TtlCache.consistent c' ∧
  TtlCache.lru_keys c' = filter (λ k, gone k = false) (TtlCache.lru_keys c) ∧
  (∀ k, CacheEntry.payload <$> TtlCache.lookup k c' =
        if gone k then None else CacheEntry.payload <$> TtlCache.lookup k c) ∧
  TtlCache.c_log c' =
    TtlCache.c_log c ++
    TtlCache.evict_log (TtlCache.c_heap c) R_expired
      (TtlCache.set_aside (TtlCache.c_heap c) now (TtlCache.c_map c)) ∧
  TtlCache.prune now c' = c' ∧
  TtlCache.runtime_eq c c'.
Proof.
  intros [rs Hinv]. cbv zeta. unfold TtlCache.prune.
  rewrite (sweep_removeEntries now c).
  pose proof (removeEntries_expired_store c rs now Hinv) as Hinv'.
  set (vs := filter (λ r, CacheEntry.isExpired (TtlCache.c_heap c r) now = true)
                    (JsMap.values (TtlCache.c_map c))) in *.
  set (c' := TtlCache.removeEntries R_expired vs c) in *.
  set (rs' := filter (λ r, CacheEntry.isExpired (TtlCache.c_heap c r) now ≠ true) rs) in *.
  assert (∀ x, CacheEntry.payload (TtlCache.c_heap c' x) =
               CacheEntry.payload (TtlCache.c_heap c x)) as Hpay
    by (intros x; apply removeEntries_payload).
  split_and!.
  - by exists rs'.
  - rewrite (lru_keys_inv c' rs' Hinv'), (lru_keys_inv c rs Hinv).
    rewrite (fmap_ext_in _ (λ r, CacheEntry.key (TtlCache.c_heap c r)))
      by (intros x _; apply payload_key, Hpay).
    apply fmap_filter_comm. intros r Hr.
    rewrite (listed_lookup c rs r Hinv Hr). cbn.
    destruct (CacheEntry.isExpired (TtlCache.c_heap c r) now); split; congruence.
  - intros k. unfold TtlCache.lookup at 1 2.
    destruct (JsMap.get k (TtlCache.c_map c)) as [r|] eqn:Hget.
    + destruct (store_inv_get c rs k r Hinv Hget) as [Hr Hk].
      cbn [fmap option_fmap option_map from_option].
      destruct (CacheEntry.isExpired (TtlCache.c_heap c r) now) eqn:Hexp.
      * destruct (JsMap.get k (TtlCache.c_map c')) as [r'|] eqn:Hget'; [|done].
        exfalso. destruct (store_inv_get c' rs' k r' Hinv' Hget') as [Hr' Hk'].
        apply list_elem_of_filter in Hr' as [Hne Hr'].
        assert (r' = r) as ->; [|congruence].
        apply (key_inj c rs); [done..|].
        rewrite Hk, <- Hk'. symmetry. apply payload_key, Hpay.
      * assert (JsMap.get k (TtlCache.c_map c') = Some r) as ->.
        { destruct Hinv' as (_ & _ & Hiff & _). apply Hiff. split.
          - apply list_elem_of_filter. split; [congruence|done].
          - rewrite <- Hk. apply payload_key, Hpay. }
        unfold TtlCache.lookup. rewrite Hget. cbn. f_equal. apply Hpay.
    + cbn [from_option fmap option_fmap option_map].
      unfold TtlCache.lookup. rewrite Hget. cbn.
      destruct (JsMap.get k (TtlCache.c_map c')) as [r'|] eqn:Hget'; [|done].
      exfalso. destruct (store_inv_get c' rs' k r' Hinv' Hget') as [Hr' Hk'].
      apply list_elem_of_filter in Hr' as [_ Hr'].
      destruct Hinv as (_ & _ & Hiff & _).
      assert (JsMap.get k (TtlCache.c_map c) = Some r') as Hget''.
      { apply Hiff. split; [done|]. rewrite <- Hk'. symmetry. apply payload_key, Hpay. }
      congruence.
  - apply removeEntries_log.
  - rewrite (sweep_removeEntries now c').
    rewrite filter_none; [done|].
    intros r Hr Hexp.
    rewrite (store_inv_values c' rs' Hinv') in Hr.
    apply list_elem_of_filter in Hr as [Hne _]. apply Hne.
    rewrite <- Hexp. symmetry. apply payload_isExpired, Hpay.
  - apply removeEntries_runtime.
Qed.

(** X12. After [set], the value is readable exactly until its ttl is over:
    at any later time [get], [peek] and [has] agree, they see the value
    while [now' < now + ttl] and nothing from then on. With a ttl of zero or
    less the value is never readable. *)
Theorem set_get_round_trip c k v options now now' :
  TtlCache.consistent c → TtlCache.capacity_ok c →
  let ttl := default (TtlCache.defaultTtlMs c) (options ≫= SetOptions.ttlMs) in
  ∃ c', TtlCache.set k v options now c = Some c' ∧
    (TtlCache.get k now' c').1 = (if bool_decide (now' < now + ttl) then Some v else None) ∧
    (TtlCache.peek k now' c').1 = (if bool_decide (now' < now + ttl) then Some v else None) ∧
    (TtlCache.has k now' c').1 = bool_decide (now' < now + ttl) ∧
    (ttl ≤ 0 → now ≤ now' → (TtlCache.get k now' c').1 = None).
Proof.
  intros Hc Hcap. cbv zeta. rewrite set_write.
  set (ex := now + default (TtlCache.defaultTtlMs c) (options ≫= SetOptions.ttlMs)).
  destruct (write_lookup c k v ex ex Hc (or_introl Hcap)) as (c' & Hw & Hl & _).
  exists c'. split; [exact Hw|].
  destruct (TtlCache.lookup k c') as [e|] eqn:He; [|done].
  injection Hl as Hk Hv Hex Hsu.
  apply lookup_Some in He as (r & Hget & ->).
  destruct (set_only_fresh_or_expired (TtlCache.c_heap c' r) now' ltac:(congruence))
    as [Hfresh Hexp].
  rewrite Hex in Hfresh, Hexp.
  assert ((TtlCache.get k now' c').1 =
          (if bool_decide (now' < ex) then Some v else None)) as Hg.
  { unfold TtlCache.get. rewrite Hget, Hfresh.
    destruct (bool_decide (now' < ex)); cbn [negb fst]; [|done].
    f_equal. rewrite <- Hv. apply payload_value, promote_payload. }
  split_and!.
  - exact Hg.
  - unfold TtlCache.peek. rewrite Hget, Hexp.
    destruct (bool_decide (now' < ex)); cbn [negb fst]; [|done]. by rewrite Hv.
  - unfold TtlCache.has. rewrite Hget, Hexp.
    by destruct (bool_decide (now' < ex)).
  - intros Httl Hnow. rewrite Hg. rewrite bool_decide_eq_false_2; [done|].
    unfold ex. lia.
Qed.

(** X13. [set] on a key that has an entry, of any age, writes the value and
    the new expiry into that entry and makes it the most recent one. The
    size stays the same and nothing is evicted, nothing is reported but the
    [set] event, and no counter changes. *)
Theorem set_existing_keeps_size c k v options now e :
  TtlCache.consistent c → TtlCache.lookup k c = Some e →
  let ex := now + default (TtlCache.defaultTtlMs c) (options ≫= SetOptions.ttlMs) in
  ∃ c', TtlCache.set k v options now c = Some c' ∧
    CacheEntry.payload <$> TtlCache.lookup k c' = Some (k, v, ex, ex) ∧
    TtlCache.size c' = TtlCache.size c ∧
    TtlCache.lru_keys c' = k :: filter (λ k', k' ≠ k) (TtlCache.lru_keys c) ∧
    TtlCache.c_log c' = TtlCache.c_log c ++ [TtlCache.Emit Ev_set k (Some v)] ∧
    TtlCache.stats c' = TtlCache.stats c.
Proof.
  intros [rs Hinv] (r & Hget & _)%lookup_Some. cbv zeta. rewrite set_write.
  match goal with |- context [TtlCache.write k v ?ex ?su c] =>
    destruct (write_existing_view c rs k v ex su r Hinv Hget)
      as (c' & Hw & Hinv' & Hkeys & Hl & Hlog & Hstats & _) end.
  exists c'. split_and!; try done.
  rewrite (size_inv c' _ Hinv'), (size_inv c rs Hinv).
  destruct (store_inv_get c rs k r Hinv Hget) as [Hr _].
  apply list_elem_of_split in Hr as (xs & ys & ->).
  rewrite filter_ne_split by apply Hinv.
  cbn. rewrite !length_app. cbn. lia.
Qed.

(** X14. A cache with a capacity bound of zero or less keeps nothing: [set]
    of a new key evicts every entry, the least recent first and the new
    entry last, each with reason [evicted], and the cache is empty
    afterwards. *)
Theorem zero_capacity_keeps_nothing c k v options now bound :
  TtlCache.consistent c → TtlCache.lookup k c = None →
  TtlCache.maxSize c = Some bound → bound ≤ 0 →
  ∃ c', TtlCache.set k v options now c = Some c' ∧
    TtlCache.size c' = 0%nat ∧
    TtlCache.lru_keys c' = [] ∧
    (∀ k', TtlCache.lookup k' c' = None) ∧
    TtlCache.c_log c' =
      TtlCache.c_log c ++
      TtlCache.evict_obs R_evicted (reverse ((k, v) :: TtlCache.lru_entries c)) ++
      [TtlCache.Emit Ev_set k (Some v)].
Proof.
  intros [rs Hinv] Hnone%lookup_None Hmax Hb. rewrite set_write.
  match goal with |- context [TtlCache.write k v ?ex ?su c] =>
    destruct (write_new_view c rs k v ex su Hinv Hnone)
      as (c' & Hw & Hinv' & Hsize & _ & Hkeys & Hlog & _) end.
  assert (TtlCache.capacity c (S (TtlCache.size c)) = 0%nat) as Hcap.
  { unfold TtlCache.capacity. rewrite Hmax. lia. }
  rewrite Hcap in *. cbn [take drop] in *.
  exists c'. split_and!; try done.
  intros k'. apply lookup_None.
  destruct (JsMap.get k' (TtlCache.c_map c')) as [r|] eqn:Hget; [|done].
  destruct (store_inv_get c' [] k' r Hinv' Hget) as [Hr _].
  by apply elem_of_nil in Hr.
Qed.

End CacheProperties.
End CacheProperties.

(** * The counters and the events *)

Module StatsProperties.
Import JsMapFacts DllFacts TtlCacheFacts SyncFacts AsyncFacts Views AsyncViews.
Section StatsProperties.
Context {K V E : Type} `{!EqDecision K}.
Local Abbreviation t := (TtlCache.t K V E).
Implicit Types (c : t) (k : K) (v : V) (r : ref) (rs xs ys : list ref)
  (obs : list (TtlCache.Obs (K:=K) (V:=V))).

Local Abbreviation balanced c := (TtlCache.stats c = TtlCache.tally (TtlCache.c_log c)).

Lemma tally_app obs obs' :
  TtlCache.tally (obs ++ obs') = foldl TtlCache.tally_obs (TtlCache.tally obs) obs'.
Proof. unfold TtlCache.tally. by rewrite foldl_app. Qed.

Lemma balanced_delta c c' obs :
  TtlCache.c_log c' = TtlCache.c_log c ++ obs →
  TtlCache.stats c' = foldl TtlCache.tally_obs (TtlCache.stats c) obs →
  balanced c → balanced c'.
Proof. intros -> -> ->. by rewrite tally_app. Qed.

Lemma balanced_frame c c' :
  TtlCache.c_log c' = TtlCache.c_log c → TtlCache.stats c' = TtlCache.stats c →
  balanced c → balanced c'.
Proof. intros -> ->. done. Qed.

Lemma removeEntry_balanced c r reason :
  balanced c → balanced (TtlCache.removeEntry r reason c).
Proof.
  intros Hb.
  apply (balanced_delta c _ (TtlCache.evict_log (TtlCache.c_heap c) reason [r]));
    [apply removeEntry_log| |exact Hb].
  by destruct reason.
Qed.

Lemma removeEntries_balanced c reason vs :
  balanced c → balanced (TtlCache.removeEntries reason vs c).
Proof.
  revert c. induction vs as [|r vs IH]; intros c Hb; [done|].
  rewrite removeEntries_cons. by apply IH, removeEntry_balanced.
Qed.

Lemma write_balanced c k v ex su c' :
  TtlCache.consistent c → TtlCache.write k v ex su c = Some c' →
  balanced c → balanced c'.
Proof.
  intros [rs Hinv] Hw Hb.
  destruct (JsMap.get k (TtlCache.c_map c)) as [r|] eqn:Hget.
  - destruct (write_existing c rs k v ex su r Hinv Hget) as (Hw' & _).
    rewrite Hw' in Hw. injection Hw as <-.
    by apply (balanced_delta c _ [TtlCache.Emit Ev_set k (Some v)]).
  - destruct (write_new c rs k v ex su Hinv Hget) as (Hw' & _).
    rewrite Hw' in Hw. injection Hw as <-.
    unfold TtlCache.written_new.
    match goal with |- context [TtlCache.removeEntries ?reason ?vs ?c0] =>
      pose proof (removeEntries_balanced c0 reason vs Hb) as Hb';
      apply (balanced_delta (TtlCache.removeEntries reason vs c0) _
               [TtlCache.Emit Ev_set k (Some v)]) end; done.
Qed.

Lemma get_balanced c k now : balanced c → balanced (TtlCache.get k now c).2.
Proof.
  intros Hb. unfold TtlCache.get.
  destruct (JsMap.get k (TtlCache.c_map c)) as [r|].
  - destruct (CacheEntry.isFresh (TtlCache.c_heap c r) now); cbn [negb snd].
    + eapply (balanced_delta c); [reflexivity|reflexivity|exact Hb].
    + destruct (CacheEntry.isExpired (TtlCache.c_heap c r) now).
      * eapply (balanced_delta (TtlCache.removeEntry r R_expired c));
          [reflexivity|reflexivity|].
        by apply removeEntry_balanced.
      * eapply (balanced_delta c); [reflexivity|reflexivity|exact Hb].
  - eapply (balanced_delta c); [reflexivity|reflexivity|exact Hb].
Qed.

Lemma peek_balanced c k now : balanced c → balanced (TtlCache.peek k now c).2.
Proof.
  intros Hb. unfold TtlCache.peek.
  destruct (JsMap.get k (TtlCache.c_map c)) as [r|]; [|done].
  destruct (CacheEntry.isExpired (TtlCache.c_heap c r) now); [|done].
  by apply removeEntry_balanced.
Qed.

Lemma has_balanced c k now : balanced c → balanced (TtlCache.has k now c).2.
Proof.
  intros Hb. unfold TtlCache.has.
  destruct (JsMap.get k (TtlCache.c_map c)) as [r|]; [|done].
  destruct (CacheEntry.isExpired (TtlCache.c_heap c r) now); [|done].
  by apply removeEntry_balanced.
Qed.

Lemma delete_balanced c k : balanced c → balanced (TtlCache.delete k c).2.
Proof.
  intros Hb. unfold TtlCache.delete.
  destruct (JsMap.get k (TtlCache.c_map c)) as [r|]; [|done].
  by apply removeEntry_balanced.
Qed.

Lemma tally_clear (s : TtlCache.Stats) (kvs : list (K * V)) :
  foldl TtlCache.tally_obs s (TtlCache.evict_obs R_clear kvs) = s.
Proof. revert s. induction kvs as [|kv kvs IH]; intros s; [done|]. cbn. apply IH. Qed.

Lemma clear_balanced c : balanced c → balanced (TtlCache.clear c).
Proof.
  intros Hb.
  destruct (clear_announce_frame c (JsMap.values (TtlCache.c_map c)))
    as (_ & _ & Hlog & Hstats).
  eapply balanced_delta; [exact Hlog| |exact Hb].
  unfold TtlCache.evict_log. rewrite tally_clear. exact Hstats.
Qed.

Lemma prune_balanced c now : balanced c → balanced (TtlCache.prune now c).
Proof.
  intros Hb. unfold TtlCache.prune. rewrite sweep_removeEntries.
  by apply removeEntries_balanced.
Qed.

Lemma spread_balanced c now : balanced c → balanced (TtlCache.spread now c).2.
Proof. intros Hb. by apply removeEntries_balanced. Qed.

Lemma getOrSet_miss_balanced c caller k loader options :
  balanced c → balanced (TtlCache.getOrSet_miss caller k loader options c).
Proof.
  intros Hb.
  destruct (getOrSet_miss_frame c caller k loader options) as (_ & Hs & Hl & _).
  by apply (balanced_delta c _ [TtlCache.Emit Ev_miss k None]).
Qed.

Lemma getOrSet_balanced c caller k loader options now :
  balanced c → balanced (TtlCache.getOrSet caller k loader options now c).
Proof.
  intros Hb. unfold TtlCache.getOrSet.
  destruct (TtlCache.signal_aborted _ c); [done|].
  destruct (JsMap.get k (TtlCache.c_map c)) as [r|];
    [|by apply getOrSet_miss_balanced].
  destruct (CacheEntry.isFresh (TtlCache.c_heap c r) now).
  { eapply (balanced_delta c); [reflexivity|reflexivity|exact Hb]. }
  destruct (CacheEntry.isStale (TtlCache.c_heap c r) now).
  - match goal with |- context [TtlCache.refreshInBackground k loader options ?c0] =>
      destruct (refreshInBackground_frame c0 k loader options) as (_ & Hs & Hl & _);
      apply (balanced_frame (TtlCache.refreshInBackground k loader options c0));
        [done..|];
      apply (balanced_frame c0); [done..|] end.
    eapply (balanced_delta c); [reflexivity|reflexivity|exact Hb].
  - by apply getOrSet_miss_balanced, removeEntry_balanced.
Qed.

Lemma settle_balanced c p res now c' :
  TtlCache.consistent c → TtlCache.settle p res now c = Some c' →
  balanced c → balanced c'.
Proof.
  intros Hc Hs Hb. unfold TtlCache.settle in Hs.
  destruct (TtlCache.c_loads c !! p) as [ld|]; [|by injection Hs as <-].
  destruct (TtlCache.l_state ld); try (by injection Hs as <-).
  destruct res as [value|e].
  - unfold TtlCache.executeLoader_resume in Hs. rewrite setWithSwr_write in Hs.
    match type of Hs with context [TtlCache.write ?k ?v ?ex ?su c] =>
      destruct (TtlCache.write k v ex su c) as [c1|] eqn:Hw; [|done];
      pose proof (write_balanced c k v ex su c1 Hc Hw Hb) as Hb1 end.
    cbn [mbind option_bind] in Hs. injection Hs as <-.
    match goal with |- context [TtlCache.resolve_promise p ld ?res ?c0] =>
      destruct (resolve_promise_frame c0 p ld res) as (_ & Hst & Hl & _);
      apply (balanced_frame c0); [done..|] end.
    eapply (balanced_delta c1); [reflexivity|reflexivity|exact Hb1].
  - cbn [mbind option_bind] in Hs. injection Hs as <-.
    destruct (resolve_promise_frame c p ld (inr e)) as (_ & Hst & Hl & _).
    by apply (balanced_frame c).
Qed.

Lemma abort_balanced c sg : balanced c → balanced (TtlCache.abort sg c).
Proof.
  intros Hb. destruct (abort_frame c sg) as (_ & Hs & Hl & _).
  by apply (balanced_frame c).
Qed.

Lemma step_balanced c ev now c' :
  TtlCache.consistent c → TtlCache.step ev now c = Some c' →
  balanced c → balanced c'.
Proof.
  intros Hc Hs Hb. destruct ev; cbn [TtlCache.step] in Hs;
    try (injection Hs as <-).
  - rewrite set_write in Hs. by eapply write_balanced.
  - by apply get_balanced.
  - by apply peek_balanced.
  - by apply has_balanced.
  - by apply delete_balanced.
  - by apply clear_balanced.
  - by apply prune_balanced.
  - by apply spread_balanced.
  - by apply getOrSet_balanced.
  - by eapply settle_balanced.
  - by apply abort_balanced.
Qed.

Lemma run_balanced evs c :
  TtlCache.wf c → balanced c →
  ∃ c', TtlCache.run evs c = Some c' ∧ TtlCache.wf c' ∧ balanced c'.
Proof.
  revert c. induction evs as [|[ev now] evs IH]; intros c Hwf Hb; [by exists c|].
  destruct (step_wf c ev now Hwf) as (c1 & Hs & Hwf1).
  cbn [TtlCache.run]. rewrite Hs. cbn [mbind option_bind].
  apply IH; [done|]. eapply step_balanced; [exact (proj1 Hwf)|exact Hs|exact Hb].
Qed.


End StatsProperties.
End StatsProperties.

(** * Properties of the iteration *)

Module IterationProperties.
Import JsMapFacts DllFacts TtlCacheFacts SyncFacts AsyncFacts Views AsyncViews
  IterationFacts CacheProperties.
Section IterationProperties.
Context {K V E : Type} `{!EqDecision K}.
Local Abbreviation t := (TtlCache.t K V E).
Implicit Types (c : t) (k : K) (v : V) (r : ref) (rs xs ys : list ref).

Lemma values_keys c rs :
  TtlCache.store_inv c rs →
  (λ r, CacheEntry.key (TtlCache.c_heap c r)) <$> JsMap.values (TtlCache.c_map c) =
  JsMap.keys (TtlCache.c_map c).
Proof.
  intros Hinv. unfold JsMap.values, JsMap.keys.
  rewrite <- list_fmap_compose. apply fmap_ext_in. intros [k r] Hin. cbn.
  assert (JsMap.get k (TtlCache.c_map c) = Some r) as Hget
    by (apply entries_get; [apply Hinv|done]).
  by destruct (store_inv_get c rs k r Hinv Hget).
Qed.

(** X16. An iteration that runs to its end with nothing in between yields
    the pairs of the entries that are fresh and not expired at its start, in
    insertion order and each key once; the stale entries are skipped. It
    leaves the cache as [prune] at that time does: the expired entries are
    removed and every other entry stays. *)
Theorem iteration_yields_fresh c now :
  TtlCache.consistent c →
  ∃ pairs,
    TtlCache.drain (S (length (TtlCache.c_map c))) now TtlCache.GenStart c =
      Some (pairs, TtlCache.prune now c) ∧
    (∀ k v, (k, v) ∈ pairs ↔
       ∃ e, TtlCache.lookup k c = Some e ∧ CacheEntry.isExpired e now = false ∧
            CacheEntry.isFresh e now = true ∧ CacheEntry.value e = v) ∧
    NoDup pairs.*1 ∧
    pairs.*1 `sublist_of` JsMap.keys (TtlCache.c_map c).
Proof.
  intros [rs Hinv].
  exists (TtlCache.yielded (TtlCache.c_heap c) now (TtlCache.c_map c)).
  assert ((TtlCache.yielded (TtlCache.c_heap c) now (TtlCache.c_map c)).*1
            `sublist_of` JsMap.keys (TtlCache.c_map c)) as Hsub.
  { unfold TtlCache.yielded. rewrite <- list_fmap_compose.
    rewrite <- (values_keys c rs Hinv).
    change (λ r, CacheEntry.key (TtlCache.c_heap c r))
      with (CacheEntry.key ∘ TtlCache.c_heap c).
    rewrite (list_fmap_compose (TtlCache.c_heap c) CacheEntry.key).
    apply fmap_sublist, sublist_filter. }
  split_and!.
  - rewrite drain_spread. unfold TtlCache.spread, TtlCache.prune.
    by rewrite sweep_removeEntries.
  - intros k v. unfold TtlCache.yielded. rewrite list_elem_of_fmap. split.
    + intros (e & [= -> ->] & [[Hexp Hfresh] (r & -> & Hr)%list_elem_of_fmap]%list_elem_of_filter).
      rewrite (store_inv_values c rs Hinv) in Hr.
      exists (TtlCache.c_heap c r). split_and!; try done.
      by apply (listed_lookup c rs).
    + intros (e & (r & Hget & ->)%lookup_Some & Hexp & Hfresh & <-).
      destruct (store_inv_get c rs k r Hinv Hget) as [Hr Hk].
      exists (TtlCache.c_heap c r). split; [by rewrite Hk|].
      apply list_elem_of_filter. split; [done|].
      apply list_elem_of_fmap. exists r. split; [done|].
      by rewrite (store_inv_values c rs Hinv).
  - eapply sublist_NoDup; [|exact Hsub]. apply Hinv.
  - exact Hsub.
Qed.

Lemma drain_with_project {A} (f : K * V → A) fuel clock g c :
  TtlCache.drain_with (TtlCache.project_next f) fuel clock g c =
  (λ res : list (K * V) * t, (f <$> res.1, res.2)) <$> TtlCache.drain fuel clock g c.
Proof.
  revert g c. induction fuel as [|fuel IH]; intros g c; [done|].
  cbn [TtlCache.drain_with TtlCache.drain]. unfold TtlCache.project_next at 1.
  destruct (TtlCache.iterator_next clock g c) as [[[kv|] g'] c']; [|done].
  cbn [fmap option_fmap option_map]. rewrite IH.
  by destruct (TtlCache.drain fuel clock g' c') as [[rest c'']|].
Qed.

(** X17. [keys()], [values()] and [entries()], each run to its end with
    nothing in between, yield the keys, the values and the pairs of what an
    iteration of the cache yields, in the same order, and leave the cache in
    the same state: they too remove the expired entries. *)
Theorem keys_values_entries_project c now :
  let fuel := S (length (TtlCache.c_map c)) in
  ∃ pairs c',
    TtlCache.drain fuel now TtlCache.GenStart c = Some (pairs, c') ∧
    TtlCache.drain_with TtlCache.keys_next fuel now TtlCache.GenStart c =
      Some (pairs.*1, c') ∧
    TtlCache.drain_with TtlCache.values_next fuel now TtlCache.GenStart c =
      Some (pairs.*2, c') ∧
    TtlCache.drain_with TtlCache.entries_next fuel now TtlCache.GenStart c =
      Some (pairs, c') ∧
    c' = TtlCache.prune now c.
Proof.
  cbv zeta. eexists _, _. split; [apply drain_spread|].
  unfold TtlCache.keys_next, TtlCache.values_next, TtlCache.entries_next.
  rewrite !drain_with_project, drain_spread. cbn [fmap option_fmap option_map].
  split_and!; try done.
  - by rewrite list_fmap_id.
  - unfold TtlCache.spread, TtlCache.prune. by rewrite sweep_removeEntries.
Qed.

End IterationProperties.
End IterationProperties.

(** * Properties of [getOrSet] *)

Module LoadProperties.
Import JsMapFacts DllFacts TtlCacheFacts SyncFacts AsyncFacts Views AsyncViews Claims.
Section LoadProperties.
Context {K V E : Type} `{!EqDecision K}.
Local Abbreviation t := (TtlCache.t K V E).
Implicit Types (c : t) (k : K) (v : V) (r : ref) (rs xs ys : list ref).


Lemma getOrSet_miss_alone c caller k loader options :
  TtlCache.dedupe_on options = false →
  TtlCache.signal_aborted (options ≫= GetOrSetOptions.signal) c = None →
  TtlCache.getOrSet_miss caller k loader options c =
  TtlCache.with_waiters
    (λ ws, ws ++ [TtlCache.mkWaiter (Some caller) (length (TtlCache.c_loads c))
                    (options ≫= GetOrSetOptions.signal) None])
    (TtlCache.with_loads
       (λ ls, ls ++ [TtlCache.mkLoad k loader options TtlCache.Pending])
       (TtlCache.emit Ev_miss k None (TtlCache.with_stats TtlCache.miss_incr c))).
Proof.
  intros Hd Hsig. unfold TtlCache.getOrSet_miss. rewrite Hd. cbn.
  apply (withAbort_pending _ _ (TtlCache.mkLoad k loader options TtlCache.Pending));
    [exact Hsig| |done].
  cbn. by apply list_lookup_middle.
Qed.

Lemma miss_start_state c k :
  TtlCache.consistent c →
  let c0 := match JsMap.get k (TtlCache.c_map c) with
            | Some r => TtlCache.removeEntry r R_expired c
            | None => c
            end in
  TtlCache.runtime_eq c c0 ∧ TtlCache.lookup k c0 = None.
Proof.
  intros [rs Hinv]. cbv zeta.
  destruct (JsMap.get k (TtlCache.c_map c)) as [r|] eqn:Hget.
  - split; [apply removeEntry_runtime|].
    by destruct (removeEntry_view c rs k r R_expired Hinv Hget) as (_ & ? & _).
  - split; [apply runtime_eq_refl|]. by apply lookup_None.
Qed.

(** X19. With [dedupe: false] a call of [getOrSet] that misses invokes its
    own loader, whether or not a load is registered for the key, and leaves
    the registry alone. When its loader settles, the call gets the value or
    the error, and the registry is still as it was. *)
Theorem getOrSet_without_dedupe c caller k loader options now :
  TtlCache.wf c →
  TtlCache.dedupe_on options = false →
  TtlCache.signal_aborted (options ≫= GetOrSetOptions.signal) c = None →
  (∀ e, TtlCache.lookup k c = Some e →
        CacheEntry.isFresh e now = false ∧ CacheEntry.isStale e now = false) →
  let p := length (TtlCache.c_loads c) in
  let c' := TtlCache.getOrSet caller k loader options now c in
  TtlCache.c_loads c' =
    TtlCache.c_loads c ++ [TtlCache.mkLoad k loader options TtlCache.Pending] ∧
  TtlCache.c_inflight c' = TtlCache.c_inflight c ∧
  TtlCache.c_results c' = TtlCache.c_results c ∧
  ∀ res now', ∃ c'',
    TtlCache.settle p res now' c' = Some c'' ∧
    TtlCache.c_results c'' =
      TtlCache.c_results c ++ [(caller, TtlCache.outcome_of res)] ∧
    ∀ k', JsMap.get k' (TtlCache.c_inflight c'') = JsMap.get k' (TtlCache.c_inflight c).
Proof.
  intros Hwf Hd Hsig Hmiss. cbv zeta.
  pose proof (getOrSet_wf c caller k loader options now Hwf) as Hwf'. revert Hwf'.
  rewrite (getOrSet_miss_path _ _ _ _ _ _ Hsig Hmiss).
  destruct (miss_start_state c k (proj1 Hwf)) as [(Hi0 & Hl0 & Hw0 & Ha0 & Hr0) _].
  set (c0 := match JsMap.get k (TtlCache.c_map c) with
             | Some r => TtlCache.removeEntry r R_expired c
             | None => c
             end) in *.
  rewrite getOrSet_miss_alone; [|done|by rewrite (signal_aborted_ext c c0)].
  intros Hwf'.
  match type of Hwf' with TtlCache.wf ?x => set (c' := x) in * end.
  assert (TtlCache.c_loads c' =
          TtlCache.c_loads c ++ [TtlCache.mkLoad k loader options TtlCache.Pending]) as Hl'
    by (cbn; by rewrite Hl0).
  assert (TtlCache.c_waiters c' =
          TtlCache.c_waiters c ++
          [TtlCache.mkWaiter (Some caller) (length (TtlCache.c_loads c))
             (options ≫= GetOrSetOptions.signal) None]) as Hw'
    by (cbn; by rewrite Hw0, Hl0).
  split_and!; try done.
  intros res now'.
  destruct (settle_results c' (length (TtlCache.c_loads c))
              (TtlCache.mkLoad k loader options TtlCache.Pending) res now' Hwf')
    as (c'' & Hset & Hres & Hinf & _); [rewrite Hl'; by apply list_lookup_middle|done|].
  assert (filter (λ w, TtlCache.w_promise w = length (TtlCache.c_loads c))
                 (TtlCache.c_waiters c') =
          [TtlCache.mkWaiter (Some caller) (length (TtlCache.c_loads c))
             (options ≫= GetOrSetOptions.signal) None]) as Hwoken.
  { rewrite Hw', filter_app, (no_waiter_on_next_promise c (proj2 Hwf)).
    cbn. by rewrite decide_True. }
  exists c''. split; [exact Hset|]. rewrite Hwoken in Hres, Hinf. split.
  - rewrite Hres. cbn. by rewrite Hr0.
  - intros k'. rewrite Hinf. rewrite decide_False.
    + cbn. by rewrite Hi0.
    + cbn. intros [=]%list_elem_of_singleton.
Qed.


(** X21. When the loader of a call fails, nothing is written and nothing is
    counted or reported: the store, the counters and the log are as they
    were, and the caller gets the error. The key is no longer registered,
    and the next call for it invokes its loader and registers the new
    load. *)
Theorem failed_load_allows_retry c k call retry err now :
  TtlCache.wf c →
  JsMap.get k (TtlCache.c_inflight c) = None →
  (∀ e, TtlCache.lookup k c = Some e →
        CacheEntry.isFresh e (TtlCache.call_now call) = false ∧
        CacheEntry.isStale e (TtlCache.call_now call) = false) →
  (∀ x, x ∈ [call; retry] →
     TtlCache.dedupe_on (TtlCache.call_options x) = true ∧
     TtlCache.signal_aborted (TtlCache.call_options x ≫= GetOrSetOptions.signal) c = None) →
  let p := length (TtlCache.c_loads c) in
  let c1 := TtlCache.getOrSet_call k c call in
  ∃ c2, TtlCache.settle p (inr err) now c1 = Some c2 ∧
    TtlCache.store_eq c1 c2 ∧
    TtlCache.stats c2 = TtlCache.stats c1 ∧
    TtlCache.c_log c2 = TtlCache.c_log c1 ∧
    TtlCache.lookup k c2 = None ∧
    TtlCache.c_results c2 =
      TtlCache.c_results c ++
      [(TtlCache.call_caller call, TtlCache.Rejected (TtlCache.LoaderError err))] ∧
    JsMap.get k (TtlCache.c_inflight c2) = None ∧
    let c3 := TtlCache.getOrSet_call k c2 retry in
    TtlCache.c_loads c3 =
      TtlCache.c_loads c2 ++
      [TtlCache.mkLoad k (TtlCache.call_loader retry) (TtlCache.call_options retry)
         TtlCache.Pending] ∧
    JsMap.get k (TtlCache.c_inflight c3) = Some (S p).
Proof.
  intros Hwf Hi Hmiss Hcalls. cbv zeta.
  destruct (Hcalls call ltac:(left)) as [Hd Hsig].
  destruct (Hcalls retry ltac:(right; left)) as [Hd' Hsig'].
  destruct (first_call_starts_load c k call Hwf Hi Hmiss Hd Hsig)
    as (Hwf1 & Hlk1 & Hl1 & Hi1 & Hw1 & Ha1 & Hr1).
  set (c1 := TtlCache.getOrSet_call k c call) in *.
  set (ld := TtlCache.mkLoad k (TtlCache.call_loader call) (TtlCache.call_options call)
               TtlCache.Pending) in *.
  assert (TtlCache.c_loads c1 !! length (TtlCache.c_loads c) = Some ld) as Hld
    by (rewrite Hl1; by apply list_lookup_middle).
  destruct (settle_failure c1 _ ld err now Hld eq_refl) as (Hset & Hs & Hst & Hlog).
  destruct (settle_results c1 _ ld (inr err) now Hwf1 Hld eq_refl)
    as (c2 & Hset' & Hres & Hinf & _ & Ha2).
  destruct (settle_wf c1 (length (TtlCache.c_loads c)) (inr err) now Hwf1)
    as (c2' & Hset'' & Hwf2).
  rewrite Hset in Hset'. injection Hset' as <-.
  rewrite Hset in Hset''. injection Hset'' as <-.
  set (c2 := TtlCache.resolve_promise (length (TtlCache.c_loads c)) ld (inr err) c1) in *.
  exists c2.
  assert (filter (λ w, TtlCache.w_promise w = length (TtlCache.c_loads c))
                 (TtlCache.c_waiters c1) =
          [TtlCache.waiter_of (length (TtlCache.c_loads c)) (Some k) call]) as Hwoken.
  { rewrite Hw1, filter_app, (no_waiter_on_next_promise c (proj2 Hwf)).
    cbn. by rewrite decide_True. }
  rewrite Hwoken in Hres, Hinf.
  assert (TtlCache.lookup k c2 = None) as Hlk2
    by (by rewrite (store_eq_lookup _ _ k Hs)).
  assert (JsMap.get k (TtlCache.c_inflight c2) = None) as Hi2.
  { rewrite Hinf. rewrite decide_True; [done|]. cbn. left. }
  assert (length (TtlCache.c_loads c2) = S (length (TtlCache.c_loads c))) as Hlen.
  { pose proof (resolve_promise_loads c1 (length (TtlCache.c_loads c)) ld (inr err)) as Hl2.
    fold c2 in Hl2. rewrite Hl2, length_insert, Hl1, length_app. cbn. lia. }
  destruct (first_call_starts_load c2 k retry Hwf2 Hi2) as (_ & _ & Hl3 & Hi3 & _).
  { intros e He. congruence. }
  { done. }
  { rewrite <- Hsig'. apply signal_aborted_ext. by rewrite Ha2. }
  rewrite Hlen in Hi3.
  split_and!; try done.
  rewrite Hres, Hr1. done.
Qed.

End LoadProperties.
End LoadProperties.

(** * Invariants of the runs *)

Module RunProperties.
Import JsMapFacts DllFacts TtlCacheFacts SyncFacts AsyncFacts Views AsyncViews
  CacheProperties.
Section RunProperties.
Context {K V E : Type} `{!EqDecision K}.
Local Abbreviation t := (TtlCache.t K V E).
Implicit Types (c : t) (k : K) (v : V) (r : ref) (rs xs ys : list ref).

(** X22. Whatever operations a new cache goes through, each run to its end
    (an iteration included), the eviction loop terminates and the map and
    the eviction list hold the same entries: the keys of the list are the
    keys that have an entry, each once, and the size is their number. Every
    waiting call waits for a loader that has not settled. *)
Theorem operations_keep_correspondence `{!Inhabited K, !Inhabited V}
    (options : option CacheOptions.t)
    (evs : list (TtlCache.Event (K:=K) (V:=V) (E:=E) * Z)) :
  ∃ c, TtlCache.run evs (TtlCache.new options) = Some c ∧
    TtlCache.consistent c ∧ TtlCache.runtime_inv c ∧
    NoDup (TtlCache.lru_keys c) ∧
    (∀ k, k ∈ TtlCache.lru_keys c ↔ is_Some (TtlCache.lookup k c)) ∧
    TtlCache.size c = length (TtlCache.lru_keys c).
Proof.
  destruct (run_wf (TtlCache.new options) evs (new_wf options)) as (c & Hrun & Hc & Hr).
  exists c. pose proof Hc as [rs Hinv].
  split_and!; try done.
  - rewrite (lru_keys_inv c rs Hinv). apply NoDup_fmap_2_strong; [|apply Hinv].
    intros x y Hx Hy. by apply (key_inj c rs).
  - intros k. rewrite (lru_keys_inv c rs Hinv). split.
    + intros (r & -> & Hr')%list_elem_of_fmap. rewrite (listed_lookup c rs r Hinv Hr').
      by eexists.
    + intros [e (r & Hget & _)%lookup_Some].
      destruct (store_inv_get c rs k r Hinv Hget) as [Hr' Hk].
      apply list_elem_of_fmap. by exists r.
  - by rewrite (size_inv c rs Hinv), (lru_keys_inv c rs Hinv), length_fmap.
Qed.

Local Abbreviation shrinks c c' :=
  (TtlCache.maxSize c' = TtlCache.maxSize c ∧ Nat.le (TtlCache.size c') (TtlCache.size c)).

Lemma size_delete {A} k (m : JsMap.t K A) : (JsMap.size (JsMap.delete k m) ≤ JsMap.size m)%nat.
Proof. unfold JsMap.size. rewrite entries_delete. apply length_filter. Qed.

Lemma removeEntry_shrinks c r reason : shrinks c (TtlCache.removeEntry r reason c).
Proof.
  split; [by destruct (removeEntry_config c r reason)|].
  unfold TtlCache.size. rewrite removeEntry_map. apply size_delete.
Qed.

Lemma removeEntries_shrinks c reason vs : shrinks c (TtlCache.removeEntries reason vs c).
Proof.
  revert c. induction vs as [|r vs IH]; intros c; [done|].
  rewrite removeEntries_cons.
  destruct (IH (TtlCache.removeEntry r reason c)) as [-> Hs].
  destruct (removeEntry_shrinks c r reason) as [-> Hs']. split; [done|lia].
Qed.

Lemma store_eq_shrinks c c' : TtlCache.store_eq c c' → shrinks c c'.
Proof. intros (Hm & _ & _ & _ & Hmax & _). unfold TtlCache.size. by rewrite Hm. Qed.

Lemma shrinks_trans c1 c2 c3 : shrinks c1 c2 → shrinks c2 c3 → shrinks c1 c3.
Proof. intros [-> ?] [-> ?]. split; [done|lia]. Qed.

Lemma write_size c k v ex su c' :
  TtlCache.consistent c → TtlCache.write k v ex su c = Some c' →
  TtlCache.maxSize c' = TtlCache.maxSize c ∧
  ((TtlCache.size c' ≤ TtlCache.size c)%nat ∨
   TtlCache.size c' = TtlCache.capacity c (S (TtlCache.size c))).
Proof.
  intros [rs Hinv] Hw.
  destruct (JsMap.get k (TtlCache.c_map c)) as [r|] eqn:Hget.
  - destruct (write_existing c rs k v ex su r Hinv Hget) as (Hw' & _).
    rewrite Hw' in Hw. injection Hw as <-. split; [done|]. by left.
  - destruct (write_new_view c rs k v ex su Hinv Hget) as (c'' & Hw' & _ & Hsize & _).
    destruct (write_new c rs k v ex su Hinv Hget) as (Hw'' & _).
    rewrite Hw' in Hw. injection Hw as <-. split; [|by right].
    rewrite Hw' in Hw''. injection Hw'' as ->.
    unfold TtlCache.written_new.
    match goal with |- context [TtlCache.removeEntries ?reason ?vs ?c0] =>
      destruct (removeEntries_config c0 reason vs) as (Hm & _) end.
    exact Hm.
Qed.

Lemma get_shrinks c k now : shrinks c (TtlCache.get k now c).2.
Proof.
  unfold TtlCache.get. destruct (JsMap.get k (TtlCache.c_map c)) as [r|]; [|done].
  destruct (CacheEntry.isFresh (TtlCache.c_heap c r) now); cbn [negb snd]; [done|].
  destruct (CacheEntry.isExpired (TtlCache.c_heap c r) now); [|done].
  apply (removeEntry_shrinks c r R_expired).
Qed.

Lemma peek_shrinks c k now : shrinks c (TtlCache.peek k now c).2.
Proof.
  unfold TtlCache.peek. destruct (JsMap.get k (TtlCache.c_map c)) as [r|]; [|done].
  destruct (CacheEntry.isExpired (TtlCache.c_heap c r) now); [|done].
  apply removeEntry_shrinks.
Qed.

Lemma has_shrinks c k now : shrinks c (TtlCache.has k now c).2.
Proof.
  unfold TtlCache.has. destruct (JsMap.get k (TtlCache.c_map c)) as [r|]; [|done].
  destruct (CacheEntry.isExpired (TtlCache.c_heap c r) now); [|done].
  apply removeEntry_shrinks.
Qed.

Lemma delete_shrinks c k : shrinks c (TtlCache.delete k c).2.
Proof.
  unfold TtlCache.delete. destruct (JsMap.get k (TtlCache.c_map c)) as [r|]; [|done].
  apply removeEntry_shrinks.
Qed.

Lemma clear_shrinks c : shrinks c (TtlCache.clear c).
Proof.
  split; [|rewrite (size_inv _ [] (clear_store c)); cbn; lia].
  unfold TtlCache.clear. cbn.
  by destruct (clear_announce_frame c (JsMap.values (TtlCache.c_map c)))
    as ((_ & _ & _ & _ & ? & _) & _).
Qed.

Lemma getOrSet_shrinks c caller k loader options now :
  shrinks c (TtlCache.getOrSet caller k loader options now c).
Proof.
  unfold TtlCache.getOrSet.
  destruct (TtlCache.signal_aborted _ c); [done|].
  destruct (JsMap.get k (TtlCache.c_map c)) as [r|].
  - destruct (CacheEntry.isFresh (TtlCache.c_heap c r) now); [done|].
    destruct (CacheEntry.isStale (TtlCache.c_heap c r) now).
    + match goal with |- context [TtlCache.refreshInBackground k loader options ?c0] =>
        destruct (refreshInBackground_frame c0 k loader options) as (Hs & _);
        apply store_eq_shrinks in Hs end.
      destruct Hs as [Hm Hsz]. split; [exact Hm|exact Hsz].
    + eapply shrinks_trans; [apply (removeEntry_shrinks c r R_expired)|].
      apply store_eq_shrinks.
      by destruct (getOrSet_miss_frame (TtlCache.removeEntry r R_expired c)
                     caller k loader options) as (? & _).
  - apply store_eq_shrinks.
    by destruct (getOrSet_miss_frame c caller k loader options) as (? & _).
Qed.

Lemma settle_size c p res now c' :
  TtlCache.consistent c → TtlCache.settle p res now c = Some c' →
  TtlCache.maxSize c' = TtlCache.maxSize c ∧
  ((TtlCache.size c' ≤ TtlCache.size c)%nat ∨
   TtlCache.size c' = TtlCache.capacity c (S (TtlCache.size c))).
Proof.
  intros Hc Hs. unfold TtlCache.settle in Hs.
  destruct (TtlCache.c_loads c !! p) as [ld|]; [|injection Hs as <-; by split; [|left]].
  destruct (TtlCache.l_state ld); try (injection Hs as <-; by split; [|left]).
  destruct res as [value|e].
  - unfold TtlCache.executeLoader_resume in Hs. rewrite setWithSwr_write in Hs.
    match type of Hs with context [TtlCache.write ?k ?v ?ex ?su c] =>
      destruct (TtlCache.write k v ex su c) as [c1|] eqn:Hw; [|done];
      destruct (write_size c k v ex su c1 Hc Hw) as [Hm Hsz] end.
    cbn [mbind option_bind] in Hs. injection Hs as <-.
    match goal with |- context [TtlCache.resolve_promise p ld ?res ?c0] =>
      destruct (store_eq_shrinks c0 _ (proj1 (resolve_promise_frame c0 p ld res)))
        as [Hm' Hsz'];
      assert (TtlCache.size (TtlCache.resolve_promise p ld res c0) = TtlCache.size c1) as ->
        by (unfold TtlCache.size;
            by destruct (resolve_promise_frame c0 p ld res) as ((-> & _) & _))
    end.
    split; [|exact Hsz]. rewrite Hm'. exact Hm.
  - cbn [mbind option_bind] in Hs. injection Hs as <-.
    destruct (store_eq_shrinks c _ (proj1 (resolve_promise_frame c p ld (inr e))))
      as [Hm' Hsz'].
    split; [done|by left].
Qed.

Lemma step_size c ev now c' :
  TtlCache.consistent c → TtlCache.step ev now c = Some c' →
  TtlCache.maxSize c' = TtlCache.maxSize c ∧
  ((TtlCache.size c' ≤ TtlCache.size c)%nat ∨
   TtlCache.size c' = TtlCache.capacity c (S (TtlCache.size c))).
Proof.
  intros Hc Hs.
  assert (∀ c0, shrinks c c0 →
            TtlCache.maxSize c0 = TtlCache.maxSize c ∧
            ((TtlCache.size c0 ≤ TtlCache.size c)%nat ∨
             TtlCache.size c0 = TtlCache.capacity c (S (TtlCache.size c)))) as Hsh
    by (intros c0 [? ?]; split; [done|by left]).
  destruct ev; cbn [TtlCache.step] in Hs; try (injection Hs as <-).
  - rewrite set_write in Hs. by eapply write_size.
  - apply Hsh, get_shrinks.
  - apply Hsh, peek_shrinks.
  - apply Hsh, has_shrinks.
  - apply Hsh, delete_shrinks.
  - apply Hsh, clear_shrinks.
  - apply Hsh. unfold TtlCache.prune. rewrite sweep_removeEntries.
    apply removeEntries_shrinks.
  - apply Hsh. apply removeEntries_shrinks.
  - apply Hsh, getOrSet_shrinks.
  - by eapply settle_size.
  - apply Hsh, store_eq_shrinks. by destruct (abort_frame c sg) as (? & _).
Qed.

Lemma run_within_capacity evs c :
  TtlCache.wf c →
  (∀ bound, TtlCache.maxSize c = Some bound → (TtlCache.size c ≤ Z.to_nat bound)%nat) →
  ∃ c', TtlCache.run evs c = Some c' ∧
    TtlCache.maxSize c' = TtlCache.maxSize c ∧
    (∀ bound, TtlCache.maxSize c' = Some bound → (TtlCache.size c' ≤ Z.to_nat bound)%nat).
Proof.
  revert c. induction evs as [|[ev now] evs IH]; intros c Hwf Hb; [by exists c|].
  destruct (step_wf c ev now Hwf) as (c1 & Hs & Hwf1).
  destruct (step_size c ev now c1 (proj1 Hwf) Hs) as [Hm Hsz].
  cbn [TtlCache.run]. rewrite Hs. cbn [mbind option_bind].
  destruct (IH c1 Hwf1) as (c' & Hrun & Hm' & Hb').
  - intros bound Hbound. rewrite Hm in Hbound. specialize (Hb bound Hbound).
    destruct Hsz as [Hle| ->]; [lia|].
    unfold TtlCache.capacity. rewrite Hbound. lia.
  - exists c'. split_and!; [done|congruence|done].
Qed.

(** X23. A cache made with a capacity bound never holds more entries than
    the bound, whatever operations it goes through: after each of them the
    size is at most [maxSize] (and zero when the bound is negative). The
    bound itself never changes. *)
Theorem capacity_never_exceeded `{!Inhabited K, !Inhabited V}
    (options : option CacheOptions.t)
    (evs : list (TtlCache.Event (K:=K) (V:=V) (E:=E) * Z)) :
  ∃ c, TtlCache.run evs (TtlCache.new options) = Some c ∧
    TtlCache.maxSize c = options ≫= CacheOptions.maxSize ∧
    ∀ bound, options ≫= CacheOptions.maxSize = Some bound →
      (TtlCache.size c ≤ Z.to_nat bound)%nat.
Proof.
  destruct (run_within_capacity evs (TtlCache.new options) (new_wf options))
    as (c & Hrun & Hm & Hb).
  - intros bound _. cbn. lia.
  - exists c. split_and!; [done|done|].
    intros bound Hbound. apply Hb. by rewrite Hm.
Qed.

End RunProperties.
End RunProperties.

(** * The properties at concrete inputs *)

Module MoreExamples.
Import JsMapFacts DllFacts TtlCacheFacts SyncFacts AsyncFacts Views AsyncViews.
Import ListProperties CacheProperties IterationProperties LoadProperties.
Import Scenarios MoreScenarios Examples.

Lemma linked_repr : DoublyLinkedList.repr linked_heap linked_list [1%nat; 0%nat].
Proof.
  split_and!; [|done|done|by cbn].
  apply NoDup_cons. split; [by intros ?%list_elem_of_singleton|apply NoDup_singleton].
Qed.

Lemma fresh_ref : 2%nat ∉ [1%nat; 0%nat].
Proof. intros [?|[?|?%elem_of_nil]%elem_of_cons]%elem_of_cons; done. Qed.

Lemma listed_ref : 0%nat ∈ [1%nat; 0%nat].
Proof. right. left. Qed.

Lemma addToFront_pushes_witness :
  DoublyLinkedList.repr linked_heap linked_list [1%nat; 0%nat] ∧ (2%nat ∉ [1%nat; 0%nat]) ∧
  DoublyLinkedList.repr (DoublyLinkedList.addToFront 2%nat (linked_heap, linked_list)).1
    (DoublyLinkedList.addToFront 2%nat (linked_heap, linked_list)).2 [2%nat; 1%nat; 0%nat].
Proof.
  split; [exact linked_repr|]. split; [exact fresh_ref|].
  exact (proj1 (addToFront_pushes linked_heap linked_list _ 2%nat linked_repr fresh_ref)).
Defined.

Lemma remove_unlinks_witness :
  DoublyLinkedList.repr linked_heap linked_list [1%nat; 0%nat] ∧ 0%nat ∈ [1%nat; 0%nat] ∧
  DoublyLinkedList.repr (DoublyLinkedList.remove 0%nat (linked_heap, linked_list)).1
    (DoublyLinkedList.remove 0%nat (linked_heap, linked_list)).2 [1%nat].
Proof.
  split; [exact linked_repr|]. split; [exact listed_ref|].
  exact (proj1 (remove_unlinks linked_heap linked_list _ 0%nat linked_repr listed_ref)).
Defined.

Lemma moveToFront_promotes_witness :
  DoublyLinkedList.repr linked_heap linked_list [1%nat; 0%nat] ∧ 0%nat ∈ [1%nat; 0%nat] ∧
  DoublyLinkedList.repr (DoublyLinkedList.moveToFront 0%nat (linked_heap, linked_list)).1
    (DoublyLinkedList.moveToFront 0%nat (linked_heap, linked_list)).2 [0%nat; 1%nat].
Proof.
  split; [exact linked_repr|]. split; [exact listed_ref|].
  exact (proj1 (moveToFront_promotes linked_heap linked_list _ 0%nat linked_repr listed_ref)).
Defined.

Lemma removeTail_pops_least_recent_witness :
  DoublyLinkedList.repr linked_heap linked_list [1%nat; 0%nat] ∧
  (DoublyLinkedList.removeTail (linked_heap, linked_list)).1 = Some 0%nat ∧
  DoublyLinkedList.repr (DoublyLinkedList.removeTail (linked_heap, linked_list)).2.1
    (DoublyLinkedList.removeTail (linked_heap, linked_list)).2.2 [1%nat].
Proof.
  split; [exact linked_repr|].
  pose proof (removeTail_pops_least_recent linked_heap linked_list _ linked_repr)
    as (H1 & H2 & _).
  split; [exact H1|exact H2].
Defined.

Lemma iteration_start_wf : TtlCache.wf iteration_start.
Proof. apply reach_wf, new_wf. Qed.

Lemma no_room_wf : TtlCache.wf no_room.
Proof. apply new_wf. Qed.

Lemma empty_wf : TtlCache.wf (TtlCache.new None : Cache).
Proof. apply new_wf. Qed.

Lemma has_reports_unexpired_witness :
  TtlCache.consistent loaded_with_swr ∧
  (TtlCache.has 7%nat 1050 loaded_with_swr).1 = true ∧
  (TtlCache.get 7%nat 1050 loaded_with_swr).1 = None.
Proof.
  pose proof (has_reports_unexpired loaded_with_swr 7%nat 1050
                (proj1 loaded_with_swr_wf)) as H.
  split; [exact (proj1 loaded_with_swr_wf)|].
  vm_compute in H. vm_compute. destruct H as (H1 & H2).
  split; [exact (f_equal fst H1) | exact (H2 eq_refl)].
Defined.

Lemma delete_removes_witness :
  TtlCache.consistent two_entries ∧
  (TtlCache.delete 1%nat two_entries).1 = true ∧
  TtlCache.lru_keys (TtlCache.delete 1%nat two_entries).2 = [2%nat].
Proof.
  pose proof (delete_removes two_entries 1%nat (proj1 two_entries_wf)) as (H1 & _ & H2 & _).
  split; [exact (proj1 two_entries_wf)|].
  split; [rewrite H1; reflexivity|rewrite H2; reflexivity].
Defined.

Lemma prune_removes_expired_witness :
  TtlCache.consistent iteration_start ∧
  TtlCache.lru_keys (TtlCache.prune 150 iteration_start) = [2%nat] ∧
  TtlCache.prune 150 (TtlCache.prune 150 iteration_start) = TtlCache.prune 150 iteration_start.
Proof.
  pose proof (prune_removes_expired iteration_start 150 (proj1 iteration_start_wf))
    as (_ & H1 & _ & _ & H2 & _).
  split; [exact (proj1 iteration_start_wf)|].
  split; [rewrite H1; reflexivity|exact H2].
Defined.

Lemma set_get_round_trip_witness :
  TtlCache.consistent two_entries ∧ TtlCache.capacity_ok two_entries ∧
  ∃ c', TtlCache.set 3%nat 30%nat None 0 two_entries = Some c' ∧
    (TtlCache.get 3%nat 29999 c').1 = Some 30%nat ∧
    (TtlCache.has 3%nat 29999 c').1 = true.
Proof.
  assert (TtlCache.capacity_ok two_entries) as Hcap by (vm_compute; discriminate).
  pose proof (set_get_round_trip two_entries 3%nat 30%nat None 0 29999
                (proj1 two_entries_wf) Hcap) as (c' & Hset & Hg & _ & Hh & _).
  split; [exact (proj1 two_entries_wf)|]. split; [exact Hcap|].
  exists c'. split; [exact Hset|].
  split; [rewrite Hg; reflexivity|rewrite Hh; reflexivity].
Defined.

Lemma set_existing_keeps_size_witness :
  TtlCache.consistent two_entries ∧
  TtlCache.lookup 1%nat two_entries = Some entry_1 ∧
  ∃ c', TtlCache.set 1%nat 11%nat None 5 two_entries = Some c' ∧
    TtlCache.size c' = 2%nat ∧
    TtlCache.lru_keys c' = [1%nat; 2%nat].
Proof.
  assert (TtlCache.lookup 1%nat two_entries = Some entry_1) as Hl by reflexivity.
  pose proof (set_existing_keeps_size two_entries 1%nat 11%nat None 5 entry_1
                (proj1 two_entries_wf) Hl) as (c' & Hset & _ & Hsize & Hkeys & _).
  split; [exact (proj1 two_entries_wf)|]. split; [exact Hl|].
  exists c'. split; [exact Hset|].
  split; [rewrite Hsize; reflexivity|rewrite Hkeys; reflexivity].
Defined.

Lemma zero_capacity_keeps_nothing_witness :
  TtlCache.consistent no_room ∧ TtlCache.lookup 1%nat no_room = None ∧
  TtlCache.maxSize no_room = Some 0 ∧ 0 ≤ 0 ∧
  ∃ c', TtlCache.set 1%nat 10%nat None 0 no_room = Some c' ∧
    TtlCache.size c' = 0%nat ∧
    TtlCache.c_log c' =
      [TtlCache.OnEvict 1%nat 10%nat R_evicted; TtlCache.Emit Ev_evict 1%nat (Some 10%nat);
       TtlCache.Emit Ev_set 1%nat (Some 10%nat)].
Proof.
  pose proof (zero_capacity_keeps_nothing no_room 1%nat 10%nat None 0 0
                (proj1 no_room_wf) eq_refl eq_refl (Z.le_refl 0))
    as (c' & Hset & Hsize & _ & _ & Hlog).
  split; [exact (proj1 no_room_wf)|]. split_and!; [reflexivity|reflexivity|reflexivity|].
  exists c'. split; [exact Hset|]. split; [exact Hsize|exact Hlog].
Defined.

Lemma iteration_yields_fresh_witness :
  TtlCache.consistent iteration_start ∧
  ∃ pairs,
    TtlCache.drain 3 150 TtlCache.GenStart iteration_start =
      Some (pairs, TtlCache.prune 150 iteration_start) ∧
    ((2%nat, 20%nat) ∈ pairs) ∧ NoDup pairs.*1.
Proof.
  pose proof (iteration_yields_fresh iteration_start 150 (proj1 iteration_start_wf))
    as (pairs & Hdrain & Hiff & Hnd & _).
  split; [exact (proj1 iteration_start_wf)|].
  exists pairs. split; [exact Hdrain|]. split; [|exact Hnd].
  apply Hiff. exists (CacheEntry.mk 2%nat 20%nat 500 500 None (Some 0%nat)).
  split_and!; reflexivity.
Defined.


Lemma getOrSet_without_dedupe_witness :
  let c : Cache := TtlCache.new None in
  TtlCache.wf c ∧
  TtlCache.dedupe_on no_dedupe = false ∧
  TtlCache.signal_aborted (no_dedupe ≫= GetOrSetOptions.signal) c = None ∧
  (∀ e, TtlCache.lookup 7%nat c = Some e →
        CacheEntry.isFresh e 0 = false ∧ CacheEntry.isStale e 0 = false) ∧
  TtlCache.c_loads (TtlCache.getOrSet 1 7%nat 0 no_dedupe 0 c) =
    [TtlCache.mkLoad 7%nat 0 no_dedupe TtlCache.Pending] ∧
  TtlCache.c_inflight (TtlCache.getOrSet 1 7%nat 0 no_dedupe 0 c) = TtlCache.c_inflight c.
Proof.
  intros c.
  assert (∀ e, TtlCache.lookup 7%nat c = Some e →
        CacheEntry.isFresh e 0 = false ∧ CacheEntry.isStale e 0 = false) as Hmiss
    by (intros e He; discriminate He).
  pose proof (getOrSet_without_dedupe c 1 7%nat 0 no_dedupe 0 empty_wf eq_refl eq_refl Hmiss)
    as (H1 & H2 & _).
  split_and!; [exact empty_wf|reflexivity|reflexivity|exact Hmiss|exact H1|exact H2].
Defined.


Lemma failed_load_allows_retry_witness :
  let c : Cache := TtlCache.new None in
  TtlCache.wf c ∧
  JsMap.get 7%nat (TtlCache.c_inflight c) = None ∧
  (∀ e, TtlCache.lookup 7%nat c = Some e →
        CacheEntry.isFresh e (TtlCache.call_now first_try) = false ∧
        CacheEntry.isStale e (TtlCache.call_now first_try) = false) ∧
  (∀ x, x ∈ [first_try; second_try] →
     TtlCache.dedupe_on (TtlCache.call_options x) = true ∧
     TtlCache.signal_aborted (TtlCache.call_options x ≫= GetOrSetOptions.signal) c = None) ∧
  ∃ c2, TtlCache.settle 0 (inr 99%nat) 3 (TtlCache.getOrSet_call 7%nat c first_try) = Some c2 ∧
    TtlCache.c_results c2 = [(1%nat, TtlCache.Rejected (TtlCache.LoaderError 99%nat))] ∧
    JsMap.get 7%nat (TtlCache.c_inflight (TtlCache.getOrSet_call 7%nat c2 second_try)) =
      Some 1%nat.
Proof.
  intros c.
  assert (∀ e, TtlCache.lookup 7%nat c = Some e →
        CacheEntry.isFresh e (TtlCache.call_now first_try) = false ∧
        CacheEntry.isStale e (TtlCache.call_now first_try) = false) as Hmiss
    by (intros e He; discriminate He).
  assert (∀ x, x ∈ [first_try; second_try] →
     TtlCache.dedupe_on (TtlCache.call_options x) = true ∧
     TtlCache.signal_aborted (TtlCache.call_options x ≫= GetOrSetOptions.signal) c = None)
    as Hcalls.
  { intros x Hin.
    repeat (apply elem_of_cons in Hin as [->|Hin]; [by split|]).
    by apply elem_of_nil in Hin. }
  pose proof (failed_load_allows_retry c 7%nat first_try second_try 99%nat 3
                empty_wf eq_refl Hmiss Hcalls)
    as (c2 & Hset & _ & _ & _ & _ & Hres & _ & _ & Hinf).
  split_and!; [exact empty_wf|reflexivity|exact Hmiss|exact Hcalls|].
  exists c2. split; [exact Hset|]. split; [exact Hres|exact Hinf].
Defined.

End MoreExamples.
